(** * Resume optimizer: the analysis and matching engine

    A shallow embedding of [app/services/enhanced_analyzer.py]
    (class [EnhancedResumeAnalyzer]) and the properties of its text
    analyzer, match scorer and suggestion engine.

    Conventions of the embedding.
    - A Python [str] is a list of Unicode code points ([str := list N]).
    - Python [int] is [Z]; Python [float] is modelled by exact rationals
      ([Q]): every constant of the program (0.35, 1.5, 0.7, ...) is the
      rational it denotes and no rounding happens between operations.
      The only rounding kept is the explicit [round(x, 1)] of the
      reported scores.
    - A Python [set] of strings is a [gset str]; the order in which the
      interpreter iterates over a set is not fixed by the language and is
      a parameter ([SetOrder]).
    - The interpreter's Unicode database (case mapping, [\w] and [\d]
      outside ASCII) is not part of the repository and is a parameter
      ([Unicode]); the ASCII range is written out.
    - Operations that raise in Python ([int], [max] of an empty list,
      indexing, division) return in the [result] error monad. *)

From Stdlib Require Import ZArith QArith Qround Qminmax Lia Lqa Ascii String.
From stdpp Require Import prelude strings pretty gmap sorting.

Set Default Proof Using "Type".
#[local] Set Warnings "-comment-terminator-in-string".

(** ** Strings *)

Definition char := N.
Definition str := list char.

(** A string literal of the source, for ASCII literals. *)
Definition lit (x : string) : str :=
  (λ a, N_of_ascii a) <$> list_ascii_of_string x.

Definition is_ascii (c : char) : bool := (c <? 128)%N.
Definition ascii_digit (c : char) : bool := (48 <=? c)%N && (c <=? 57)%N.
Definition ascii_upper (c : char) : bool := (65 <=? c)%N && (c <=? 90)%N.
Definition ascii_lower (c : char) : bool := (97 <=? c)%N && (c <=? 122)%N.
Definition ascii_alpha (c : char) : bool := ascii_upper c || ascii_lower c.
Definition ascii_alnum (c : char) : bool := ascii_alpha c || ascii_digit c.
Definition ascii_tolower (c : char) : char :=
  if ascii_upper c then (c + 32)%N else c.

(** [str.isspace] of one code point: the whitespace of [str.split],
    [str.strip] and of [\s] in a [str] pattern. *)
Definition isspace (c : char) : bool :=
  ((9 <=? c) && (c <=? 13) || (28 <=? c) && (c <=? 32)
   || (c =? 0x85) || (c =? 0xA0) || (c =? 0x1680)
   || (0x2000 <=? c) && (c <=? 0x200A)
   || (c =? 0x2028) || (c =? 0x2029) || (c =? 0x202F)
   || (c =? 0x205F) || (c =? 0x3000))%N.

(** The part of the interpreter's Unicode database the analyzer goes
    through: [str.lower] on a string with a non-ASCII character, and
    the alphanumeric and decimal-digit classes outside ASCII, and the
    case-insensitive comparison of a letter with a non-ASCII character. *)
Record Unicode := {
  uni_lower : str → str;
  uni_alnum : char → bool;
  uni_decimal : char → option Z;
  (* [uni_ignorecase p c]: under [re.IGNORECASE] the ASCII letter [p] of a
     pattern matches the non-ASCII character [c] *)
  uni_ignorecase : char → char → bool;
}.

(** The database that knows no letter and no digit outside ASCII, to run
    the analyzer on ASCII texts. *)
Definition ascii_only : Unicode := {|
  uni_lower := fmap ascii_tolower;
  uni_alnum := λ _, false;
  uni_decimal := λ _, None;
  uni_ignorecase := λ _ _, false;
|}.

(** ** The error monad *)

Inductive exn :=
| ValueError (msg : string)
| IndexError
| KeyError
| AttributeError
| ZeroDivisionError.

Inductive result (A : Type) := Ok (a : A) | Raise (e : exn).
Arguments Ok {A} a.
Arguments Raise {A} e.

#[global] Instance result_ret : MRet result := λ A a, Ok a.
#[global] Instance result_bind : MBind result := λ A B f m,
  match m with
  | Ok a => f a
  | Raise e => Raise e
  end.

(** ** Regular expressions

    The patterns of the source are kept as syntax trees and run by a
    backtracking matcher with the priorities of Python's [re]: greedy
    repetition, alternatives tried left to right, leftmost match. *)

Inductive regex :=
| RChar (p : char → bool)
| REmpty
| RWordB
| RSeq (r1 r2 : regex)
| RAlt (r1 r2 : regex)
| RRep (lo : nat) (hi : option nat) (r : regex)
| RGroup (i : nat) (r : regex).

(** A position in the subject: the character before it, its index and
    the text from it on. *)
Record cursor := { prev : option char; pos : nat; rest : str }.

Definition start_of (text : str) : cursor :=
  {| prev := None; pos := 0; rest := text |}.

Definition advance (x : char) (xs : str) (c : cursor) : cursor :=
  {| prev := Some x; pos := S (pos c); rest := xs |}.

(** Group number and the span it matched last, most recent first. *)
Definition caps := list (nat * (nat * nat)).

Definition more_allowed (n : nat) (hi : option nat) : bool :=
  match hi with
  | None => true
  | Some h => n <? h
  end.

Section Engine.
Context (U : Unicode).

Definition lower (s : str) : str :=
  if forallb is_ascii s then ascii_tolower <$> s else uni_lower U s.

(** [\w] *)
Definition is_word (c : char) : bool :=
  if is_ascii c then ascii_alnum c || (c =? 95)%N else uni_alnum U c.

(** The value of a decimal digit, [\d]. *)
Definition decimal_value (c : char) : option Z :=
  if is_ascii c then
    if ascii_digit c then Some (Z.of_N c - 48)%Z else None
  else uni_decimal U c.

Definition is_digit (c : char) : bool := bool_decide (is_Some (decimal_value c)).

Definition word_opt (o : option char) : bool :=
  match o with
  | Some c => is_word c
  | None => false
  end.

(** [\b]: exactly one side is a word character. *)
Definition at_boundary (c : cursor) : bool :=
  xorb (word_opt (prev c)) (word_opt (head (rest c))).

Fixpoint rmatch (r : regex) (k : cursor → caps → option (cursor * caps))
    (c : cursor) (g : caps) : option (cursor * caps) :=
  match r with
  | RChar p =>
      match rest c with
      | x :: xs => if p x then k (advance x xs c) g else None
      | [] => None
      end
  | REmpty => k c g
  | RWordB => if at_boundary c then k c g else None
  | RSeq r1 r2 => rmatch r1 (rmatch r2 k) c g
  | RAlt r1 r2 =>
      match rmatch r1 k c g with
      | Some m => Some m
      | None => rmatch r2 k c g
      end
  | RGroup i r' =>
      rmatch r' (λ c' g', k c' ((i, (pos c, pos c')) :: g')) c g
  | RRep lo hi r' =>
      (fix loop (fuel n : nat) (c : cursor) (g : caps) :=
         let stop := if lo <=? n then k c g else None in
         match fuel with
         | 0 => stop
         | S fuel' =>
             if more_allowed n hi then
               match rmatch r'
                       (λ c' g', if pos c <? pos c'
                                 then loop fuel' (S n) c' g' else None)
                       c g with
               | Some m => Some m
               | None => stop
               end
             else stop
         end) (S (length (rest c))) 0 c g
  end.

Definition match_at (r : regex) (c : cursor) : option (cursor * caps) :=
  rmatch r (λ c' g', Some (c', g')) c [].

(** The leftmost match at or after a position. *)
Fixpoint scan (r : regex) (p : option char) (i : nat) (s : str)
    : option (nat * cursor * caps) :=
  match match_at r {| prev := p; pos := i; rest := s |} with
  | Some (c', g) => Some (i, c', g)
  | None =>
      match s with
      | [] => None
      | x :: xs => scan r (Some x) (S i) xs
      end
  end.

(** [re.search(pattern, text)] as a truth value. *)
Definition re_search (r : regex) (text : str) : bool :=
  bool_decide (is_Some (scan r None 0 text)).
End Engine.

(** ** [re.findall] and pattern syntax *)

Definition substr (text : str) (i j : nat) : str := take (j - i) (drop i text).

Fixpoint span_of (i : nat) (g : caps) : option (nat * nat) :=
  match g with
  | [] => None
  | (j, sp) :: g' => if Nat.eqb i j then Some sp else span_of i g'
  end.

(** The text of a group; a group that took no part in the match gives
    the empty string, as in the results of [re.findall]. *)
Definition group (text : str) (g : caps) (i : nat) : str :=
  match span_of i g with
  | Some (a, b) => substr text a b
  | None => []
  end.

Fixpoint ngroups (r : regex) : nat :=
  match r with
  | RChar _ | REmpty | RWordB => 0
  | RSeq r1 r2 | RAlt r1 r2 => ngroups r1 `max` ngroups r2
  | RRep _ _ r' => ngroups r'
  | RGroup i r' => i `max` ngroups r'
  end.

(** One item of the list [re.findall] returns: a string when the
    pattern has at most one group, a tuple of strings otherwise. *)
Inductive found := Single (s : str) | Tuple (ss : list str).

Definition found_of (r : regex) (text : str) (start : nat) (c' : cursor)
    (g : caps) : found :=
  match ngroups r with
  | 0 => Single (substr text start (pos c'))
  | 1 => Single (group text g 1)
  | n => Tuple (group text g <$> seq 1 n)
  end.

Section Findall.
Context (U : Unicode).

(** Matches are taken left to right without overlap; after an empty
    match the search moves on by one character. *)
Fixpoint findall_from (fuel : nat) (r : regex) (text : str) (c : cursor)
    : list found :=
  match fuel with
  | 0 => []
  | S fuel' =>
      match scan U r (prev c) (pos c) (rest c) with
      | None => []
      | Some (i, c', g) =>
          found_of r text i c' g ::
          (if i <? pos c' then findall_from fuel' r text c'
           else match rest c' with
                | [] => []
                | x :: xs => findall_from fuel' r text (advance x xs c')
                end)
      end
  end.

Definition re_findall (r : regex) (text : str) : list found :=
  findall_from (S (length text)) r text (start_of text).
End Findall.

(** Pattern syntax. *)
Definition rchr (c : char) : regex := RChar (N.eqb c).

(** [re.escape(s)]: the pattern that matches [s] literally. *)
Definition re_escape (s : str) : regex := foldr (λ c r, RSeq (rchr c) r) REmpty s.

Definition rlit (x : string) : regex := re_escape (lit x).
Definition rseq (rs : list regex) : regex := foldr RSeq REmpty rs.
Definition ralt (rs : list regex) : regex :=
  match rs with
  | [] => REmpty
  | r :: rs' => foldl RAlt r rs'
  end.
Definition ropt (r : regex) : regex := RRep 0 (Some 1) r.
Definition rstar (r : regex) : regex := RRep 0 None r.
Definition rplus (r : regex) : regex := RRep 1 None r.

(** [\s] *)
Definition rspace : regex := RChar isspace.
(** [(?:years?|yrs?)] *)
Definition r_years : regex :=
  RAlt (RSeq (rlit "year") (ropt (rlit "s"))) (RSeq (rlit "yr") (ropt (rlit "s"))).

(** ** String operations of the runtime *)

Fixpoint is_prefix (p s : str) : bool :=
  match p, s with
  | [], _ => true
  | _ :: _, [] => false
  | a :: p', b :: s' => (a =? b)%N && is_prefix p' s'
  end.

(** [needle in hay] *)
Fixpoint contains (needle hay : str) : bool :=
  is_prefix needle hay ||
  match hay with
  | [] => false
  | _ :: hay' => contains needle hay'
  end.

Fixpoint lstrip (s : str) : str :=
  match s with
  | [] => []
  | c :: s' => if isspace c then lstrip s' else s
  end.

(** [s.strip()] *)
Definition strip (s : str) : str := reverse (lstrip (reverse (lstrip s))).

(** [s.split()]: the maximal runs of characters that are not whitespace.
    [cur] holds the run being read, last character first. *)
Fixpoint split_ws_aux (cur : str) (s : str) : list str :=
  match s with
  | [] => match cur with [] => [] | _ => [reverse cur] end
  | c :: s' =>
      if isspace c then
        match cur with
        | [] => split_ws_aux [] s'
        | _ => reverse cur :: split_ws_aux [] s'
        end
      else split_ws_aux (c :: cur) s'
  end.

Definition split_ws (s : str) : list str := split_ws_aux [] s.

(** [s.split(sep)] for a separator that is not empty: [skip] counts the
    characters of a separator still to pass over. *)
Fixpoint split_on_aux (sep : str) (skip : nat) (cur : str) (s : str) : list str :=
  match s with
  | [] => [reverse cur]
  | c :: s' =>
      match skip with
      | S n => split_on_aux sep n cur s'
      | 0 =>
          if is_prefix sep s
          then reverse cur :: split_on_aux sep (length sep - 1) [] s'
          else split_on_aux sep 0 (c :: cur) s'
      end
  end.

Definition split_on (sep s : str) : list str := split_on_aux sep 0 [] s.

(** [sep.join(parts)] *)
Fixpoint join (sep : str) (parts : list str) : str :=
  match parts with
  | [] => []
  | [p] => p
  | p :: ps => p ++ sep ++ join sep ps
  end.

(** The truth value of a string or a list: it is not empty. *)
Definition truthy {A} (l : list A) : bool :=
  match l with
  | [] => false
  | _ :: _ => true
  end.

(** [list(dict.fromkeys(l))]: duplicates dropped, first occurrences kept
    in order. *)
Definition dict_fromkeys (l : list str) : list str :=
  foldl (λ acc x, if bool_decide (x ∈ acc) then acc else acc ++ [x]) [] l.

(** ** The skill and pattern catalog ([_initialize_skill_databases]) *)

Definition programming_languages : list str := lit <$> [
    "python"; "java"; "javascript"; "typescript"; "c++"; "c#"; "php";
    "ruby"; "go"; "rust"; "swift"; "kotlin"; "scala"; "r"; "matlab";
    "perl"; "shell"; "bash"; "powershell"; "sql"; "html"; "css"; "sass";
    "less"; "dart"; "elixir"; "haskell"; "clojure"; "f#"; "vb.net";
    "cobol"; "fortran"; "assembly"; "lua"; "groovy"
  ]%string.

Definition frameworks_libraries : list str := lit <$> [
    "react"; "angular"; "vue"; "svelte"; "ember"; "backbone"; "jquery";
    "nodejs"; "express"; "koa"; "fastify"; "django"; "flask"; "fastapi";
    "pyramid"; "tornado"; "spring"; "spring boot"; "hibernate"; "struts";
    "laravel"; "symfony"; "codeigniter"; "rails"; "sinatra"; "asp.net";
    "mvc"; "blazor"; "xamarin"; "unity"; "unreal"; "tensorflow"; "pytorch";
    "keras"; "scikit-learn"; "pandas"; "numpy"; "matplotlib"; "seaborn";
    "plotly"; "opencv"; "nltk"; "spacy"; "hugging face"; "transformers"
  ]%string.

Definition databases : list str := lit <$> [
    "mysql"; "postgresql"; "sqlite"; "oracle"; "sql server"; "mongodb";
    "cassandra"; "redis"; "elasticsearch"; "solr"; "neo4j"; "dynamodb";
    "couchdb"; "influxdb"; "firebase"; "mariadb"; "cockroachdb";
    "amazon rds"; "azure sql"; "google cloud sql"
  ]%string.

Definition cloud_devops : list str := lit <$> [
    "aws"; "azure"; "gcp"; "google cloud platform"; "digital ocean";
    "linode"; "docker"; "kubernetes"; "openshift"; "helm"; "istio";
    "jenkins"; "github actions"; "gitlab ci"; "circle ci"; "travis ci";
    "azure devops"; "terraform"; "ansible"; "chef"; "puppet"; "vagrant";
    "packer"; "consul"; "vault"; "nomad"; "prometheus"; "grafana";
    "elk stack"; "datadog"; "new relic"; "splunk"; "nagios"; "zabbix"
  ]%string.

Definition tools_technologies : list str := lit <$> [
    "git"; "github"; "gitlab"; "bitbucket"; "svn"; "mercurial"; "jira";
    "confluence"; "slack"; "microsoft teams"; "zoom"; "figma"; "sketch";
    "adobe xd"; "photoshop"; "illustrator"; "after effects";
    "premiere pro"; "blender"; "autocad"; "solidworks"; "excel"; "powerbi";
    "tableau"; "qlik"; "looker"; "apache spark"; "hadoop"; "kafka";
    "rabbitmq"; "celery"; "airflow"; "luigi"; "prefect"; "dbt"
  ]%string.

Definition soft_skills : list str := lit <$> [
    "leadership"; "communication"; "teamwork"; "collaboration";
    "problem solving"; "analytical thinking"; "critical thinking";
    "creative thinking"; "innovation"; "adaptability"; "flexibility";
    "resilience"; "time management"; "organization"; "project management";
    "stakeholder management"; "client relations"; "customer service";
    "presentation skills"; "public speaking"; "negotiation";
    "conflict resolution"; "mentoring"; "coaching"; "training";
    "strategic planning"; "decision making"; "attention to detail";
    "quality assurance"; "continuous improvement"; "agile mindset";
    "emotional intelligence"; "cultural awareness"; "remote work";
    "cross-functional collaboration"
  ]%string.

Definition methodologies : list str := lit <$> [
    "agile"; "scrum"; "kanban"; "lean"; "six sigma"; "devops"; "ci/cd";
    "tdd"; "bdd"; "pair programming"; "code review"; "microservices";
    "monolith"; "serverless"; "event-driven architecture";
    "domain-driven design"; "clean architecture"; "solid principles";
    "design patterns"; "rest api"; "graphql"; "grpc"; "oauth"; "jwt";
    "saml"; "ldap"; "sso"; "encryption"; "ssl/tls"; "penetration testing";
    "vulnerability assessment"; "compliance"; "gdpr"; "hipaa"; "sox";
    "pci dss"
  ]%string.

Definition industry_skills : list (str * list str) := [
  (lit "fintech", lit <$> [
      "blockchain"; "cryptocurrency"; "defi"; "trading algorithms";
      "risk management"; "compliance"; "kyc"; "aml"
    ]%string);
  (lit "healthcare", lit <$> [
      "hipaa"; "hl7"; "fhir"; "medical devices"; "clinical trials";
      "telemedicine"; "ehr"; "emr"
    ]%string);
  (lit "ecommerce", lit <$> [
      "payment processing"; "inventory management"; "supply chain";
      "logistics"; "crm"; "shopify"; "magento"; "woocommerce"
    ]%string);
  (lit "gaming", lit <$> [
      "game engines"; "unity"; "unreal engine"; "c#"; "c++";
      "graphics programming"; "shader programming";
      "multiplayer networking"
    ]%string);
  (lit "iot", lit <$> [
      "embedded systems"; "sensors"; "actuators"; "edge computing"; "mqtt";
      "lorawan"; "zigbee"; "bluetooth"
    ]%string);
  (lit "ai_ml", lit <$> [
      "machine learning"; "deep learning"; "neural networks";
      "computer vision"; "nlp"; "reinforcement learning"; "mlops";
      "model deployment"
    ]%string)
  ].

(** The six lists joined, the industry lists appended in the order of
    the table, duplicates removed. *)
Definition all_technical_skills : list str :=
  dict_fromkeys
    ((programming_languages ++ frameworks_libraries ++ databases ++
      cloud_devops ++ tools_technologies ++ methodologies)
     ++ concat (snd <$> industry_skills)).

(** ** Numbers and builtins of the runtime *)

(** [a / b] on numbers. *)
Definition truediv (a b : Q) : result Q :=
  if Qeq_bool b 0 then Raise ZeroDivisionError else Ok (a / b)%Q.

(** [max(l)] and [min(l)] of a list of integers: an empty list raises. *)
Definition py_max (l : list Z) : result Z :=
  match l with
  | [] => Raise (ValueError "max() arg is an empty sequence")
  | x :: l' => Ok (foldl Z.max x l')
  end.

Definition py_min (l : list Z) : result Z :=
  match l with
  | [] => Raise (ValueError "min() arg is an empty sequence")
  | x :: l' => Ok (foldl Z.min x l')
  end.

(** [max(l, key=key)]: the first element whose key is the largest. *)
Definition py_max_by {A} (key : A → Z) (l : list A) : result A :=
  match l with
  | [] => Raise (ValueError "max() arg is an empty sequence")
  | x :: l' => Ok (foldl (λ best y, if (key best <? key y)%Z then y else best) x l')
  end.

(** [l[0]] *)
Definition first_item {A} (l : list A) : result A :=
  match l with
  | [] => Raise IndexError
  | x :: _ => Ok x
  end.

(** [sorted(l, key=key, reverse=True)]: a stable sort in descending
    order of the key; elements with equal keys keep the order they have
    in [l]. *)
Fixpoint insert_desc {A} (key : A → Z) (x : A) (l : list A) : list A :=
  match l with
  | [] => [x]
  | y :: l' => if (key x <? key y)%Z then y :: insert_desc key x l' else x :: l
  end.

Definition sorted_desc {A} (key : A → Z) (l : list A) : list A :=
  foldr (insert_desc key) [] l.

(** Rounding to the nearest integer, ties to the even one, and
    [round(x, 1)]. *)
Definition round_half_even (q : Q) : Z :=
  let f := Qfloor q in
  match (q - inject_Z f ?= 1 # 2)%Q with
  | Lt => f
  | Gt => (f + 1)%Z
  | Eq => if Z.even f then f else (f + 1)%Z
  end.

Definition round1 (q : Q) : Q := (inject_Z (round_half_even (q * 10)) / 10)%Q.

(** A lookup in a dictionary written as a list of items. *)
Fixpoint dict_get {V} (d : list (str * V)) (key : str) : option V :=
  match d with
  | [] => None
  | (k, v) :: d' => if bool_decide (k = key) then Some v else dict_get d' key
  end.

(** [Counter(words)]: the words in the order they are first seen, each
    with the number of its occurrences. *)
Fixpoint counter_add (w : str) (d : list (str * Z)) : list (str * Z) :=
  match d with
  | [] => [(w, 1%Z)]
  | (k, n) :: d' =>
      if bool_decide (k = w) then (k, (n + 1)%Z) :: d' else (k, n) :: counter_add w d'
  end.

Definition Counter (words : list str) : list (str * Z) :=
  foldl (λ d w, counter_add w d) [] words.

(** [c.most_common(n)] *)
Definition most_common (n : nat) (c : list (str * Z)) : list (str * Z) :=
  take n (sorted_desc snd c).

(** [s.title()] on an ASCII string. *)
Fixpoint title_aux (in_word : bool) (s : str) : str :=
  match s with
  | [] => []
  | c :: s' =>
      (if ascii_alpha c
       then (if in_word then ascii_tolower c
             else if ascii_lower c then (c - 32)%N else c)
       else c) :: title_aux (ascii_alpha c) s'
  end.

Definition title (s : str) : str := title_aux false s.

Definition count_if {A} (p : A → bool) (l : list A) : Z :=
  Z.of_nat (length (filter (λ x, p x = true) l)).

Definition len {A} (l : list A) : Z := Z.of_nat (length l).

(** ** Facts and match results

    The dictionaries the analyzer returns, one record per kind, with
    the keys of the source as field names. *)

Module Quality.
Record t := {
  quantification_score : Z;
  action_verb_score : Z;
  overall_quality : Q;
  numbers_found : Z;
  action_verbs_found : Z;
}.
End Quality.

Module Resume.
Record t := {
  word_count : Z;
  character_count : Z;
  line_count : Z;
  paragraph_count : Z;
  technical_skills : list str;
  soft_skills : list str;
  experience_years : Z;
  experience_level : str;
  education_level : option str;
  education_score : Z;
  contact_info : list (str * found);
  quality_metrics : Quality.t;
  keywords : list str;
  detected_industry : str;
  ats_compatibility_score : Q;
}.
End Resume.

Module Job.
Record t := {
  technical_skills : list str;
  soft_skills : list str;
  experience_required : Z;
  job_level : str;
  education_required : option str;
  remote_friendly : bool;
  company_size : str;
  is_remote_friendly : bool;
  urgent_hire : bool;
  competitive_position : bool;
  keywords : list str;
  industry : str;
  job_complexity_score : Q;
}.
End Job.

Module Match.
Record t := {
  overall_score : Q;
  technical_score : Q;
  soft_skills_score : Q;
  experience_score : Q;
  education_score : Q;
  industry_score : Q;
  keyword_score : Q;
  ats_compatibility_score : Q;
  matched_technical_skills : list str;
  missing_technical_skills : list str;
  matched_soft_skills : list str;
  missing_soft_skills : list str;
  matched_keywords : list str;
  matched_skills : list str;
  experience_gap : Z;
  experience_surplus : Z;
  match_strength : str;
  top_skill_gaps : list str;
  scoring_weights : list (str * Q);
}.
End Match.

(** ** The text analyzer *)

Section Analyzer.
Context (U : Unicode).

(** [\d] *)
Definition rdigit : regex := RChar (is_digit U).
(** [(\d+)] as group [i] *)
Definition rnum (i : nat) : regex := RGroup i (rplus rdigit).
(** [[\+]?] *)
Definition rplus_sign : regex := ropt (rlit "+").
Definition rspaces : regex := rstar rspace.

(** [_initialize_analysis_patterns]: the experience patterns. *)
Definition experience_patterns : list regex := [
  (* r"(\d+)[\+]?\s*(?:years?|yrs?)\s*(?:of\s*)?(?:experience|exp)" *)
  rseq [rnum 1; rplus_sign; rspaces; r_years; rspaces;
        ropt (RSeq (rlit "of") rspaces);
        RAlt (rlit "experience") (rlit "exp")];
  (* r"(\d+)[\+]?\s*(?:year|yr)\s*(?:experience|exp)" *)
  rseq [rnum 1; rplus_sign; rspaces; RAlt (rlit "year") (rlit "yr"); rspaces;
        RAlt (rlit "experience") (rlit "exp")];
  (* r"experience[:\s]*(\d+)[\+]?\s*(?:years?|yrs?)" *)
  rseq [rlit "experience"; rstar (RChar (λ c, (c =? 58)%N || isspace c));
        rnum 1; rplus_sign; rspaces; r_years];
  (* r"(\d+)[\+]?\s*(?:years?|yrs?)\s*(?:in|with|of)" *)
  rseq [rnum 1; rplus_sign; rspaces; r_years; rspaces;
        ralt [rlit "in"; rlit "with"; rlit "of"]];
  (* r"over\s*(\d+)\s*(?:years?|yrs?)" *)
  rseq [rlit "over"; rspaces; rnum 1; rspaces; r_years];
  (* r"more than\s*(\d+)\s*(?:years?|yrs?)" *)
  rseq [rlit "more than"; rspaces; rnum 1; rspaces; r_years]
].

(** The patterns of [_extract_required_experience]. *)
Definition required_experience_patterns : list regex := [
  (* r"(\d+)[\+]?\s*(?:years?|yrs?)\s*(?:of\s*)?(?:experience|exp)" *)
  rseq [rnum 1; rplus_sign; rspaces; r_years; rspaces;
        ropt (RSeq (rlit "of") rspaces);
        RAlt (rlit "experience") (rlit "exp")];
  (* r"minimum\s*(\d+)\s*(?:years?|yrs?)" *)
  rseq [rlit "minimum"; rspaces; rnum 1; rspaces; r_years];
  (* r"at least\s*(\d+)\s*(?:years?|yrs?)" *)
  rseq [rlit "at least"; rspaces; rnum 1; rspaces; r_years];
  (* r"(\d+)[\+]?\s*(?:to|\-)\s*(\d+)\s*(?:years?|yrs?)" *)
  rseq [rnum 1; rplus_sign; rspaces; RAlt (rlit "to") (rlit "-"); rspaces;
        rnum 2; rspaces; r_years]
].

(** [s.isdigit()], on the strings the program applies it to, the
    captures of [\d+]: there the digit class of [str.isdigit] and the
    decimal class of [\d] agree. *)
Definition isdigit (s : str) : bool := truthy s && forallb (is_digit U) s.

(** [int(s)] on a string of decimal digits; any other string raises
    here (the program calls [int] under [isdigit] only). The integer is
    unbounded: the interpreter's configurable limit on the number of
    digits of a converted string is not modelled. *)
Definition py_int (s : str) : result Z :=
  match s, mapM (decimal_value U) s with
  | _ :: _, Some ds => Ok (foldl (λ acc d, 10 * acc + d)%Z 0%Z ds)
  | _, _ => Raise (ValueError "invalid literal for int()")
  end.

(** [r'\b' + re.escape(skill.lower()) + r'\b'] *)
Definition skill_pattern (skill : str) : regex :=
  RSeq RWordB (RSeq (re_escape (lower U skill)) RWordB).

Definition _analyze_skills (text : str) : list str * list str :=
  let found_technical :=
    List.filter (λ skill, re_search U (skill_pattern skill) text)
      all_technical_skills in
  let found_soft :=
    List.filter (λ skill, re_search U (skill_pattern skill) text) soft_skills in
  (found_technical, found_soft).

Definition _categorize_experience_level (years : Z) : str :=
  if (8 <=? years)%Z then lit "senior"
  else if (3 <=? years)%Z then lit "mid-level"
  else if (1 <=? years)%Z then lit "junior"
  else lit "entry-level".

(** An item of [re.findall] used as a string ([match.isdigit()]): a
    tuple has no string method. *)
Definition as_str (m : found) : result str :=
  match m with
  | Single s => Ok s
  | Tuple _ => Raise AttributeError
  end.

(** One turn of the loop of [_analyze_experience]:
    [years.extend([int(match) for match in matches if match.isdigit()])]. *)
Definition extend_years (text : str) (years : list Z) (pattern : regex)
    : result (list Z) :=
  let matches := re_findall U pattern text in
  strings ← mapM as_str matches;
  new ← mapM py_int (List.filter isdigit strings);
  mret (years ++ new).

Fixpoint for_each {A S} (body : S → A → result S) (s : S) (l : list A)
    : result S :=
  match l with
  | [] => mret s
  | x :: l' => s' ← body s x; for_each body s' l'
  end.

(** The years of [_analyze_experience] after its loop. *)
Definition experience_years_list (text : str) : result (list Z) :=
  for_each (extend_years text) [] experience_patterns.

Definition _analyze_experience (text : str) : result (Z * str) :=
  years ← experience_years_list text;
  experience_years ← (if truthy years then py_max years else mret 0%Z);
  mret (experience_years, _categorize_experience_level experience_years).

(** One turn of the loop of [_extract_required_experience]. *)
Definition extend_required (text : str) (years : list Z) (pattern : regex)
    : result (list Z) :=
  for_each
    (λ years m,
       match m with
       | Tuple ms =>
           new ← mapM py_int (List.filter isdigit ms);
           mret (years ++ new)
       | Single s =>
           if isdigit s then n ← py_int s; mret (years ++ [n])
           else mret years
       end)
    years (re_findall U pattern text).

Definition required_years_list (text : str) : result (list Z) :=
  for_each (extend_required text) [] required_experience_patterns.

Definition _extract_required_experience (text : str) : result Z :=
  years ← required_years_list text;
  if truthy years then py_min years else mret 0%Z.

(** *** Education *)

(** A character of a pattern compiled with [re.IGNORECASE]. *)
Definition ci_match (p c : char) : bool :=
  if is_ascii c then (ascii_tolower c =? ascii_tolower p)%N
  else ascii_alpha p && uni_ignorecase U p c.

Definition rlit_i (x : string) : regex :=
  foldr (λ p r, RSeq (RChar (ci_match p)) r) REmpty (lit x).

Definition rset_i (x : string) : regex :=
  RChar (λ c, existsb (λ p, ci_match p c) (lit x)).

(** [r'\b...\b'] around a case-insensitive literal. *)
Definition rword_i (x : string) : regex := rseq [RWordB; rlit_i x; RWordB].
(** [r'\b...[\'s]?\b'] *)
Definition rword_s_i (x : string) : regex :=
  rseq [RWordB; rlit_i x; ropt (rset_i "'s"); RWordB].

Definition education_patterns : list (str * list regex) := [
  (lit "phd",
   [rword_i "phd"; rword_i "ph.d"; rword_i "doctorate"; rword_i "doctoral"]);
  (lit "masters",
   [rword_s_i "master"; rword_i "mba"; rword_i "ms"; rword_i "m.s";
    rword_i "ma"; rword_i "m.a"; rword_i "msc"; rword_i "m.sc"]);
  (lit "bachelors",
   [rword_s_i "bachelor"; rword_i "bs"; rword_i "b.s"; rword_i "ba";
    rword_i "b.a"; rword_i "bsc"; rword_i "b.sc"; rword_i "btech";
    rword_i "b.tech"]);
  (lit "associates",
   [rword_s_i "associate"; rword_i "as"; rword_i "a.s"; rword_i "diploma"])
].

Definition education_scores : list (str * Z) :=
  [(lit "phd", 100%Z); (lit "masters", 85%Z); (lit "bachelors", 70%Z);
   (lit "associates", 50%Z)].

(** The two loops of [_analyze_education]: the first level, in the
    order of the table, one of whose patterns is found. *)
Fixpoint education_scan (text : str) (items : list (str * list regex))
    : option str * Z :=
  match items with
  | [] => (None, 0%Z)
  | (level, patterns) :: items' =>
      if existsb (λ pattern, re_search U pattern text) patterns
      then (Some level, default 0%Z (dict_get education_scores level))
      else education_scan text items'
  end.

Definition _analyze_education (text : str) : option str * Z :=
  education_scan text education_patterns.

(** *** Contact information *)

Definition r_sep : regex :=
  RChar (λ c, bool_decide (c ∈ lit "-.") || isspace c).
Definition r_handle : regex :=
  rplus (RChar (λ c, ascii_alnum c || (c =? 45)%N)).

Definition contact_patterns : list (str * regex) := [
  (lit "email",
   rseq [RWordB;
         rplus (RChar (λ c, ascii_alnum c || bool_decide (c ∈ lit "._%+-")));
         rlit "@";
         rplus (RChar (λ c, ascii_alnum c || bool_decide (c ∈ lit ".-")));
         rlit ".";
         RRep 2 None (RChar (λ c, ascii_alpha c || (c =? 124)%N));
         RWordB]);
  (lit "phone",
   rseq [ropt (RGroup 1 (rseq [rlit "+"; RRep 1 (Some 3) rdigit; ropt r_sep]));
         ropt (rlit "("); RRep 1 (Some 4) rdigit; ropt (rlit ")");
         ropt r_sep; RRep 1 (Some 4) rdigit;
         ropt r_sep; RRep 1 (Some 4) rdigit;
         ropt r_sep; RRep 1 (Some 9) rdigit]);
  (lit "linkedin",
   rseq [rlit "linkedin.com/"; ropt (rlit "in/"); RGroup 1 r_handle]);
  (lit "github", rseq [rlit "github.com/"; RGroup 1 r_handle])
].

Definition _analyze_contact_info (text : str) : result (list (str * found)) :=
  for_each
    (λ contact_info '(contact_type, pattern),
       let matches := re_findall U pattern text in
       if truthy matches
       then m ← first_item matches; mret (contact_info ++ [(contact_type, m)])
       else mret contact_info)
    [] contact_patterns.

(** *** Content quality *)

Definition action_verbs : list str := lit <$> [
  "achieved"; "administered"; "analyzed"; "architected"; "automated";
  "built"; "collaborated"; "created"; "delivered"; "designed"; "developed";
  "directed"; "enhanced"; "established"; "executed"; "implemented";
  "improved"; "increased"; "led"; "managed"; "optimized"; "organized";
  "pioneered"; "reduced"; "resolved"; "spearheaded"; "streamlined"
]%string.

(** The pattern of the quantified tokens: digits, an optional decimal
    part and a unit; the last two units are the character sequences
    the source file holds (U+201A U+00C7 U+00A8 and U+00AC U+00A3). *)
Definition quantity_pattern : regex :=
  rseq [rplus rdigit; ropt (RSeq (rlit ".") (rplus rdigit));
        ralt [rlit "%"; rlit "k"; rlit "m"; rlit "b"; rlit "$";
              re_escape [0x201A; 0xC7; 0xA8]%N; re_escape [0xAC; 0xA3]%N]].

Definition _analyze_content_quality (text : str) : Quality.t :=
  let numbers := re_findall U quantity_pattern (lower U text) in
  let quantification_score := (100 `min` (len numbers * 10))%Z in
  let action_verb_count :=
    count_if (λ verb, contains verb (lower U text)) action_verbs in
  let action_verb_score := (100 `min` (action_verb_count * 5))%Z in
  let overall_quality :=
    (inject_Z quantification_score * (6 # 10)
     + inject_Z action_verb_score * (4 # 10))%Q in
  {| Quality.quantification_score := quantification_score;
     Quality.action_verb_score := action_verb_score;
     Quality.overall_quality := round1 overall_quality;
     Quality.numbers_found := len numbers;
     Quality.action_verbs_found := action_verb_count |}.

(** *** Keywords *)

Definition stop_words : list str := lit <$> [
  "the"; "and"; "for"; "are"; "with"; "this"; "that"; "have"; "from";
  "they"; "been"; "will"; "would"; "could"; "should"; "may"; "might";
  "must"; "can"; "shall"
]%string.

(** The item of [re.findall] for a pattern without a group is the
    matched word. *)
Definition found_str (m : found) : str :=
  match m with
  | Single s => s
  | Tuple ss => concat ss
  end.

Definition word_pattern : regex :=
  rseq [RWordB; RRep 3 None (RChar ascii_alpha); RWordB].

Definition _extract_advanced_keywords (text : str) : list str :=
  let words := re_findall U word_pattern (lower U text) in
  let filtered_words :=
    List.filter
      (λ word, negb (bool_decide (word ∈ stop_words)) && (3 <? len word)%Z)
      (found_str <$> words) in
  let word_freq := Counter filtered_words in
  fst <$> most_common 20 word_freq.

(** *** Industry *)

Definition any_in (words : list string) (text : str) : bool :=
  existsb (λ word, contains (lit word) text) words.

Definition _detect_industry (text : str) : result str :=
  let industry_scores :=
    omap (λ '(industry, keywords),
            let score := count_if (λ keyword, contains keyword text) keywords in
            if (0 <? score)%Z then Some (industry, score) else None)
         industry_skills in
  if truthy industry_scores
  then best ← py_max_by snd industry_scores; mret (fst best)
  else if any_in ["software"; "developer"; "engineer"; "programming"] text
  then mret (lit "technology")
  else if any_in ["finance"; "banking"; "investment"] text
  then mret (lit "finance")
  else if any_in ["healthcare"; "medical"; "hospital"] text
  then mret (lit "healthcare")
  else mret (lit "general").

(** *** ATS compatibility *)

Definition standard_sections : list str :=
  lit <$> ["experience"; "education"; "skills"; "summary"]%string.

(** [r'[^\x00-\x7F]'] *)
Definition non_ascii_pattern : regex := RChar (λ c, negb (is_ascii c)).

Definition _calculate_ats_compatibility (text : str) : result Q :=
  let score := 100%Q in
  let score :=
    if re_search U non_ascii_pattern text then (score - 10)%Q else score in
  let found_sections :=
    count_if (λ section, contains section (lower U text)) standard_sections in
  ratio ← truediv (inject_Z found_sections) (inject_Z (len standard_sections));
  let section_score := (ratio * 20)%Q in
  let word_count := len (split_ws text) in
  let score :=
    if (word_count <? 300)%Z then (score - 15)%Q
    else if (800 <? word_count)%Z then (score - 5)%Q
    else score in
  mret (Qmax 0 (score - (20 - section_score)))%Q.

(** *** Job requirements *)

Definition job_level_patterns : list (str * list str) := [
  (lit "senior",
   lit <$> ["senior"; "lead"; "principal"; "staff"; "architect"; "manager";
            "director"; "head of"; "vp"; "cto"; "cio"]%string);
  (lit "mid",
   lit <$> ["mid-level"; "intermediate"; "experienced"; "specialist";
            "analyst"; "developer"; "engineer"]%string);
  (lit "junior",
   lit <$> ["junior"; "entry"; "entry-level"; "associate"; "intern";
            "trainee"; "graduate"; "assistant"]%string)
].

Fixpoint job_level_scan (text : str) (items : list (str * list str)) : str :=
  match items with
  | [] => lit "Mid-level"
  | (level, indicators) :: items' =>
      if existsb (λ indicator, contains indicator text) indicators
      then title level
      else job_level_scan text items'
  end.

Definition _determine_job_level (text : str) : str :=
  job_level_scan text job_level_patterns.

(** [.] of a pattern: any character but a newline. *)
Definition rdot : regex := RChar (λ c, negb (c =? 10)%N).

(** [r'<a>.*required|<b>.*required'] *)
Definition required_pattern (a b : string) : regex :=
  RAlt (rseq [rlit a; rstar rdot; rlit "required"])
       (rseq [rlit b; rstar rdot; rlit "required"]).

Definition _extract_education_requirements (text : str) : option str :=
  if re_search U (required_pattern "phd" "doctorate") text
  then Some (lit "phd")
  else if re_search U (required_pattern "master" "mba") text
  then Some (lit "masters")
  else if re_search U (required_pattern "bachelor" "degree") text
  then Some (lit "bachelors")
  else None.

Definition _analyze_job_requirements (text : str)
    : result (Z * str * option str * bool) :=
  required_experience ← _extract_required_experience text;
  let job_level := _determine_job_level text in
  let education_required := _extract_education_requirements text in
  let remote_friendly :=
    any_in ["remote"; "work from home"; "distributed"; "telecommute"] text in
  mret (required_experience, job_level, education_required, remote_friendly).

Definition size_indicators : list (str * list string) := [
  (lit "startup", ["startup"; "early stage"; "seed"; "series a"]%string);
  (lit "small", ["small"; "growing"; "10-50"; "50-100"]%string);
  (lit "medium", ["medium"; "100-500"; "500-1000"]%string);
  (lit "large", ["large"; "enterprise"; "1000+"; "fortune"]%string)
].

Fixpoint company_size_scan (text : str) (items : list (str * list string))
    : str :=
  match items with
  | [] => lit "unknown"
  | (size, indicators) :: items' =>
      if any_in indicators (lower U text) then size
      else company_size_scan text items'
  end.

Definition _analyze_company_info (text : str) : str * bool :=
  (company_size_scan text size_indicators,
   contains (lit "remote") (lower U text)).

Definition _analyze_job_urgency (text : str) : bool * bool :=
  (any_in ["urgent"; "immediate"; "asap"; "immediately"; "right away"] text,
   any_in ["competitive"; "multiple candidates"; "fast-paced"; "dynamic"] text).

(** [r'\b(?:...|...|...)\b'] *)
Definition rword_alt (rs : list regex) : regex := rseq [RWordB; ralt rs; RWordB].

Definition _calculate_job_complexity (text : str) : result Q :=
  let required :=
    len (re_findall U
           (rword_alt [rlit "required"; rlit "must have"; rlit "essential"])
           (lower U text)) in
  let preferred :=
    len (re_findall U
           (rword_alt [rlit "preferred"; rlit "nice to have"; rlit "bonus"])
           (lower U text)) in
  let years := len (re_findall U (rseq [RWordB; r_years; RWordB]) (lower U text)) in
  length_factor ← truediv (inject_Z (len (split_ws text))) 50;
  mret (Qmin 100
          ((inject_Z required + inject_Z preferred + inject_Z years
            + length_factor) * 10))%Q.

(** *** The two entry points

    The [print] calls of the source are left out: they produce no
    value. *)

Definition analyze_resume (resume_text : str) : result Resume.t :=
  if negb (truthy resume_text) || (length (strip resume_text) <? 50)
  then Raise (ValueError "Resume text is too short or empty for meaningful analysis")
  else
    let resume_lower := lower U resume_text in
    let word_count := len (split_ws resume_text) in
    let character_count := len resume_text in
    let line_count :=
      count_if (λ line, truthy (strip line)) (split_on [10%N] resume_text) in
    let paragraph_count :=
      count_if (λ p, truthy (strip p)) (split_on [10%N; 10%N] resume_text) in
    let skills_analysis := _analyze_skills resume_lower in
    experience_analysis ← _analyze_experience resume_lower;
    let education_analysis := _analyze_education resume_lower in
    contact_analysis ← _analyze_contact_info resume_text;
    let quality_analysis := _analyze_content_quality resume_text in
    let keywords := _extract_advanced_keywords resume_text in
    industry ← _detect_industry resume_lower;
    ats ← _calculate_ats_compatibility resume_text;
    mret {|
      Resume.word_count := word_count;
      Resume.character_count := character_count;
      Resume.line_count := line_count;
      Resume.paragraph_count := paragraph_count;
      Resume.technical_skills := fst skills_analysis;
      Resume.soft_skills := snd skills_analysis;
      Resume.experience_years := fst experience_analysis;
      Resume.experience_level := snd experience_analysis;
      Resume.education_level := fst education_analysis;
      Resume.education_score := snd education_analysis;
      Resume.contact_info := contact_analysis;
      Resume.quality_metrics := quality_analysis;
      Resume.keywords := keywords;
      Resume.detected_industry := industry;
      Resume.ats_compatibility_score := ats;
    |}.

Definition analyze_job_description (job_text : str) : result Job.t :=
  if negb (truthy job_text) || (length (strip job_text) <? 50)
  then Raise (ValueError "Job description is too short for meaningful analysis")
  else
    let job_lower := lower U job_text in
    let skills_analysis := _analyze_skills job_lower in
    '(experience_required, job_level, education_required, remote_friendly) ←
      _analyze_job_requirements job_lower;
    let company_analysis := _analyze_company_info job_text in
    let urgency_analysis := _analyze_job_urgency job_lower in
    let keywords := _extract_advanced_keywords job_text in
    industry ← _detect_industry job_lower;
    complexity ← _calculate_job_complexity job_text;
    mret {|
      Job.technical_skills := fst skills_analysis;
      Job.soft_skills := snd skills_analysis;
      Job.experience_required := experience_required;
      Job.job_level := job_level;
      Job.education_required := education_required;
      Job.remote_friendly := remote_friendly;
      Job.company_size := fst company_analysis;
      Job.is_remote_friendly := snd company_analysis;
      Job.urgent_hire := fst urgency_analysis;
      Job.competitive_position := snd urgency_analysis;
      Job.keywords := keywords;
      Job.industry := industry;
      Job.job_complexity_score := complexity;
    |}.
End Analyzer.

(** ** The match scorer *)

(** The order in which the interpreter iterates over a set of strings.
    The language fixes none; all the program may rely on is that every
    element comes exactly once. *)
Record SetOrder := {
  set_iter : gset str → list str;
  set_iter_NoDup : ∀ X, NoDup (set_iter X);
  set_iter_elem : ∀ X x, x ∈ set_iter X ↔ x ∈ X;
}.

(** Two orders, to run the scorer on concrete sets. *)
Program Definition elements_order : SetOrder :=
  {| set_iter := elements |}.
Next Obligation. intros X. apply NoDup_elements. Qed.
Next Obligation. intros X x. apply elem_of_elements. Qed.

Program Definition reverse_order : SetOrder :=
  {| set_iter := λ X, reverse (elements X) |}.
Next Obligation. intros X. rewrite reverse_Permutation. apply NoDup_elements. Qed.
Next Obligation. intros X x. rewrite elem_of_reverse. apply elem_of_elements. Qed.

Definition Qlt_bool (a b : Q) : bool := negb (Qle_bool b a).

(** [d[key]] *)
Definition getitem {V} (d : list (str * V)) (key : string) : result V :=
  match dict_get d (lit key) with
  | Some v => Ok v
  | None => Raise KeyError
  end.

Definition truthy_opt (o : option str) : bool :=
  match o with
  | Some s => truthy s
  | None => false
  end.

Definition _calculate_experience_score (resume_exp required_exp : Z) : Q :=
  if (required_exp =? 0)%Z then 100
  else if (required_exp <=? resume_exp)%Z then
    if Qle_bool (inject_Z resume_exp) (inject_Z required_exp * 1.5)
    then 100
    else Qmax 70 (100 - (inject_Z resume_exp - inject_Z required_exp * 1.5) * 5)
  else
    let gap := (required_exp - resume_exp)%Z in
    inject_Z (0 `max` (100 - gap * 20)).

Definition education_levels : list (str * Z) :=
  [(lit "associates", 1%Z); (lit "bachelors", 2%Z); (lit "masters", 3%Z);
   (lit "phd", 4%Z)].

(** [education_levels.get(edu, 0)] *)
Definition education_rank (edu : option str) : Z :=
  match edu with
  | Some e => default 0%Z (dict_get education_levels e)
  | None => 0%Z
  end.

Definition _calculate_education_score (resume_edu required_edu : option str) : Q :=
  if negb (truthy_opt required_edu) then 100
  else
    let resume_level := education_rank resume_edu in
    let required_level := education_rank required_edu in
    if (required_level <=? resume_level)%Z then 100
    else if (resume_level =? required_level - 1)%Z then 75
    else if (resume_level =? required_level - 2)%Z then 50
    else 25.

Definition related_industries : list (str * list str) := [
  (lit "technology", lit <$> ["fintech"; "ai_ml"; "iot"]%string);
  (lit "healthcare", lit <$> ["fintech"]%string);
  (lit "finance", lit <$> ["fintech"]%string)
].

Definition _calculate_industry_alignment (resume_industry job_industry : str) : Q :=
  if negb (truthy job_industry) || negb (truthy resume_industry) then 70
  else if bool_decide (resume_industry = job_industry) then 100
  else if bool_decide
            (job_industry ∈ default [] (dict_get related_industries resume_industry))
  then 80
  else 50.

Definition _categorize_match_strength (score : Q) : str :=
  if Qle_bool 85 score then lit "excellent"
  else if Qle_bool 70 score then lit "good"
  else if Qle_bool 50 score then lit "fair"
  else lit "poor".

Definition skill_importance : list (str * Z) := [
  (lit "python", 10); (lit "java", 10); (lit "javascript", 10);
  (lit "react", 9); (lit "aws", 9); (lit "sql", 9); (lit "git", 8);
  (lit "docker", 8); (lit "kubernetes", 8); (lit "node.js", 8);
  (lit "angular", 7); (lit "vue", 7); (lit "django", 7); (lit "flask", 7);
  (lit "spring", 7);
  (lit "html", 5); (lit "css", 5); (lit "bootstrap", 4)
]%Z.

(** [skill_importance.get(skill, 3)] *)
Definition importance (skill : str) : Z := default 3%Z (dict_get skill_importance skill).

Definition weights : list (str * Q) := [
  (lit "technical", 0.35); (lit "soft_skills", 0.15); (lit "experience", 0.20);
  (lit "education", 0.10); (lit "industry", 0.10); (lit "keywords", 0.10)
]%Q.

Section Scorer.
Context (O : SetOrder).

(** [list(X)] *)
Definition to_list (X : gset str) : list str := set_iter O X.

Definition _identify_top_skill_gaps (missing_skills : gset str) : list str :=
  if bool_decide (missing_skills = ∅) then []
  else take 5 (sorted_desc importance (to_list missing_skills)).

(** [(len(matches) / len(wanted) * 100) if wanted else default] *)
Definition overlap_score (matches wanted : gset str) (default : Q) : result Q :=
  if bool_decide (wanted ≠ ∅) then
    ratio ← truediv (inject_Z (Z.of_nat (size matches)))
                    (inject_Z (Z.of_nat (size wanted)));
    mret (ratio * 100)%Q
  else mret default.

(** The local variables of [calculate_advanced_match_score] before the
    result is put together. *)
Record scores := {
  tech_score : Q;
  soft_score : Q;
  exp_score : Q;
  edu_score : Q;
  ind_score : Q;
  kw_score : Q;
  weighted_score : Q;
  final_score : Q;
}.

Definition match_scores (resume_analysis : Resume.t) (job_analysis : Job.t)
    : result scores :=
  let resume_tech : gset str := list_to_set (Resume.technical_skills resume_analysis) in
  let job_tech : gset str := list_to_set (Job.technical_skills job_analysis) in
  let resume_soft : gset str := list_to_set (Resume.soft_skills resume_analysis) in
  let job_soft : gset str := list_to_set (Job.soft_skills job_analysis) in
  let tech_matches := resume_tech ∩ job_tech in
  tech_score ← overlap_score tech_matches job_tech 100;
  let soft_matches := resume_soft ∩ job_soft in
  soft_score ← overlap_score soft_matches job_soft 100;
  let resume_exp := Resume.experience_years resume_analysis in
  let required_exp := Job.experience_required job_analysis in
  let exp_score := _calculate_experience_score resume_exp required_exp in
  let education_score :=
    _calculate_education_score (Resume.education_level resume_analysis)
      (Job.education_required job_analysis) in
  let industry_score :=
    _calculate_industry_alignment (Resume.detected_industry resume_analysis)
      (Job.industry job_analysis) in
  let resume_keywords : gset str := list_to_set (Resume.keywords resume_analysis) in
  let job_keywords : gset str := list_to_set (Job.keywords job_analysis) in
  let keyword_matches := resume_keywords ∩ job_keywords in
  keyword_score ← overlap_score keyword_matches job_keywords 0;
  ats_factor ← truediv (Resume.ats_compatibility_score resume_analysis) 100;
  w_technical ← getitem weights "technical";
  w_soft_skills ← getitem weights "soft_skills";
  w_experience ← getitem weights "experience";
  w_education ← getitem weights "education";
  w_industry ← getitem weights "industry";
  w_keywords ← getitem weights "keywords";
  let weighted_score :=
    (tech_score * w_technical + soft_score * w_soft_skills
     + exp_score * w_experience + education_score * w_education
     + industry_score * w_industry + keyword_score * w_keywords)%Q in
  let final_score := (weighted_score * (0.7 + 0.3 * ats_factor))%Q in
  mret {| tech_score := tech_score; soft_score := soft_score;
          exp_score := exp_score; edu_score := education_score;
          ind_score := industry_score; kw_score := keyword_score;
          weighted_score := weighted_score; final_score := final_score |}.

Definition calculate_advanced_match_score
    (resume_analysis : Resume.t) (job_analysis : Job.t) : result Match.t :=
  s ← match_scores resume_analysis job_analysis;
  let resume_tech : gset str := list_to_set (Resume.technical_skills resume_analysis) in
  let job_tech : gset str := list_to_set (Job.technical_skills job_analysis) in
  let resume_soft : gset str := list_to_set (Resume.soft_skills resume_analysis) in
  let job_soft : gset str := list_to_set (Job.soft_skills job_analysis) in
  let resume_keywords : gset str := list_to_set (Resume.keywords resume_analysis) in
  let job_keywords : gset str := list_to_set (Job.keywords job_analysis) in
  let tech_matches := resume_tech ∩ job_tech in
  let soft_matches := resume_soft ∩ job_soft in
  let keyword_matches := resume_keywords ∩ job_keywords in
  let resume_exp := Resume.experience_years resume_analysis in
  let required_exp := Job.experience_required job_analysis in
  mret {|
    Match.overall_score := round1 (final_score s);
    Match.technical_score := round1 (tech_score s);
    Match.soft_skills_score := round1 (soft_score s);
    Match.experience_score := round1 (exp_score s);
    Match.education_score := round1 (edu_score s);
    Match.industry_score := round1 (ind_score s);
    Match.keyword_score := round1 (kw_score s);
    Match.ats_compatibility_score :=
      round1 (Resume.ats_compatibility_score resume_analysis);
    Match.matched_technical_skills := to_list tech_matches;
    Match.missing_technical_skills := to_list (job_tech ∖ resume_tech);
    Match.matched_soft_skills := to_list soft_matches;
    Match.missing_soft_skills := to_list (job_soft ∖ resume_soft);
    Match.matched_keywords := to_list keyword_matches;
    Match.matched_skills := to_list (tech_matches ∪ soft_matches);
    Match.experience_gap := 0 `max` (required_exp - resume_exp);
    Match.experience_surplus := 0 `max` (resume_exp - required_exp);
    Match.match_strength := _categorize_match_strength (final_score s);
    Match.top_skill_gaps := _identify_top_skill_gaps (job_tech ∖ resume_tech);
    Match.scoring_weights := weights;
  |}.
End Scorer.

(** ** The suggestion engine

    The messages carry the characters the source file holds ahead of
    their text, as code points. *)

(** [str(n)] *)
Definition str_of_Z (n : Z) : str := lit (pretty n).

Definition comma_join (parts : list str) : str := join (lit ", ") parts.

Definition msg_critical : str :=
  [0xF8FF; 0xFC; 0xF6; 0xAE]%N ++ lit " CRITICAL: Your resume requires major optimization. Consider professional resume writing services or significant restructuring.".

Definition msg_high_priority (top_missing : list str) : str :=
  [0xF8FF; 0xFC; 0xEE; 0xDF]%N ++ lit " HIGH PRIORITY: Add these critical technical skills: " ++ comma_join (take 3 top_missing) ++ lit ". Consider online courses or certifications.".

Definition msg_technical (top_missing : list str) : str :=
  [0xF8FF; 0xFC; 0xEE; 0xDF]%N ++ lit " TECHNICAL SKILLS: Include experience with " ++ comma_join top_missing ++ lit " in your resume.".

Definition msg_experience_gap (exp_gap : Z) : str :=
  [0xF8FF; 0xFC; 0xEC; 0xE0]%N ++ lit " EXPERIENCE GAP: You need " ++ str_of_Z exp_gap ++ lit " more years of experience. Highlight relevant projects, internships, and volunteer work to bridge this gap.".

Definition msg_transferable (exp_gap : Z) : str :=
  [0xF8FF; 0xFC; 0xEC; 0xE4]%N ++ lit " Emphasize transferable skills and relevant projects to compensate for the " ++ str_of_Z exp_gap ++ lit "-year experience gap.".

Definition msg_overqualified : str :=
  [0xF8FF; 0xFC; 0xED; 0xBA]%N ++ lit " You're significantly overqualified. Consider applying for senior positions or highlighting leadership and mentoring experience.".

Definition msg_soft_skills (missing_soft : list str) : str :=
  [0xF8FF; 0xFC; 0xA7; 0xF9]%N ++ lit " SOFT SKILLS: Demonstrate these competencies: " ++ comma_join (take 3 missing_soft) ++ lit ". Use specific examples in your experience section.".

Definition msg_ats : str :=
  [0xF8FF; 0xFC; 0xA7; 0xF1]%N ++ lit " ATS COMPATIBILITY: Improve formatting - use standard fonts, avoid tables/images, and include standard section headings ('Experience', 'Education', 'Skills').".

Definition msg_quality : str :=
  [0x201A; 0xFA; 0xE7; 0xD4; 0x220F; 0xE8]%N ++ lit " CONTENT QUALITY: Add more quantified achievements (e.g., 'Increased efficiency by 25%', 'Led team of 8 developers').".

Definition msg_keywords : str :=
  [0xF8FF; 0xFC; 0xE9; 0xD8]%N ++ lit " KEYWORDS: Incorporate more job-specific terms naturally throughout your resume. Use both acronyms and full terms (e.g., 'AI/Artificial Intelligence').".

Definition msg_industry (job_industry : str) : str :=
  [0xF8FF; 0xFC; 0xE8; 0xA2]%N ++ lit " INDUSTRY FOCUS: Tailor your experience to emphasize " ++ job_industry ++ lit " industry knowledge and terminology.".

Definition msg_education (required_edu : str) : str :=
  [0xF8FF; 0xFC; 0xE9; 0xEC]%N ++ lit " EDUCATION: Ensure your " ++ required_edu ++ lit " degree is prominently displayed. Include relevant coursework if applicable.".

Definition msg_poor : str :=
  [0xF8FF; 0xFC; 0xEC; 0xE3]%N ++ lit " STRATEGY: Consider significant resume restructuring. Focus on the top 3-5 missing skills and create specific examples of how you've used similar technologies.".

Definition msg_fair : str :=
  [0xF8FF; 0xFC; 0xEC; 0xF9]%N ++ lit " OPTIMIZATION: You're close to a good match. Focus on incorporating the missing technical skills and quantifying your achievements.".

Definition msg_good : str :=
  [0xF8FF; 0xFC; 0xEE; 0xDF]%N ++ lit " FINE-TUNING: Minor adjustments needed. Add the missing skills and ensure your resume is ATS-optimized.".

Definition msg_excellent : str :=
  [0x201A; 0x2260; 0xEA]%N ++ lit " EXCELLENT MATCH: Your resume aligns well with this position. Consider customizing your summary to mention specific company needs.".

Definition universal_suggestions : list str := [
  [0xF8FF; 0xFC; 0xEC; 0xE4]%N ++ lit " Use specific metrics and numbers to demonstrate impact (e.g., 'Reduced processing time by 40%', 'Managed $2M budget')";
  [0xF8FF; 0xFC; 0xED; 0x2122]%N ++ lit " Start bullet points with strong action verbs: Architected, Optimized, Spearheaded, Streamlined, Pioneered";
  [0xF8FF; 0xFC; 0xE9; 0xD8]%N ++ lit " Customize your Professional Summary to directly address the job requirements and company needs";
  [0xF8FF; 0xFC; 0xEC; 0xB1]%N ++ lit " Ensure your resume is mobile-friendly and prints correctly in both PDF and text formats";
  [0xF8FF; 0xFC; 0xEE; 0xD1]%N ++ lit " Use consistent formatting, bullet styles, and date formats throughout your resume"
].

(** [suggestions.append(msg)] under a condition. *)
Definition append_if (cond : bool) (msg : str) (suggestions : list str) : list str :=
  if cond then suggestions ++ [msg] else suggestions.

(** Priorities 1 to 9 of [generate_advanced_suggestions]: the messages
    that depend on a condition, in the order they are appended. *)
Definition conditional_suggestions (match_analysis : Match.t)
    (resume_analysis : Resume.t) (job_analysis : Job.t) : list str :=
  let suggestions := [] in
  let overall_score := Match.overall_score match_analysis in
  (* Priority 1: critical issues *)
  let suggestions := append_if (Qlt_bool overall_score 40) msg_critical suggestions in
  (* Priority 2: technical skills gaps *)
  let missing_tech := Match.missing_technical_skills match_analysis in
  let suggestions :=
    if truthy missing_tech then
      let top_missing := Match.top_skill_gaps match_analysis in
      if 3 <? length top_missing
      then suggestions ++ [msg_high_priority top_missing]
      else suggestions ++ [msg_technical top_missing]
    else suggestions in
  (* Priority 3: experience level issues *)
  let exp_gap := Match.experience_gap match_analysis in
  let suggestions :=
    if (2 <? exp_gap)%Z then suggestions ++ [msg_experience_gap exp_gap]
    else if (0 <? exp_gap)%Z then suggestions ++ [msg_transferable exp_gap]
    else suggestions in
  let exp_surplus := Match.experience_surplus match_analysis in
  let suggestions := append_if (5 <? exp_surplus)%Z msg_overqualified suggestions in
  (* Priority 4: soft skills *)
  let missing_soft := Match.missing_soft_skills match_analysis in
  let suggestions :=
    append_if (truthy missing_soft && (2 <? length missing_soft))
      (msg_soft_skills missing_soft) suggestions in
  (* Priority 5: ATS optimization *)
  let ats_score := Match.ats_compatibility_score match_analysis in
  let suggestions := append_if (Qlt_bool ats_score 70) msg_ats suggestions in
  (* Priority 6: content optimization *)
  let quality_score :=
    Quality.overall_quality (Resume.quality_metrics resume_analysis) in
  let suggestions := append_if (Qlt_bool quality_score 70) msg_quality suggestions in
  (* Priority 7: keywords optimization *)
  let keyword_score := Match.keyword_score match_analysis in
  let suggestions := append_if (Qlt_bool keyword_score 60) msg_keywords suggestions in
  (* Priority 8: industry alignment *)
  let industry_score := Match.industry_score match_analysis in
  let suggestions :=
    if Qlt_bool industry_score 70 then
      let detected_industry := Resume.detected_industry resume_analysis in
      let job_industry := Job.industry job_analysis in
      append_if
        (truthy detected_industry && truthy job_industry
         && negb (bool_decide (detected_industry = job_industry)))
        (msg_industry job_industry) suggestions
    else suggestions in
  (* Priority 9: education recommendations *)
  let education_score := Match.education_score match_analysis in
  let suggestions :=
    if Qlt_bool education_score 80 then
      match Job.education_required job_analysis with
      | Some required_edu =>
          append_if (truthy required_edu) (msg_education required_edu) suggestions
      | None => suggestions
      end
    else suggestions in
  suggestions.

(** Priority 10: the message of the match strength; one is always
    appended. *)
Definition strength_suggestion (match_strength : str) : str :=
  if bool_decide (match_strength = lit "poor") then msg_poor
  else if bool_decide (match_strength = lit "fair") then msg_fair
  else if bool_decide (match_strength = lit "good") then msg_good
  else msg_excellent.

Definition generate_advanced_suggestions (match_analysis : Match.t)
    (resume_analysis : Resume.t) (job_analysis : Job.t) : list str :=
  let suggestions :=
    conditional_suggestions match_analysis resume_analysis job_analysis in
  let suggestions :=
    suggestions ++ [strength_suggestion (Match.match_strength match_analysis)] in
  (* Priority 11: universal best practices *)
  let suggestions := suggestions ++ take 3 universal_suggestions in
  take 10 suggestions.

(** ** Notions the properties are stated with *)

(** [set(l)] *)
Definition set_of (l : list str) : gset str := list_to_set l.

(** [|matches| / |wanted| * 100] *)
Definition ratio_score (matches wanted : gset str) : Q :=
  (inject_Z (Z.of_nat (size matches)) / inject_Z (Z.of_nat (size wanted)) * 100)%Q.

(** The weighted sum of the six dimension scores: technical .35, soft
    skills .15, experience .20, education .10, industry .10, keywords
    .10. *)
Definition weighted_sum (t s e d i k : Q) : Q :=
  (t * 0.35 + s * 0.15 + e * 0.20 + d * 0.10 + i * 0.10 + k * 0.10)%Q.

(** The facts of a resume with another ATS score. *)
Definition with_ats (r : Resume.t) (ats : Q) : Resume.t := {|
  Resume.word_count := Resume.word_count r;
  Resume.character_count := Resume.character_count r;
  Resume.line_count := Resume.line_count r;
  Resume.paragraph_count := Resume.paragraph_count r;
  Resume.technical_skills := Resume.technical_skills r;
  Resume.soft_skills := Resume.soft_skills r;
  Resume.experience_years := Resume.experience_years r;
  Resume.experience_level := Resume.experience_level r;
  Resume.education_level := Resume.education_level r;
  Resume.education_score := Resume.education_score r;
  Resume.contact_info := Resume.contact_info r;
  Resume.quality_metrics := Resume.quality_metrics r;
  Resume.keywords := Resume.keywords r;
  Resume.detected_industry := Resume.detected_industry r;
  Resume.ats_compatibility_score := ats;
|}.

(** The penalty for the length of a resume: 15 under 300 words, 5 over
    800. *)
Definition length_penalty (word_count : Z) : Q :=
  if (word_count <? 300)%Z then 15 else if (800 <? word_count)%Z then 5 else 0.

(** The strings one item of [re.findall] holds. *)
Definition captures_of (m : found) : list str :=
  match m with
  | Single s => [s]
  | Tuple ss => ss
  end.

Section Captures.
Context (U : Unicode).

(** The number a string of decimal digits denotes. *)
Definition digits_value (s : str) : Z :=
  foldl (λ acc c, 10 * acc + default 0 (decimal_value U c))%Z 0%Z s.

(** The integers among some captured strings. *)
Definition integers_of (strings : list str) : list Z :=
  s ← strings; if isdigit U s then [digits_value s] else [].

(** All integer captures produced by applying every pattern of a list
    to a text. *)
Definition integer_captures (patterns : list regex) (text : str) : list Z :=
  pattern ← patterns; m ← re_findall U pattern text; integers_of (captures_of m).
End Captures.

(** A computation that returns. *)
Definition is_ok {A} (m : result A) : Prop := ∃ a, m = Ok a.

(** A job posting that asks for experience twice. *)
Definition job_posting : str :=
  lit "Backend engineer wanted: 5+ years of experience with Python; minimum 3 years with AWS.".

(** Descending order of a key. *)
Definition desc {A} (key : A → Z) : relation A := λ a b, (key b ≤ key a)%Z.

(** The top skill gaps as they would be if ties followed the catalog:
    the missing skills in the order of [all_technical_skills], sorted by
    importance, the first five. *)
Definition catalog_top_skill_gaps (resume_tech job_tech : list str) : list str :=
  take 5
    (sorted_desc importance
       (List.filter
          (λ skill, bool_decide (skill ∈ job_tech)
                    && negb (bool_decide (skill ∈ resume_tech)))
          all_technical_skills)).

(** Facts that name technical skills only, to run the scorer on. *)
Definition q_none : Quality.t := {|
  Quality.quantification_score := 0; Quality.action_verb_score := 0;
  Quality.overall_quality := 0; Quality.numbers_found := 0;
  Quality.action_verbs_found := 0 |}.

Definition resume_of (technical : list string) : Resume.t := {|
  Resume.word_count := 0; Resume.character_count := 0; Resume.line_count := 0;
  Resume.paragraph_count := 0;
  Resume.technical_skills := lit <$> technical; Resume.soft_skills := [];
  Resume.experience_years := 0; Resume.experience_level := lit "entry-level";
  Resume.education_level := None; Resume.education_score := 0;
  Resume.contact_info := []; Resume.quality_metrics := q_none;
  Resume.keywords := []; Resume.detected_industry := lit "general";
  Resume.ats_compatibility_score := 100 |}.

Definition job_of (technical : list string) : Job.t := {|
  Job.technical_skills := lit <$> technical; Job.soft_skills := [];
  Job.experience_required := 0; Job.job_level := lit "Mid-level";
  Job.education_required := None; Job.remote_friendly := false;
  Job.company_size := lit "unknown"; Job.is_remote_friendly := false;
  Job.urgent_hire := false; Job.competitive_position := false;
  Job.keywords := []; Job.industry := lit "general";
  Job.job_complexity_score := 0 |}.

(** The cursor after the literal [s] has been read from [c]. *)
Fixpoint after_literal (s : str) (c : cursor) : option cursor :=
  match s with
  | [] => Some c
  | a :: s' =>
      match rest c with
      | x :: xs => if (a =? x)%N then after_literal s' (advance x xs c) else None
      | [] => None
      end
  end.

Section Occurrences.
Context (U : Unicode).

(** A word boundary between two neighbours, either of which may be
    missing at an end of the text. *)
Definition boundary (a b : option char) : bool := xorb (word_opt U a) (word_opt U b).

(** [skill] occurs in [text] between two word boundaries. *)
Definition word_delimited (skill text : str) : Prop :=
  ∃ before after,
    text = before ++ skill ++ after
    ∧ boundary (last before) (head (skill ++ after)) = true
    ∧ boundary (last (before ++ skill)) (head after) = true.

(** [skill] occurs in [text] as a word of its own: no word character
    stands right before or right after it. *)
Definition standalone (skill text : str) : Prop :=
  ∃ before after,
    text = before ++ skill ++ after
    ∧ word_opt U (last before) = false
    ∧ word_opt U (head after) = false.

(** [skill] begins and ends with a word character. *)
Definition word_ended (skill : str) : bool :=
  word_opt U (head skill) && word_opt U (last skill).

End Occurrences.

(** The same test without the Unicode tables, for ASCII strings. *)
Definition ascii_word (c : char) : bool :=
  is_ascii c && (ascii_alnum c || (c =? 95)%N).

Definition ascii_word_ended (skill : str) : bool :=
  match head skill, last skill with
  | Some a, Some b => ascii_word a && ascii_word b
  | _, _ => false
  end.

(** A string of ASCII characters without capitals. *)
Definition ascii_lowercase (s : str) : bool :=
  forallb (λ c, is_ascii c && negb (ascii_upper c)) s.

(** The catalog entries that end in a character that is not a word
    character. *)
Definition symbol_ended : list str := lit <$> ["c++"; "c#"; "f#"]%string.

(** A resume that names C++ as a word of its own, and one that has it
    only inside the longer token C++11. *)
Definition cpp_resume : str :=
  lit "Systems programmer with 8 years of C++ and Rust on Linux, building trading engines.".

Definition cpp11_resume : str :=
  lit "Systems programmer with 8 years of Rust on Linux, porting engines to the C++11 standard.".

(** A catalog entry as the detection expects it: lower-case ASCII, and
    delimited by word characters unless it is one of [symbol_ended]. *)
Definition well_formed_entry (skill : str) : bool :=
  ascii_lowercase skill
  && (bool_decide (skill ∈ symbol_ended) || ascii_word_ended skill).

(** [skill] occurs in [text] right after a place that is not a word
    character and right before a word character. *)
Definition followed_by_word (U : Unicode) (skill text : str) : Prop :=
  ∃ before after,
    text = before ++ skill ++ after
    ∧ word_opt U (last before) = false
    ∧ word_opt U (head after) = true.

(** The number of the keywords of a list that occur in a text. *)
Definition keyword_hits (text : str) (keywords : list str) : Z :=
  count_if (λ keyword, contains keyword text) keywords.

(** The names [_detect_industry] can return: the keys of
    [industry_skills] and the four names of its fallback. *)
Definition known_industries : list str :=
  (fst <$> industry_skills)
  ++ (lit <$> ["technology"; "finance"; "healthcare"; "general"]%string).

(** The words of the fallback of [_detect_industry]. *)
Definition fallback_words : list string :=
  ["software"; "developer"; "engineer"; "programming"; "finance"; "banking";
   "investment"; "healthcare"; "medical"; "hospital"]%string.

(** The pairs of a resume's and a job's industry that count as related. *)
Definition related_pairs : list (str * str) :=
  '(resume_industry, related) ← related_industries;
  job_industry ← related; [(resume_industry, job_industry)].

(** The levels [_determine_job_level] can return. *)
Definition job_levels : list str :=
  lit <$> ["Senior"; "Mid"; "Junior"; "Mid-level"]%string.

(** The sizes [_analyze_company_info] can return. *)
Definition company_sizes : list str :=
  lit <$> ["startup"; "small"; "medium"; "large"; "unknown"]%string.

(** The pairs of level and score [_analyze_education] can return. *)
Definition education_results : list (option str * Z) :=
  (None, 0%Z) :: ((λ '(level, score), (Some level, score)) <$> education_scores).

(** The keys of [contact_patterns], in their order. *)
Definition contact_types : list str := fst <$> contact_patterns ascii_only.

(** ** The compatibility wrapper

    [app/services/simple_analyzer.py]: the class [SimpleAnalyzer]
    inherits from the analyzer and calls it. *)

Module SimpleAnalyzer.

Definition get_match_strength (score : Q) : str :=
  if Qle_bool 85 score then lit "excellent"
  else if Qle_bool 70 score then lit "good"
  else if Qle_bool 50 score then lit "fair"
  else lit "needs_improvement".

(** [is_ats_friendly]: any exception of the analysis gives [False]. *)
Definition is_ats_friendly (U : Unicode) (resume_text : str) : bool :=
  match analyze_resume U resume_text with
  | Ok analysis => Qle_bool 70 (Resume.ats_compatibility_score analysis)
  | Raise _ => false
  end.

End SimpleAnalyzer.

(** ** What a pattern matches

    The matcher is a search procedure; what it searches for is said
    here without it. *)

(** The cursor at index [i] of a text. *)
Definition cursor_at (text : str) (i : nat) : cursor :=
  {| prev := last (take i text); pos := i; rest := drop i text |}.

(** [n] turns of a repetition, each of which reads at least one
    character. *)
Fixpoint iterate (R : cursor → cursor → Prop) (n : nat) (c c' : cursor) : Prop :=
  match n with
  | 0 => c' = c
  | S n' => ∃ c1, R c c1 ∧ pos c < pos c1 ∧ iterate R n' c1 c'
  end.

Section Matching.
Context (U : Unicode).

(** [matches r c c']: the pattern [r] matches the text between the
    cursors [c] and [c']. *)
Fixpoint matches (r : regex) (c c' : cursor) : Prop :=
  match r with
  | RChar p => ∃ x xs, rest c = x :: xs ∧ p x = true ∧ c' = advance x xs c
  | REmpty => c' = c
  | RWordB => at_boundary U c = true ∧ c' = c
  | RSeq r1 r2 => ∃ c1, matches r1 c c1 ∧ matches r2 c1 c'
  | RAlt r1 r2 => matches r1 c c' ∨ matches r2 c c'
  | RGroup _ r' => matches r' c c'
  | RRep lo hi r' =>
      ∃ n, lo ≤ n ∧ (∀ h, hi = Some h → n ≤ h) ∧ iterate (matches r') n c c'
  end.

(** The loop of a repetition in [rmatch], under a name. *)
Definition rep_loop (lo : nat) (hi : option nat) (r' : regex)
    (k : cursor → caps → option (cursor * caps)) :=
  fix loop (fuel n : nat) (c : cursor) (g : caps) : option (cursor * caps) :=
    let stop := if lo <=? n then k c g else None in
    match fuel with
    | 0 => stop
    | S fuel' =>
        if more_allowed n hi then
          match rmatch U r'
                  (λ c' g', if pos c <? pos c'
                            then loop fuel' (S n) c' g' else None)
                  c g with
          | Some m => Some m
          | None => stop
          end
        else stop
    end.

(** [r] matches the part of [text] from index [i] to index [j]. *)
Definition spans (r : regex) (text : str) (i j : nat) : Prop :=
  i ≤ j ∧ j ≤ length text ∧ matches r (cursor_at text i) (cursor_at text j).

(** Every group of [r], wherever it matches in [text], satisfies
    [Good]. *)
Fixpoint groups_ok (text : str) (Good : nat → nat → nat → Prop) (r : regex) : Prop :=
  match r with
  | RChar _ | REmpty | RWordB => True
  | RSeq r1 r2 | RAlt r1 r2 => groups_ok text Good r1 ∧ groups_ok text Good r2
  | RRep _ _ r' => groups_ok text Good r'
  | RGroup i r' =>
      (∀ a b, spans r' text a b → Good i a b) ∧ groups_ok text Good r'
  end.
End Matching.

(** A cursor that stands in [text] at its own index. *)
Definition coherent (text : str) (c : cursor) : Prop :=
  pos c ≤ length text ∧ c = cursor_at text (pos c).

Definition caps_good (Good : nat → nat → nat → Prop) (g : caps) : Prop :=
  Forall (λ e, Good (fst e) (fst (snd e)) (snd (snd e))) g.

(** Whether a match of [r] always records group [i]. *)
Fixpoint sets_group (i : nat) (r : regex) : bool :=
  match r with
  | RChar _ | REmpty | RWordB => false
  | RSeq r1 r2 => sets_group i r1 || sets_group i r2
  | RAlt r1 r2 => sets_group i r1 && sets_group i r2
  | RRep lo _ r' => (1 <=? lo) && sets_group i r'
  | RGroup j r' => Nat.eqb i j || sets_group i r'
  end.

(** [word] occurs in [text] with the word required after it on the
    same line. *)
Definition required_after (word : string) (text : str) : Prop :=
  ∃ before between after,
    text = before ++ lit word ++ between ++ lit "required" ++ after
    ∧ (10%N : char) ∉ between.

(** A character of a profile handle: a letter, a digit or a hyphen. *)
Definition handle_char (c : char) : bool := ascii_alnum c || (c =? 45)%N.

(** The words the education patterns look for, by level: each pattern
    is one of these words between two word boundaries (after master,
    bachelor and associate an apostrophe or an s may follow). *)
Definition education_words : list (str * list string) := [
  (lit "phd", ["phd"; "ph.d"; "doctorate"; "doctoral"]%string);
  (lit "masters", ["master"; "mba"; "ms"; "m.s"; "ma"; "m.a"; "msc"; "m.sc"]%string);
  (lit "bachelors",
   ["bachelor"; "bs"; "b.s"; "ba"; "b.a"; "bsc"; "b.sc"; "btech"; "b.tech"]%string);
  (lit "associates", ["associate"; "as"; "a.s"; "diploma"]%string)
].

(** A text that says year or yr somewhere. *)
Definition has_years (text : str) : bool :=
  contains (lit "year") text || contains (lit "yr") text.

(** A text without a number of years, to run the analyzer on. *)
Definition plain_text : str :=
  lit "worked as a developer on payment systems".

(** A string that holds a character other than whitespace. *)
Definition nonblank (p : str) : bool := existsb (λ c, negb (isspace c)) p.

(** A posting for a junior position that names leadership and remote
    work among its wishes. *)
Definition junior_posting : str :=
  lit "Junior developer wanted, with leadership potential and a taste for remote work.".

(** * Properties *)

(** ** Arithmetic on rationals *)

Lemma Qle_bool_spec (a b : Q) : reflect (a <= b)%Q (Qle_bool a b).
Proof. apply iff_reflect. symmetry. apply Qle_bool_iff. Qed.

(** Moves [inject_Z] down to the variables. *)
Ltac push_inject :=
  unfold Z.sub;
  repeat first [rewrite inject_Z_plus | rewrite inject_Z_opp | rewrite inject_Z_mult].

Lemma inject_Z_max (a b : Z) : (inject_Z (a `max` b) == Qmax (inject_Z a) (inject_Z b))%Q.
Proof.
  destruct (Z.max_spec a b) as [[Hc ->]|[Hc ->]].
  - symmetry. apply Q.max_r. rewrite <- Zle_Qle. lia.
  - symmetry. apply Q.max_l. rewrite <- Zle_Qle. lia.
Qed.

Lemma truediv_ok (a b : Q) : ¬ (b == 0)%Q → truediv a b = Ok (a / b)%Q.
Proof.
  intros Hb. unfold truediv.
  destruct (Qeq_bool b 0) eqn:E; [|reflexivity].
  apply Qeq_bool_iff in E. contradiction.
Qed.

Lemma bind_Ok {A B} (a : A) (f : A → result B) : (Ok a ≫= f) = f a.
Proof. reflexivity. Qed.

(** ** The experience score *)


(** ** The match scorer *)

Lemma Qdiv_100 (a : Q) : (a / 100 == a * (1 # 100))%Q.
Proof. reflexivity. Qed.

Ltac div_const := rewrite ?Qdiv_100.

Lemma overlap_score_ok (matches wanted : gset str) (d : Q) :
  ∃ q, overlap_score matches wanted d = Ok q
       ∧ (wanted = ∅ → q = d)
       ∧ (wanted ≠ ∅ →
          (q == inject_Z (Z.of_nat (size matches)) / inject_Z (Z.of_nat (size wanted)) * 100)%Q).
Proof.
  unfold overlap_score. case_bool_decide as Hw.
  - rewrite truediv_ok.
    + eexists. split; [reflexivity|]. split; [contradiction|]. intros _. reflexivity.
    + intros H0. apply Hw. apply leibniz_equiv, size_empty_iff.
      unfold Qeq in H0. simpl in H0. lia.
  - exists d. split; [reflexivity|]. split; [reflexivity|].
    intros Hne. contradiction.
Qed.

Lemma overlap_score_bounds (matches wanted : gset str) (d q : Q) :
  overlap_score matches wanted d = Ok q → (0 <= d)%Q → (0 <= q)%Q.
Proof.
  intros Hq Hd. destruct (overlap_score_ok matches wanted d) as (q' & Hq' & He & Hn).
  rewrite Hq in Hq'. injection Hq' as <-.
  destruct (decide (wanted = ∅)) as [->|Hne].
  - rewrite He by reflexivity. exact Hd.
  - rewrite (Hn Hne).
    apply Qmult_le_0_compat; [|discriminate].
    apply Qle_shift_div_l.
    + change 0%Q with (inject_Z 0%Z). rewrite <- Zlt_Qlt.
      assert (size wanted ≠ 0) by (intros H0; apply Hne, leibniz_equiv, size_empty_iff, H0).
      lia.
    + rewrite Qmult_0_l. change 0%Q with (inject_Z 0%Z). rewrite <- Zle_Qle. lia.
Qed.

Lemma match_scores_ok (r : Resume.t) (j : Job.t) :
  ∃ t s k,
    overlap_score (set_of (Resume.technical_skills r) ∩ set_of (Job.technical_skills j))
      (set_of (Job.technical_skills j)) 100 = Ok t
    ∧ overlap_score (set_of (Resume.soft_skills r) ∩ set_of (Job.soft_skills j))
        (set_of (Job.soft_skills j)) 100 = Ok s
    ∧ overlap_score (set_of (Resume.keywords r) ∩ set_of (Job.keywords j))
        (set_of (Job.keywords j)) 0 = Ok k
    ∧ match_scores r j = Ok {|
        tech_score := t; soft_score := s;
        exp_score := _calculate_experience_score (Resume.experience_years r)
                       (Job.experience_required j);
        edu_score := _calculate_education_score (Resume.education_level r)
                       (Job.education_required j);
        ind_score := _calculate_industry_alignment (Resume.detected_industry r)
                       (Job.industry j);
        kw_score := k;
        weighted_score :=
          weighted_sum t s
            (_calculate_experience_score (Resume.experience_years r)
               (Job.experience_required j))
            (_calculate_education_score (Resume.education_level r)
               (Job.education_required j))
            (_calculate_industry_alignment (Resume.detected_industry r)
               (Job.industry j)) k;
        final_score :=
          (weighted_sum t s
            (_calculate_experience_score (Resume.experience_years r)
               (Job.experience_required j))
            (_calculate_education_score (Resume.education_level r)
               (Job.education_required j))
            (_calculate_industry_alignment (Resume.detected_industry r)
               (Job.industry j)) k
           * (0.7 + 0.3 * (Resume.ats_compatibility_score r / 100)))%Q |}.
Proof.
  unfold set_of.
  destruct (overlap_score_ok
              (list_to_set (Resume.technical_skills r) ∩ list_to_set (Job.technical_skills j))
              (list_to_set (Job.technical_skills j)) 100) as (t & Ht & _).
  destruct (overlap_score_ok
              (list_to_set (Resume.soft_skills r) ∩ list_to_set (Job.soft_skills j))
              (list_to_set (Job.soft_skills j)) 100) as (s & Hs & _).
  destruct (overlap_score_ok
              (list_to_set (Resume.keywords r) ∩ list_to_set (Job.keywords j))
              (list_to_set (Job.keywords j)) 0) as (k & Hk & _).
  exists t, s, k. repeat split; try assumption.
  unfold match_scores. rewrite Ht, Hs, Hk. rewrite !bind_Ok.
  rewrite truediv_ok by discriminate. reflexivity.
Qed.

Lemma calculate_unfold (O : SetOrder) (r : Resume.t) (j : Job.t) (sc : scores) :
  match_scores r j = Ok sc →
  ∃ m, calculate_advanced_match_score O r j = Ok m
    ∧ Match.overall_score m = round1 (final_score sc)
    ∧ Match.technical_score m = round1 (tech_score sc)
    ∧ Match.soft_skills_score m = round1 (soft_score sc)
    ∧ Match.keyword_score m = round1 (kw_score sc)
    ∧ Match.experience_gap m
      = (0 `max` (Job.experience_required j - Resume.experience_years r))%Z
    ∧ Match.experience_surplus m
      = (0 `max` (Resume.experience_years r - Job.experience_required j))%Z
    ∧ Match.missing_technical_skills m
      = to_list O (set_of (Job.technical_skills j) ∖ set_of (Resume.technical_skills r))
    ∧ Match.top_skill_gaps m
      = _identify_top_skill_gaps O
          (set_of (Job.technical_skills j) ∖ set_of (Resume.technical_skills r)).
Proof.
  intros H. unfold calculate_advanced_match_score. rewrite H, bind_Ok.
  eexists. split; [reflexivity|]. repeat split.
Qed.

Lemma experience_score_nonneg (a b : Z) : (0 <= _calculate_experience_score a b)%Q.
Proof.
  unfold _calculate_experience_score.
  destruct (b =? 0)%Z; [discriminate|].
  destruct (b <=? a)%Z.
  - destruct (Qle_bool _ _); [discriminate|].
    eapply Qle_trans; [|apply Q.le_max_l]. discriminate.
  - change 0%Q with (inject_Z 0%Z). rewrite <- Zle_Qle. lia.
Qed.

Lemma education_score_ge_25 (a b : option str) : (25 <= _calculate_education_score a b)%Q.
Proof.
  unfold _calculate_education_score.
  repeat match goal with |- context [if ?c then _ else _] => destruct c end;
    discriminate.
Qed.

Lemma industry_alignment_ge_50 (a b : str) : (50 <= _calculate_industry_alignment a b)%Q.
Proof.
  unfold _calculate_industry_alignment.
  repeat match goal with |- context [if ?c then _ else _] => destruct c end;
    discriminate.
Qed.

Lemma round_half_even_bounds (q : Q) :
  (q - (1 # 2) <= inject_Z (round_half_even q))%Q
  ∧ (inject_Z (round_half_even q) <= q + (1 # 2))%Q.
Proof.
  unfold round_half_even.
  pose proof (Qfloor_le q) as Hlo. pose proof (Qlt_floor q) as Hhi.
  rewrite inject_Z_plus in Hhi. change (inject_Z 1) with 1%Q in Hhi.
  destruct (q - inject_Z (Qfloor q) ?= 1 # 2)%Q eqn:E.
  - apply Qeq_alt in E. destruct (Z.even (Qfloor q)).
    + split; lra.
    + rewrite inject_Z_plus. change (inject_Z 1) with 1%Q. split; lra.
  - apply Qlt_alt in E. split; lra.
  - apply Qgt_alt in E. rewrite inject_Z_plus. change (inject_Z 1) with 1%Q.
    split; lra.
Qed.

Lemma round1_bounds (q : Q) :
  (q - (1 # 20) <= round1 q)%Q ∧ (round1 q <= q + (1 # 20))%Q.
Proof.
  unfold round1. destruct (round_half_even_bounds (q * 10)) as [Hlo Hhi].
  set (n := inject_Z (round_half_even (q * 10))) in *.
  split.
  - apply Qle_shift_div_l; [reflexivity|]. lra.
  - apply Qle_shift_div_r; [reflexivity|]. lra.
Qed.



Lemma weighted_sum_ge (t s e d i k : Q) :
  (0 <= t)%Q → (0 <= s)%Q → (0 <= e)%Q → (25 <= d)%Q → (50 <= i)%Q → (0 <= k)%Q →
  (7.5 <= weighted_sum t s e d i k)%Q.
Proof. unfold weighted_sum. intros. lra. Qed.


(** ** The suggestion engine *)

(** C8. The list of suggestions has at most 10 entries, all of them
    strings; when fewer than 7 of the conditional messages (priorities 1
    to 9) are appended, nothing is cut off and the last 3 entries are the
    first 3 of the 5 universal best practices, in their order. *)
Theorem suggestions_bounded (m : Match.t) (r : Resume.t) (j : Job.t) :
  let suggestions := generate_advanced_suggestions m r j in
  length suggestions ≤ 10
  ∧ length universal_suggestions = 5
  ∧ (length (conditional_suggestions m r j) < 7 →
     length suggestions = length (conditional_suggestions m r j) + 4
     ∧ drop (length suggestions - 3) suggestions = take 3 universal_suggestions).
Proof.
  intros suggestions. subst suggestions. unfold generate_advanced_suggestions.
  split; [|split].
  - rewrite length_take. lia.
  - reflexivity.
  - intros Hlt.
    set (cond := conditional_suggestions m r j) in *.
    set (s := strength_suggestion (Match.match_strength m)).
    assert (Hlen : length ((cond ++ [s]) ++ take 3 universal_suggestions)
                   = length cond + 4).
    { rewrite !length_app. simpl. lia. }
    rewrite take_ge by lia. split; [exact Hlen|].
    rewrite Hlen.
    replace (length cond + 4 - 3) with (length (cond ++ [s]))
      by (rewrite length_app; simpl; lia).
    apply drop_app_length.
Qed.

(** ** Running the analyzer to the end *)

Lemma is_ok_ret {A} (a : A) : is_ok (mret a : result A).
Proof. exists a. reflexivity. Qed.

Lemma is_ok_bind {A B} (m : result A) (f : A → result B) :
  is_ok m → (∀ a, is_ok (f a)) → is_ok (m ≫= f).
Proof. intros [a ->] Hf. rewrite bind_Ok. apply Hf. Qed.

Lemma is_ok_for_each {A S} (body : S → A → result S) (l : list A) (s : S) :
  (∀ s x, x ∈ l → is_ok (body s x)) → is_ok (for_each body s l).
Proof.
  revert s. induction l as [|x l IH]; intros s Hb; simpl.
  - apply is_ok_ret.
  - apply is_ok_bind.
    + apply Hb. left.
    + intros s'. apply IH. intros s'' y Hy. apply Hb. right. exact Hy.
Qed.

(** ** Experience years *)

Section Extraction.
Context (U : Unicode).

Lemma digits_fold (s : str) (ds : list Z) (acc : Z) :
  mapM (decimal_value U) s = Some ds →
  foldl (λ acc d, 10 * acc + d)%Z acc ds
  = foldl (λ acc c, 10 * acc + default 0 (decimal_value U c))%Z acc s.
Proof.
  revert ds acc. induction s as [|c s IH]; intros ds acc H; simpl in H.
  - injection H as <-. reflexivity.
  - destruct (decimal_value U c) as [d|] eqn:Ed; [|discriminate].
    destruct (mapM (decimal_value U) s) as [ds'|] eqn:Es; [|discriminate].
    simpl in H. injection H as <-. simpl. rewrite Ed. simpl. apply IH. reflexivity.
Qed.

Lemma py_int_digits (s : str) :
  isdigit U s = true → py_int U s = Ok (digits_value U s).
Proof.
  unfold isdigit, py_int. intros H. apply andb_true_iff in H as [Hs Hd].
  destruct s as [|c s]; [discriminate|].
  assert (Hm : is_Some (mapM (decimal_value U) (c :: s))).
  { apply mapM_is_Some. apply Forall_forall. intros x Hx.
    rewrite forallb_forall in Hd. apply list_elem_of_In in Hx.
    specialize (Hd x Hx). unfold is_digit in Hd.
    apply bool_decide_eq_true in Hd. exact Hd. }
  destruct Hm as [ds Hds]. rewrite Hds. f_equal.
  apply digits_fold. exact Hds.
Qed.

Lemma ints_of_strings (l : list str) :
  mapM (py_int U) (List.filter (isdigit U) l) = Ok (integers_of U l).
Proof.
  induction l as [|s l IH]; [reflexivity|].
  simpl. unfold integers_of. simpl. destruct (isdigit U s) eqn:E.
  - simpl. rewrite (py_int_digits s E), bind_Ok. rewrite IH, bind_Ok. reflexivity.
  - exact IH.
Qed.

Lemma integers_of_app (l1 l2 : list str) :
  integers_of U (l1 ++ l2) = integers_of U l1 ++ integers_of U l2.
Proof. unfold integers_of. apply bind_app. Qed.

Lemma findall_from_single (r : regex) (text : str) (fuel : nat) (c : cursor) :
  ngroups r = 1 →
  Forall (λ m, ∃ s, m = Single s) (findall_from U fuel r text c).
Proof.
  intros Hn. revert c. induction fuel as [|fuel IH]; intros c; simpl.
  - constructor.
  - destruct (scan U r (prev c) (pos c) (rest c)) as [[[i c'] g]|]; [|constructor].
    constructor.
    + unfold found_of. rewrite Hn. eexists. reflexivity.
    + destruct (i <? pos c'); [apply IH|].
      destruct (rest c'); [constructor|apply IH].
Qed.

Lemma as_str_singles (l : list found) :
  Forall (λ m, ∃ s, m = Single s) l →
  mapM as_str l = Ok (l ≫= captures_of).
Proof.
  induction 1 as [|m l [s ->] _ IH]; [reflexivity|].
  simpl. rewrite IH. reflexivity.
Qed.

Lemma integer_captures_cons (p : regex) (ps : list regex) (text : str) :
  integer_captures U (p :: ps) text
  = (re_findall U p text ≫= λ m, integers_of U (captures_of m))
    ++ integer_captures U ps text.
Proof. reflexivity. Qed.

Lemma integers_of_bind (ms : list found) :
  integers_of U (ms ≫= captures_of) = ms ≫= λ m, integers_of U (captures_of m).
Proof.
  induction ms as [|m ms IH]; [reflexivity|].
  change ((m :: ms) ≫= captures_of) with (captures_of m ++ (ms ≫= captures_of)).
  rewrite integers_of_app, IH. reflexivity.
Qed.

Lemma extend_years_spec (text : str) (years : list Z) (p : regex) :
  ngroups p = 1 →
  extend_years U text years p
  = Ok (years ++ (re_findall U p text ≫= λ m, integers_of U (captures_of m))).
Proof.
  intros Hn. unfold extend_years.
  rewrite as_str_singles by (apply findall_from_single, Hn).
  rewrite bind_Ok, ints_of_strings, bind_Ok, integers_of_bind. reflexivity.
Qed.

Lemma extend_years_loop (text : str) (ps : list regex) (acc : list Z) :
  Forall (λ p, ngroups p = 1) ps →
  for_each (extend_years U text) acc ps = Ok (acc ++ integer_captures U ps text).
Proof.
  intros Hg. revert acc. induction Hg as [|p ps Hp _ IH]; intros acc; cbn [for_each].
  - change (integer_captures U [] text) with (@nil Z). rewrite app_nil_r. reflexivity.
  - rewrite (extend_years_spec text acc p Hp), bind_Ok, IH.
    rewrite integer_captures_cons, app_assoc. reflexivity.
Qed.

Lemma experience_years_list_spec (text : str) :
  experience_years_list U text
  = Ok (integer_captures U (experience_patterns U) text).
Proof.
  unfold experience_years_list. rewrite extend_years_loop; [reflexivity|].
  repeat constructor.
Qed.

Lemma extend_required_matches (ms : list found) (acc : list Z) :
  for_each
    (λ years m,
       match m with
       | Tuple ms =>
           new ← mapM (py_int U) (List.filter (isdigit U) ms);
           mret (years ++ new)
       | Single s =>
           if isdigit U s then n ← py_int U s; mret (years ++ [n])
           else mret years
       end) acc ms
  = Ok (acc ++ (ms ≫= λ m, integers_of U (captures_of m))).
Proof.
  revert acc. induction ms as [|m ms IH]; intros acc; cbn [for_each].
  - simpl. rewrite app_nil_r. reflexivity.
  - change ((m :: ms) ≫= λ m, integers_of U (captures_of m))
      with (integers_of U (captures_of m) ++ (ms ≫= λ m, integers_of U (captures_of m))).
    destruct m as [s|ss].
    + unfold integers_of at 1. simpl. destruct (isdigit U s) eqn:E; simpl.
      * rewrite (py_int_digits s E). rewrite !bind_Ok. rewrite IH.
        rewrite <- app_assoc. reflexivity.
      * apply IH.
    + rewrite ints_of_strings, !bind_Ok, IH, <- app_assoc. reflexivity.
Qed.

Lemma extend_required_spec (text : str) (years : list Z) (p : regex) :
  extend_required U text years p
  = Ok (years ++ (re_findall U p text ≫= λ m, integers_of U (captures_of m))).
Proof. unfold extend_required. apply extend_required_matches. Qed.

Lemma required_years_list_spec (text : str) :
  required_years_list U text
  = Ok (integer_captures U (required_experience_patterns U) text).
Proof.
  unfold required_years_list.
  change (Ok (integer_captures U (required_experience_patterns U) text))
    with (Ok (A:=list Z) ([] ++ integer_captures U (required_experience_patterns U) text)).
  generalize (required_experience_patterns U) as ps. generalize (@nil Z) as acc.
  intros acc ps. revert acc. induction ps as [|p ps IH]; intros acc; cbn [for_each].
  - change (integer_captures U [] text) with (@nil Z). rewrite app_nil_r. reflexivity.
  - rewrite extend_required_spec, bind_Ok, IH.
    rewrite integer_captures_cons, app_assoc. reflexivity.
Qed.
End Extraction.

Lemma foldl_max_spec (l : list Z) (x : Z) :
  foldl Z.max x l ∈ x :: l ∧ ∀ y, y ∈ x :: l → (y ≤ foldl Z.max x l)%Z.
Proof.
  revert x. induction l as [|a l IH]; intros x; simpl.
  - split; [left|]. intros y Hy. apply list_elem_of_singleton in Hy as ->. lia.
  - destruct (IH (x `max` a)%Z) as [Hin Hub]. split.
    + apply elem_of_cons in Hin as [Hin|Hin].
      * rewrite Hin. destruct (Z.max_spec x a) as [[_ ->]|[_ ->]];
          [right; left|left].
      * right. right. exact Hin.
    + intros y Hy. apply elem_of_cons in Hy as [->|Hy].
      * etransitivity; [|apply Hub; left]. lia.
      * apply elem_of_cons in Hy as [->|Hy].
        -- etransitivity; [|apply Hub; left]. lia.
        -- apply Hub. right. exact Hy.
Qed.

Lemma foldl_min_spec (l : list Z) (x : Z) :
  foldl Z.min x l ∈ x :: l ∧ ∀ y, y ∈ x :: l → (foldl Z.min x l ≤ y)%Z.
Proof.
  revert x. induction l as [|a l IH]; intros x; simpl.
  - split; [left|]. intros y Hy. apply list_elem_of_singleton in Hy as ->. lia.
  - destruct (IH (x `min` a)%Z) as [Hin Hub]. split.
    + apply elem_of_cons in Hin as [Hin|Hin].
      * rewrite Hin. destruct (Z.min_spec x a) as [[_ ->]|[_ ->]];
          [left|right; left].
      * right. right. exact Hin.
    + intros y Hy. apply elem_of_cons in Hy as [->|Hy].
      * etransitivity; [apply Hub; left|]. lia.
      * apply elem_of_cons in Hy as [->|Hy].
        -- etransitivity; [apply Hub; left|]. lia.
        -- apply Hub. right. exact Hy.
Qed.

(** ** The ATS score *)

Lemma scan_char_class (U : Unicode) (p : char → bool) (q : option char) (i : nat) (s : str) :
  is_Some (scan U (RChar p) q i s) ↔ existsb p s = true.
Proof.
  revert q i. induction s as [|x s IH]; intros q i; simpl.
  - unfold match_at. simpl. split; [intros [? ?]; discriminate|discriminate].
  - unfold match_at. simpl. destruct (p x); simpl.
    + split; [reflexivity|]. intros _. eexists. reflexivity.
    + apply IH.
Qed.

Lemma re_search_char_class (U : Unicode) (p : char → bool) (text : str) :
  re_search U (RChar p) text = existsb p text.
Proof.
  unfold re_search. pose proof (scan_char_class U p None 0 text) as H.
  destruct (existsb p text).
  - apply bool_decide_eq_true. apply H. reflexivity.
  - apply bool_decide_eq_false. intros Hs. apply H in Hs. discriminate.
Qed.

Lemma count_if_bounds {A} (p : A → bool) (l : list A) :
  (0 ≤ count_if p l ≤ len l)%Z.
Proof.
  unfold count_if, len. pose proof (length_filter (λ x, p x = true) l). lia.
Qed.

Lemma Qdiv_4 (a : Q) : (a / 4 == a * (1 # 4))%Q.
Proof. reflexivity. Qed.

(** ** The entry points *)

Lemma py_max_spec (l : list Z) :
  l ≠ [] → ∃ m, py_max l = Ok m ∧ m ∈ l ∧ ∀ y, y ∈ l → (y ≤ m)%Z.
Proof.
  destruct l as [|x l]; [contradiction|]. intros _.
  exists (foldl Z.max x l). split; [reflexivity|]. apply foldl_max_spec.
Qed.

Lemma py_min_spec (l : list Z) :
  l ≠ [] → ∃ m, py_min l = Ok m ∧ m ∈ l ∧ ∀ y, y ∈ l → (m ≤ y)%Z.
Proof.
  destruct l as [|x l]; [contradiction|]. intros _.
  exists (foldl Z.min x l). split; [reflexivity|]. apply foldl_min_spec.
Qed.

Lemma analyze_experience_spec (U : Unicode) (text : str) :
  let captures := integer_captures U (experience_patterns U) text in
  ∃ years,
    _analyze_experience U text = Ok (years, _categorize_experience_level years)
    ∧ (captures = [] → years = 0%Z)
    ∧ (captures ≠ [] → years ∈ captures ∧ ∀ c, c ∈ captures → (c ≤ years)%Z).
Proof.
  intros captures. unfold _analyze_experience.
  rewrite experience_years_list_spec, bind_Ok. fold captures.
  destruct captures as [|c cs] eqn:E.
  - exists 0%Z. split; [reflexivity|]. split; [reflexivity|]. intros H. contradiction.
  - destruct (py_max_spec (c :: cs)) as (m & Hm & Hin & Hub); [discriminate|].
    exists m. cbn [truthy]. rewrite Hm, bind_Ok. split; [reflexivity|].
    split; [discriminate|]. intros _. split; assumption.
Qed.

Lemma required_experience_spec (U : Unicode) (text : str) :
  let captures := integer_captures U (required_experience_patterns U) text in
  ∃ required,
    _extract_required_experience U text = Ok required
    ∧ (captures = [] → required = 0%Z)
    ∧ (captures ≠ [] → required ∈ captures ∧ ∀ c, c ∈ captures → (required ≤ c)%Z).
Proof.
  intros captures. unfold _extract_required_experience.
  rewrite required_years_list_spec, bind_Ok. fold captures.
  destruct captures as [|c cs] eqn:E.
  - exists 0%Z. split; [reflexivity|]. split; [reflexivity|]. intros H. contradiction.
  - destruct (py_min_spec (c :: cs)) as (m & Hm & Hin & Hub); [discriminate|].
    exists m. cbn [truthy]. rewrite Hm. split; [reflexivity|].
    split; [discriminate|]. intros _. split; assumption.
Qed.

Lemma is_ok_contact_info (U : Unicode) (text : str) :
  is_ok (_analyze_contact_info U text).
Proof.
  unfold _analyze_contact_info. apply is_ok_for_each.
  intros info [contact_type pattern] _.
  destruct (re_findall U pattern text) as [|m ms]; simpl.
  - apply is_ok_ret.
  - eexists. reflexivity.
Qed.

Lemma is_ok_detect_industry (text : str) : is_ok (_detect_industry text).
Proof.
  unfold _detect_industry.
  destruct (omap _ industry_skills) as [|x l]; simpl.
  - repeat match goal with |- context [if ?c then _ else _] => destruct c end;
      apply is_ok_ret.
  - eexists. reflexivity.
Qed.

Lemma is_ok_ats (U : Unicode) (text : str) : is_ok (_calculate_ats_compatibility U text).
Proof.
  unfold _calculate_ats_compatibility.
  rewrite truediv_ok by discriminate. rewrite bind_Ok. eexists. reflexivity.
Qed.

Lemma is_ok_job_complexity (U : Unicode) (text : str) :
  is_ok (_calculate_job_complexity U text).
Proof.
  unfold _calculate_job_complexity.
  rewrite truediv_ok by discriminate. rewrite bind_Ok. eexists. reflexivity.
Qed.

Lemma guard_spec (text : str) :
  negb (truthy text) || (length (strip text) <? 50) = true ↔ length (strip text) < 50.
Proof.
  rewrite orb_true_iff, Nat.ltb_lt. split.
  - intros [H|H]; [|exact H]. destruct text; [simpl; lia|discriminate].
  - intros H. right. exact H.
Qed.

Lemma guard_passed (text : str) :
  50 ≤ length (strip text) →
  negb (truthy text) || (length (strip text) <? 50) = false.
Proof.
  intros Hge. apply not_true_is_false. intros E. apply guard_spec in E. lia.
Qed.

(** What [analyze_resume] returns on a text that is long enough, for
    the entries the properties are about. *)
Lemma analyze_resume_ok (U : Unicode) (text : str) :
  50 ≤ length (strip text) →
  ∃ facts,
    analyze_resume U text = Ok facts
    ∧ Resume.technical_skills facts = fst (_analyze_skills U (lower U text))
    ∧ Resume.soft_skills facts = snd (_analyze_skills U (lower U text))
    ∧ _analyze_experience U (lower U text)
      = Ok (Resume.experience_years facts, Resume.experience_level facts)
    ∧ _calculate_ats_compatibility U text = Ok (Resume.ats_compatibility_score facts).
Proof.
  intros Hge. unfold analyze_resume. rewrite (guard_passed text Hge).
  destruct (analyze_experience_spec U (lower U text)) as (y & Hy & _).
  destruct (is_ok_contact_info U text) as [c Hc].
  destruct (is_ok_detect_industry (lower U text)) as [i Hi].
  destruct (is_ok_ats U text) as [a Ha].
  rewrite Hy, bind_Ok, Hc, bind_Ok, Hi, bind_Ok, Ha, bind_Ok.
  eexists. split; [reflexivity|]. repeat split.
Qed.

Lemma analyze_job_description_ok (U : Unicode) (text : str) :
  50 ≤ length (strip text) →
  ∃ facts,
    analyze_job_description U text = Ok facts
    ∧ Job.technical_skills facts = fst (_analyze_skills U (lower U text))
    ∧ Job.soft_skills facts = snd (_analyze_skills U (lower U text))
    ∧ _extract_required_experience U (lower U text)
      = Ok (Job.experience_required facts).
Proof.
  intros Hge. unfold analyze_job_description. rewrite (guard_passed text Hge).
  unfold _analyze_job_requirements.
  destruct (required_experience_spec U (lower U text)) as (y & Hy & _).
  destruct (is_ok_detect_industry (lower U text)) as [i Hi].
  destruct (is_ok_job_complexity U text) as [a Ha].
  rewrite Hy, !bind_Ok, Hi, bind_Ok, Ha, bind_Ok.
  eexists. split; [reflexivity|]. repeat split.
Qed.





(** ** The top skill gaps *)

Section Sorting.
Context {A : Type} (key : A → Z).

Lemma insert_desc_perm (x : A) (l : list A) : insert_desc key x l ≡ₚ x :: l.
Proof.
  induction l as [|y l IH]; simpl; [reflexivity|].
  destruct (key x <? key y)%Z; [|reflexivity].
  rewrite IH. apply Permutation_swap.
Qed.

Lemma sorted_desc_perm (l : list A) : sorted_desc key l ≡ₚ l.
Proof.
  induction l as [|x l IH]; simpl; [reflexivity|].
  rewrite insert_desc_perm, IH. reflexivity.
Qed.

Lemma insert_desc_sorted (x : A) (l : list A) :
  StronglySorted (desc key) l → StronglySorted (desc key) (insert_desc key x l).
Proof.
  induction 1 as [|y l Hl IH Hy]; simpl.
  - repeat constructor.
  - destruct (Z.ltb_spec (key x) (key y)).
    + constructor; [exact IH|].
      rewrite insert_desc_perm. constructor; [unfold desc; lia|exact Hy].
    + constructor; [constructor; assumption|].
      constructor; [unfold desc; lia|].
      eapply Forall_impl; [exact Hy|]. unfold desc. intros z Hz. lia.
Qed.

Lemma sorted_desc_sorted (l : list A) : StronglySorted (desc key) (sorted_desc key l).
Proof.
  induction l as [|x l IH]; simpl; [constructor|].
  apply insert_desc_sorted, IH.
Qed.

(** Stability: the elements of one key keep their order. *)
Lemma insert_desc_stable (k : Z) (x : A) (l : list A) :
  filter (λ a, key a = k) (insert_desc key x l) = filter (λ a, key a = k) (x :: l).
Proof.
  induction l as [|y l IH]; simpl; [reflexivity|].
  destruct (Z.ltb_spec (key x) (key y)) as [Hlt|Hge]; [|reflexivity].
  rewrite (filter_cons _ y), IH, !(filter_cons _ x), (filter_cons _ y).
  destruct (decide (key y = k)), (decide (key x = k)); try reflexivity. lia.
Qed.

Lemma sorted_desc_stable (k : Z) (l : list A) :
  filter (λ a, key a = k) (sorted_desc key l) = filter (λ a, key a = k) l.
Proof.
  induction l as [|x l IH]; simpl; [reflexivity|].
  rewrite insert_desc_stable, !filter_cons, IH. reflexivity.
Qed.

Lemma filter_take_prefix (P : A → Prop) `{∀ x, Decision (P x)} (n : nat) (l : list A) :
  filter P (take n l) `prefix_of` filter P l.
Proof.
  rewrite <- (take_drop n l) at 2. rewrite filter_app. apply prefix_app_r. reflexivity.
Qed.

(** The first [n] of a descending sort are the [n] largest. *)
Lemma take_sorted_top (n : nat) (l : list A) (x y : A) :
  NoDup l → x ∈ l → x ∉ take n (sorted_desc key l) → y ∈ take n (sorted_desc key l) →
  (key x ≤ key y)%Z.
Proof.
  intros Hnd Hx Hnx Hy.
  pose proof (sorted_desc_sorted l) as Hs.
  rewrite <- (take_drop n (sorted_desc key l)) in Hs.
  apply (StronglySorted_app_1_elem_of _ _ _ y x Hs Hy).
  rewrite <- (sorted_desc_perm l), <- (take_drop n (sorted_desc key l)) in Hx.
  apply elem_of_app in Hx as [Hx|Hx]; [contradiction|exact Hx].
Qed.
End Sorting.

Lemma set_iter_perm (O : SetOrder) (X : gset str) : set_iter O X ≡ₚ elements X.
Proof.
  apply NoDup_Permutation.
  - apply set_iter_NoDup.
  - apply NoDup_elements.
  - intros x. rewrite set_iter_elem, elem_of_elements. reflexivity.
Qed.

Lemma set_iter_length (O : SetOrder) (X : gset str) : length (set_iter O X) = size X.
Proof. rewrite (set_iter_perm O X). reflexivity. Qed.

Lemma identify_top_skill_gaps_eq (O : SetOrder) (X : gset str) :
  _identify_top_skill_gaps O X = take 5 (sorted_desc importance (to_list O X)).
Proof.
  unfold _identify_top_skill_gaps. case_bool_decide as HX; [|reflexivity].
  subst X. unfold to_list.
  assert (H : set_iter O ∅ = []).
  { apply length_zero_iff_nil. rewrite set_iter_length. apply size_empty. }
  rewrite H. reflexivity.
Qed.



(** ** Skill detection *)

Section Skills.
Context (U : Unicode).

Lemma rmatch_escape (s : str) k (c : cursor) (g : caps) :
  rmatch U (re_escape s) k c g
  = match after_literal s c with
    | Some c' => k c' g
    | None => None
    end.
Proof.
  revert c. induction s as [|a s IH]; intros c; simpl; [reflexivity|].
  destruct (rest c) as [|x xs]; [reflexivity|].
  unfold rchr. destruct (a =? x)%N; [apply IH|reflexivity].
Qed.

Lemma after_literal_spec (s : str) (c c' : cursor) :
  after_literal s c = Some c' ↔
  ∃ after,
    rest c = s ++ after
    ∧ c' = {| prev := from_option Some (prev c) (last s);
              pos := pos c + length s;
              rest := after |}.
Proof.
  revert c. induction s as [|a s IH]; intros c; simpl.
  - split.
    + intros [= <-]. exists (rest c). split; [reflexivity|].
      destruct c; simpl. f_equal. lia.
    + intros (after & Hr & ->). destruct c; simpl in *. subst. do 2 f_equal. lia.
  - destruct (rest c) as [|x xs] eqn:Er.
    + split; [discriminate|]. intros (after & Hr & _). discriminate.
    + destruct (N.eqb_spec a x) as [->|Hne].
      * rewrite IH. simpl. split.
        -- intros (after & -> & ->). exists after. split; [reflexivity|].
           f_equal; [|lia]. destruct s as [|b s]; [reflexivity|].
           rewrite last_cons_cons. destruct (last (b :: s)) eqn:El; [reflexivity|].
           apply last_None in El. discriminate.
        -- intros (after & [= ->] & ->). exists after. split; [reflexivity|].
           f_equal; [|lia]. destruct s as [|b s]; [reflexivity|].
           rewrite last_cons_cons. destruct (last (b :: s)) eqn:El; [reflexivity|].
           apply last_None in El. discriminate.
      * split; [discriminate|]. intros (after & [= ? ?] & _). congruence.
Qed.

Lemma match_at_skill (s : str) (c : cursor) :
  is_Some (match_at U (RSeq RWordB (RSeq (re_escape s) RWordB)) c) ↔
  ∃ after,
    rest c = s ++ after
    ∧ boundary U (prev c) (head (s ++ after)) = true
    ∧ boundary U (from_option Some (prev c) (last s)) (head after) = true.
Proof.
  unfold match_at. simpl. rewrite rmatch_escape. unfold at_boundary, boundary.
  split.
  - destruct (xorb (word_opt U (prev c)) (word_opt U (head (rest c)))) eqn:Eb;
      [|intros [? ?]; discriminate].
    destruct (after_literal s c) as [c'|] eqn:Ea; [|intros [? ?]; discriminate].
    apply after_literal_spec in Ea as (after & Hr & ->). simpl.
    set (b2 := xorb (word_opt U (from_option Some (prev c) (last s)))
                 (word_opt U (head after))).
    intros Hm. exists after. split; [exact Hr|]. split; [rewrite <- Hr; exact Eb|].
    change (b2 = true). destruct b2; [reflexivity|destruct Hm; discriminate].
  - intros (after & Hr & Hb1 & Hb2). rewrite Hr, Hb1.
    assert (Ha : after_literal s c
                 = Some {| prev := from_option Some (prev c) (last s);
                           pos := pos c + length s; rest := after |}).
    { apply after_literal_spec. exists after. split; [exact Hr|reflexivity]. }
    rewrite Ha. simpl. rewrite Hb2. eexists. reflexivity.
Qed.

Lemma last_app_from_option (before s : str) :
  from_option Some (last before) (last s) = last (before ++ s).
Proof.
  destruct s as [|a s] using rev_ind.
  - rewrite app_nil_r. reflexivity.
  - rewrite app_assoc, !last_snoc. reflexivity.
Qed.

Lemma scan_skill (s : str) (before text : str) :
  is_Some (scan U (RSeq RWordB (RSeq (re_escape s) RWordB))
             (last before) (length before) text) ↔
  ∃ mid after,
    text = mid ++ s ++ after
    ∧ boundary U (last (before ++ mid)) (head (s ++ after)) = true
    ∧ boundary U (last (before ++ mid ++ s)) (head after) = true.
Proof.
  revert before. induction text as [|x text IH]; intros before.
  - simpl.
    destruct (match_at U _ _) as [[c' g]|] eqn:Em.
    + split; [intros _|intros _; eexists; reflexivity].
      assert (Hs : is_Some (match_at U (RSeq RWordB (RSeq (re_escape s) RWordB))
                              {| prev := last before; pos := length before; rest := [] |}))
        by (rewrite Em; eexists; reflexivity).
      apply match_at_skill in Hs as (after & Hr & Hb1 & Hb2). simpl in *.
      exists [], after. rewrite app_nil_r. split; [exact Hr|]. split; [exact Hb1|].
      rewrite <- last_app_from_option. exact Hb2.
    + split; [intros [? ?]; discriminate|].
      intros (mid & after & Ht & Hb1 & Hb2).
      symmetry in Ht. apply app_eq_nil in Ht as [-> Ht].
      assert (Hs : is_Some (match_at U (RSeq RWordB (RSeq (re_escape s) RWordB))
                              {| prev := last before; pos := length before; rest := [] |})).
      { apply match_at_skill. exists after. simpl. rewrite app_nil_r in Hb1.
        simpl in Hb2.
        split; [symmetry; exact Ht|]. split; [exact Hb1|].
        rewrite last_app_from_option. exact Hb2. }
      rewrite Em in Hs. destruct Hs; discriminate.
  - simpl.
    destruct (match_at U _ _) as [[c' g]|] eqn:Em.
    + split; [intros _|intros _; eexists; reflexivity].
      assert (Hs : is_Some (match_at U (RSeq RWordB (RSeq (re_escape s) RWordB))
                              {| prev := last before; pos := length before;
                                 rest := x :: text |}))
        by (rewrite Em; eexists; reflexivity).
      apply match_at_skill in Hs as (after & Hr & Hb1 & Hb2). simpl in *.
      exists [], after. rewrite app_nil_r. split; [exact Hr|]. split; [exact Hb1|].
      rewrite <- last_app_from_option. exact Hb2.
    + specialize (IH (before ++ [x])).
      rewrite last_snoc, length_app in IH. simpl in IH.
      replace (length before + 1) with (S (length before)) in IH by lia.
      rewrite IH. split.
      * intros (mid & after & Ht & Hb1 & Hb2). exists (x :: mid), after.
        rewrite <- !app_assoc in Hb1, Hb2. simpl in *. subst text.
        split; [reflexivity|]. split; assumption.
      * intros (mid & after & Ht & Hb1 & Hb2).
        destruct mid as [|y mid].
        -- exfalso.
           assert (Hs : is_Some (match_at U (RSeq RWordB (RSeq (re_escape s) RWordB))
                                   {| prev := last before; pos := length before;
                                      rest := x :: text |})).
           { apply match_at_skill. exists after. simpl in *.
             rewrite app_nil_r in Hb1.
             split; [exact Ht|]. split; [exact Hb1|].
             rewrite last_app_from_option. exact Hb2. }
           rewrite Em in Hs. destruct Hs; discriminate.
        -- simpl in Ht. injection Ht as -> ->. exists mid, after.
           rewrite <- !app_assoc. simpl. split; [reflexivity|]. split; assumption.
Qed.

Lemma re_search_skill (s text : str) :
  re_search U (RSeq RWordB (RSeq (re_escape s) RWordB)) text = true
  ↔ word_delimited U s text.
Proof.
  unfold re_search. rewrite bool_decide_eq_true.
  rewrite (scan_skill s [] text). reflexivity.
Qed.

Lemma word_delimited_standalone (s text : str) :
  word_ended U s = true → (word_delimited U s text ↔ standalone U s text).
Proof.
  unfold word_ended. intros Hw. apply andb_true_iff in Hw as [Hh Hl].
  destruct s as [|a s]; [discriminate|]. simpl in Hh.
  assert (Hlast : ∀ before, word_opt U (last (before ++ a :: s)) = true).
  { intros before. rewrite last_app. revert Hl.
    destruct (last (a :: s)) eqn:E; [intros Hl; exact Hl|].
    apply last_None in E. discriminate. }
  unfold word_delimited, standalone, boundary.
  split; intros (before & after & Ht & H1 & H2); exists before, after;
    (split; [exact Ht|]).
  - rewrite Hlast in H2. simpl in H1. rewrite Hh in H1.
    destruct (word_opt U (last before)), (word_opt U (head after)); try discriminate.
    split; reflexivity.
  - rewrite Hlast. simpl. rewrite Hh, H1, H2. split; reflexivity.
Qed.
End Skills.

Lemma ascii_lowercase_lower (U : Unicode) (s : str) :
  ascii_lowercase s = true → lower U s = s.
Proof.
  unfold ascii_lowercase, lower. intros H.
  assert (Ha : forallb is_ascii s = true).
  { rewrite forallb_forall in *. intros c Hc. specialize (H c Hc).
    apply andb_true_iff in H as [H _]. exact H. }
  rewrite Ha. clear Ha. induction s as [|c s IH]; [reflexivity|].
  simpl in H. apply andb_true_iff in H as [Hc Hs]. apply andb_true_iff in Hc as [_ Hc].
  rewrite fmap_cons, (IH Hs). unfold ascii_tolower.
  destruct (ascii_upper c); [discriminate|reflexivity].
Qed.

Lemma ascii_word_is_word (U : Unicode) (c : char) :
  ascii_word c = true → is_word U c = true.
Proof.
  unfold ascii_word, is_word. intros H. apply andb_true_iff in H as [-> H]. exact H.
Qed.

Lemma ascii_word_ended_word_ended (U : Unicode) (s : str) :
  ascii_word_ended s = true → word_ended U s = true.
Proof.
  unfold ascii_word_ended, word_ended.
  destruct (head s) as [a|]; [|discriminate].
  destruct (last s) as [b|]; [|discriminate].
  intros H. apply andb_true_iff in H as [Ha Hb]. simpl.
  rewrite (ascii_word_is_word U a Ha), (ascii_word_is_word U b Hb). reflexivity.
Qed.

Lemma catalog_well_formed :
  forallb well_formed_entry (all_technical_skills ++ soft_skills) = true.
Proof. vm_compute. reflexivity. Qed.

Lemma catalog_entry (U : Unicode) (skill : str) :
  skill ∈ all_technical_skills ++ soft_skills → skill ∉ symbol_ended →
  lower U skill = skill ∧ word_ended U skill = true.
Proof.
  intros Hin Hsym. pose proof catalog_well_formed as H.
  rewrite forallb_forall in H. apply list_elem_of_In in Hin.
  specialize (H skill Hin). unfold well_formed_entry in H.
  apply andb_true_iff in H as [Hl Hw]. split.
  - apply ascii_lowercase_lower, Hl.
  - apply orb_true_iff in Hw as [Hw|Hw].
    + apply bool_decide_eq_true in Hw. contradiction.
    + apply ascii_word_ended_word_ended, Hw.
Qed.

Lemma skill_found (U : Unicode) (skill text : str) :
  lower U skill = skill → word_ended U skill = true →
  (re_search U (skill_pattern U skill) text = true ↔ standalone U skill text).
Proof.
  intros Hl Hw. unfold skill_pattern. rewrite Hl, re_search_skill.
  apply word_delimited_standalone, Hw.
Qed.



(** C1 on the code. The resume [cpp_resume] has the catalog skill c++ as
    a word of its own, and the technical skills found are rust alone;
    the resume [cpp11_resume] has c++ only inside the token c++11, and
    c++ is among the skills found. The pattern ends in a word boundary,
    which after a plus sign asks for a word character to follow. *)
Theorem symbol_ended_skills_missed :
  ∃ facts facts11,
    analyze_resume ascii_only cpp_resume = Ok facts
    ∧ analyze_resume ascii_only cpp11_resume = Ok facts11
    ∧ lit "c++" ∈ all_technical_skills
    ∧ standalone ascii_only (lit "c++") (lower ascii_only cpp_resume)
    ∧ Resume.technical_skills facts = [lit "rust"]
    ∧ lower ascii_only cpp11_resume
      = lit "systems programmer with 8 years of rust on linux, porting engines to the "
        ++ lit "c++11" ++ lit " standard."
    ∧ Resume.technical_skills facts11 = [lit "c++"; lit "rust"].
Proof.
  eexists _, _. split; [vm_compute; reflexivity|]. split; [vm_compute; reflexivity|].
  split; [apply (bool_decide_unpack _); vm_compute; reflexivity|].
  split.
  { exists (lit "systems programmer with 8 years of "),
           (lit " and rust on linux, building trading engines.").
    repeat split. }
  repeat split.
Qed.

Lemma word_delimited_symbol_ended (U : Unicode) (s text : str) :
  word_opt U (head s) = true → word_opt U (last s) = false → s ≠ [] →
  (word_delimited U s text ↔ followed_by_word U s text).
Proof.
  intros Hh Hl Hne. destruct s as [|a s]; [contradiction|]. simpl in Hh.
  assert (Hlast : ∀ before, word_opt U (last (before ++ a :: s)) = false).
  { intros before. rewrite last_app. revert Hl.
    destruct (last (a :: s)) eqn:E; [intros Hl; exact Hl|].
    apply last_None in E. discriminate. }
  unfold word_delimited, followed_by_word, boundary.
  split; intros (before & after & Ht & H1 & H2); exists before, after;
    (split; [exact Ht|]).
  - rewrite Hlast in H2. simpl in H1. rewrite Hh in H1. simpl in H2.
    destruct (word_opt U (last before)); [discriminate|]. split; [reflexivity|exact H2].
  - rewrite Hlast. simpl. rewrite Hh, H1, H2. split; reflexivity.
Qed.

(** The catalog skills that end in a symbol. For c++, c# and f#, in any
    text: the skill is in the catalog, and it is among the technical
    skills found exactly when the text has it right after a place that is
    not a word character and right before a word character, as in c++11. *)
Theorem symbol_ended_skills_detection (U : Unicode) (text skill : str) :
  skill ∈ symbol_ended →
  skill ∈ all_technical_skills
  ∧ (skill ∈ fst (_analyze_skills U text) ↔ followed_by_word U skill text).
Proof.
  intros Hin.
  assert (Hcat : skill ∈ all_technical_skills).
  { unfold symbol_ended in Hin. rewrite !fmap_cons, fmap_nil in Hin.
    apply elem_of_cons in Hin as [->|Hin]; [apply (bool_decide_unpack _); vm_compute; reflexivity|].
    apply elem_of_cons in Hin as [->|Hin]; [apply (bool_decide_unpack _); vm_compute; reflexivity|].
    apply list_elem_of_singleton in Hin as ->. apply (bool_decide_unpack _). vm_compute. reflexivity. }
  split; [exact Hcat|].
  assert (Hs : lower U skill = skill ∧ word_opt U (head skill) = true
               ∧ word_opt U (last skill) = false ∧ skill ≠ []).
  { unfold symbol_ended in Hin. rewrite !fmap_cons, fmap_nil in Hin.
    apply elem_of_cons in Hin as [->|Hin]; [repeat split; discriminate|].
    apply elem_of_cons in Hin as [->|Hin]; [repeat split; discriminate|].
    apply list_elem_of_singleton in Hin as ->. repeat split; discriminate. }
  destruct Hs as (Hl & Hh & Hla & Hne).
  unfold _analyze_skills. cbn [fst].
  rewrite list_elem_of_In, filter_In, <- list_elem_of_In.
  unfold skill_pattern. rewrite Hl, re_search_skill.
  rewrite (word_delimited_symbol_ended U skill text Hh Hla Hne).
  split; [intros [_ H]; exact H|intros H; split; [exact Hcat|exact H]].
Qed.


Lemma symbol_ended_skills_detection_cpp :
  lit "c++" ∈ all_technical_skills
  ∧ (lit "c++" ∈ fst (_analyze_skills ascii_only (lower ascii_only cpp11_resume))
     ↔ followed_by_word ascii_only (lit "c++") (lower ascii_only cpp11_resume)).
Proof.
  apply (symbol_ended_skills_detection ascii_only (lower ascii_only cpp11_resume) (lit "c++")).
  apply (bool_decide_unpack _). vm_compute. reflexivity.
Defined.

Lemma ratio_score_full (X : gset str) : X ≠ ∅ → (ratio_score X X == 100)%Q.
Proof.
  intros Hne. unfold ratio_score.
  assert (Hs : ¬ (inject_Z (Z.of_nat (size X)) == 0)%Q).
  { intros H0. apply Hne. apply leibniz_equiv, size_empty_iff.
    unfold Qeq in H0. simpl in H0. lia. }
  field. exact Hs.
Qed.



(** ** The result of the scorer *)

Lemma calculate_result (O : SetOrder) (r : Resume.t) (j : Job.t) :
  ∃ sc m,
    match_scores r j = Ok sc
    ∧ calculate_advanced_match_score O r j = Ok m
    ∧ Match.matched_technical_skills m
      = to_list O (set_of (Resume.technical_skills r) ∩ set_of (Job.technical_skills j))
    ∧ Match.missing_technical_skills m
      = to_list O (set_of (Job.technical_skills j) ∖ set_of (Resume.technical_skills r))
    ∧ Match.matched_soft_skills m
      = to_list O (set_of (Resume.soft_skills r) ∩ set_of (Job.soft_skills j))
    ∧ Match.missing_soft_skills m
      = to_list O (set_of (Job.soft_skills j) ∖ set_of (Resume.soft_skills r))
    ∧ Match.matched_keywords m
      = to_list O (set_of (Resume.keywords r) ∩ set_of (Job.keywords j))
    ∧ Match.matched_skills m
      = to_list O ((set_of (Resume.technical_skills r) ∩ set_of (Job.technical_skills j))
                   ∪ (set_of (Resume.soft_skills r) ∩ set_of (Job.soft_skills j))).
Proof.
  destruct (match_scores_ok r j) as (t & s & k & _ & _ & _ & Hsc).
  eexists _, _. split; [exact Hsc|].
  unfold calculate_advanced_match_score. rewrite Hsc, bind_Ok.
  split; [reflexivity|]. repeat split.
Qed.


(** ** Rounding *)

Lemma round_half_even_ge (n : Z) (q : Q) :
  (inject_Z n <= q)%Q → (n ≤ round_half_even q)%Z.
Proof.
  intros H. unfold round_half_even.
  assert (Hf : (n ≤ Qfloor q)%Z).
  { rewrite <- (Qfloor_Z n). apply Qfloor_resp_le, H. }
  destruct (q - inject_Z (Qfloor q) ?= 1 # 2)%Q; [destruct (Z.even (Qfloor q))| |]; lia.
Qed.

Lemma round_half_even_le (n : Z) (q : Q) :
  (q <= inject_Z n)%Q → (round_half_even q ≤ n)%Z.
Proof.
  intros H. unfold round_half_even.
  pose proof (Qfloor_le q) as Hlo.
  assert (Hf : (Qfloor q ≤ n)%Z).
  { rewrite <- (Qfloor_Z n). apply Qfloor_resp_le, H. }
  destruct (Z.eq_dec (Qfloor q) n) as [He|Hne].
  - assert (Hz : (q - inject_Z (Qfloor q) <= 0)%Q) by (rewrite He; lra).
    destruct (q - inject_Z (Qfloor q) ?= 1 # 2)%Q eqn:E.
    + apply Qeq_alt in E. lra.
    + lia.
    + apply Qgt_alt in E. lra.
  - destruct (q - inject_Z (Qfloor q) ?= 1 # 2)%Q; [destruct (Z.even (Qfloor q))| |]; lia.
Qed.

Lemma round1_ge (n : Z) (q : Q) :
  (inject_Z n <= q * 10)%Q → (inject_Z n / 10 <= round1 q)%Q.
Proof.
  intros H. unfold round1.
  apply Qmult_le_compat_r with (z := (/ 10)%Q); [|discriminate].
  rewrite <- Zle_Qle. apply round_half_even_ge, H.
Qed.

Lemma round1_le (n : Z) (q : Q) :
  (q * 10 <= inject_Z n)%Q → (round1 q <= inject_Z n / 10)%Q.
Proof.
  intros H. unfold round1.
  apply Qmult_le_compat_r with (z := (/ 10)%Q); [|discriminate].
  rewrite <- Zle_Qle. apply round_half_even_le, H.
Qed.

(** Bounds of a rounded score from bounds of the score, in tenths. *)
Ltac round1_bound n :=
  first
    [ eapply Qle_trans; [|apply (round1_ge n); unfold inject_Z; lra]; discriminate
    | eapply Qle_trans; [apply (round1_le n); unfold inject_Z; lra|]; discriminate ].

Lemma overlap_score_le_100 (matches wanted : gset str) (d q : Q) :
  overlap_score matches wanted d = Ok q → matches ⊆ wanted → (d <= 100)%Q → (q <= 100)%Q.
Proof.
  intros Hq Hsub Hd. destruct (overlap_score_ok matches wanted d) as (q' & Hq' & He & Hn).
  rewrite Hq in Hq'. injection Hq' as <-.
  destruct (decide (wanted = ∅)) as [->|Hne].
  - rewrite He by reflexivity. exact Hd.
  - rewrite (Hn Hne).
    assert (Hw : size wanted ≠ 0)
      by (intros H0; apply Hne, leibniz_equiv, size_empty_iff, H0).
    pose proof (subseteq_size matches wanted Hsub) as Hs.
    assert (H1 : (inject_Z (Z.of_nat (size matches)) / inject_Z (Z.of_nat (size wanted))
                  <= 1)%Q).
    { apply Qle_shift_div_r.
      - change 0%Q with (inject_Z 0%Z). rewrite <- Zlt_Qlt. lia.
      - rewrite Qmult_1_l. rewrite <- Zle_Qle. lia. }
    lra.
Qed.

Lemma experience_score_le_100 (a b : Z) : (_calculate_experience_score a b <= 100)%Q.
Proof.
  unfold _calculate_experience_score.
  destruct (b =? 0)%Z; [discriminate|].
  destruct (Z.leb_spec b a).
  - destruct (Qle_bool_spec (inject_Z a) (inject_Z b * 1.5)); [discriminate|].
    apply Q.max_lub; [discriminate|]. lra.
  - change 100%Q with (inject_Z 100%Z). rewrite <- Zle_Qle. lia.
Qed.

Lemma education_score_values (a b : option str) :
  _calculate_education_score a b ∈ [100; 75; 50; 25]%Q.
Proof.
  unfold _calculate_education_score.
  repeat match goal with |- context [if ?c then _ else _] => destruct c end;
    set_solver.
Qed.

Lemma industry_alignment_values (a b : str) :
  _calculate_industry_alignment a b ∈ [70; 100; 80; 50]%Q.
Proof.
  unfold _calculate_industry_alignment.
  repeat match goal with |- context [if ?c then _ else _] => destruct c end;
    set_solver.
Qed.

Lemma weighted_sum_le (t s e d i k : Q) :
  (t <= 100)%Q → (s <= 100)%Q → (e <= 100)%Q → (d <= 100)%Q → (i <= 100)%Q →
  (k <= 100)%Q → (weighted_sum t s e d i k <= 100)%Q.
Proof. unfold weighted_sum. intros. lra. Qed.

(** The scores of a pair of facts with their bounds. *)
Lemma match_scores_bounds (r : Resume.t) (j : Job.t) :
  ∃ sc,
    match_scores r j = Ok sc
    ∧ (0 <= tech_score sc <= 100)%Q
    ∧ (0 <= soft_score sc <= 100)%Q
    ∧ (0 <= exp_score sc <= 100)%Q
    ∧ (25 <= edu_score sc <= 100)%Q
    ∧ (50 <= ind_score sc <= 100)%Q
    ∧ (0 <= kw_score sc <= 100)%Q
    ∧ (7.5 <= weighted_score sc <= 100)%Q
    ∧ final_score sc
      = (weighted_score sc * (0.7 + 0.3 * (Resume.ats_compatibility_score r / 100)))%Q.
Proof.
  destruct (match_scores_ok r j) as (t & s & k & Ht & Hs & Hk & Hsc).
  eexists. split; [exact Hsc|]. cbn [tech_score soft_score exp_score edu_score
    ind_score kw_score weighted_score final_score].
  assert (Ht' : (0 <= t <= 100)%Q).
  { split; [eapply overlap_score_bounds; [exact Ht|discriminate]|].
    eapply overlap_score_le_100; [exact Ht|set_solver|discriminate]. }
  assert (Hs' : (0 <= s <= 100)%Q).
  { split; [eapply overlap_score_bounds; [exact Hs|discriminate]|].
    eapply overlap_score_le_100; [exact Hs|set_solver|discriminate]. }
  assert (Hk' : (0 <= k <= 100)%Q).
  { split; [eapply overlap_score_bounds; [exact Hk|discriminate]|].
    eapply overlap_score_le_100; [exact Hk|set_solver|discriminate]. }
  assert (He : (0 <= _calculate_experience_score (Resume.experience_years r)
                      (Job.experience_required j) <= 100)%Q)
    by (split; [apply experience_score_nonneg|apply experience_score_le_100]).
  assert (Hd : (25 <= _calculate_education_score (Resume.education_level r)
                       (Job.education_required j) <= 100)%Q).
  { split; [apply education_score_ge_25|].
    pose proof (education_score_values (Resume.education_level r)
                  (Job.education_required j)) as H.
    repeat (apply elem_of_cons in H as [->|H]; [discriminate|]).
    apply elem_of_nil in H. contradiction. }
  assert (Hi : (50 <= _calculate_industry_alignment (Resume.detected_industry r)
                       (Job.industry j) <= 100)%Q).
  { split; [apply industry_alignment_ge_50|].
    pose proof (industry_alignment_values (Resume.detected_industry r) (Job.industry j))
      as H.
    repeat (apply elem_of_cons in H as [->|H]; [discriminate|]).
    apply elem_of_nil in H. contradiction. }
  split_and!; try tauto.
  - apply weighted_sum_ge; tauto.
  - apply weighted_sum_le; tauto.
Qed.

Lemma calculate_scores (O : SetOrder) (r : Resume.t) (j : Job.t) (sc : scores) :
  match_scores r j = Ok sc →
  ∃ m, calculate_advanced_match_score O r j = Ok m
    ∧ Match.overall_score m = round1 (final_score sc)
    ∧ Match.technical_score m = round1 (tech_score sc)
    ∧ Match.soft_skills_score m = round1 (soft_score sc)
    ∧ Match.experience_score m = round1 (exp_score sc)
    ∧ Match.education_score m = round1 (edu_score sc)
    ∧ Match.industry_score m = round1 (ind_score sc)
    ∧ Match.keyword_score m = round1 (kw_score sc)
    ∧ Match.ats_compatibility_score m = round1 (Resume.ats_compatibility_score r)
    ∧ Match.match_strength m = _categorize_match_strength (final_score sc).
Proof.
  intros H. unfold calculate_advanced_match_score. rewrite H, bind_Ok.
  eexists. split; [reflexivity|]. repeat split.
Qed.


Lemma categorize_match_strength_cases (score : Q) :
  (_categorize_match_strength score = lit "excellent" ∧ (85 <= score)%Q)
  ∨ (_categorize_match_strength score = lit "good" ∧ (70 <= score)%Q ∧ (score < 85)%Q)
  ∨ (_categorize_match_strength score = lit "fair" ∧ (50 <= score)%Q ∧ (score < 70)%Q)
  ∨ (_categorize_match_strength score = lit "poor" ∧ (score < 50)%Q).
Proof.
  unfold _categorize_match_strength.
  destruct (Qle_bool_spec 85 score) as [H1|H1]; [left; split; [reflexivity|exact H1]|].
  destruct (Qle_bool_spec 70 score) as [H2|H2].
  { right; left. split; [reflexivity|]. split; [exact H2|lra]. }
  destruct (Qle_bool_spec 50 score) as [H3|H3].
  { right; right; left. split; [reflexivity|]. split; [exact H3|lra]. }
  right; right; right. split; [reflexivity|lra].
Qed.

Lemma match_strength_brackets (f : Q) :
  ((_categorize_match_strength f = lit "excellent" ∧ (85 <= round1 f)%Q)
   ∨ (_categorize_match_strength f = lit "good"
      ∧ (70 <= round1 f)%Q ∧ (round1 f <= 85)%Q)
   ∨ (_categorize_match_strength f = lit "fair"
      ∧ (50 <= round1 f)%Q ∧ (round1 f <= 70)%Q)
   ∨ (_categorize_match_strength f = lit "poor" ∧ (round1 f <= 50)%Q))
  ∧ ((round1 f < 40)%Q → _categorize_match_strength f = lit "poor").
Proof.
  destruct (categorize_match_strength_cases f)
    as [[-> H]|[(-> & H1 & H2)|[(-> & H1 & H2)|[-> H]]]].
  - split; [left; split; [reflexivity|round1_bound 850%Z]|].
    intros Hlt. exfalso. destruct (round1_bounds f) as [Hlo _]. lra.
  - split; [right; left; split; [reflexivity|split; [round1_bound 700%Z|round1_bound 850%Z]]|].
    intros Hlt. exfalso. destruct (round1_bounds f) as [Hlo _]. lra.
  - split; [right; right; left;
            split; [reflexivity|split; [round1_bound 500%Z|round1_bound 700%Z]]|].
    intros Hlt. exfalso. destruct (round1_bounds f) as [Hlo _]. lra.
  - split; [right; right; right; split; [reflexivity|round1_bound 500%Z]|].
    intros _. reflexivity.
Qed.


Lemma round_half_even_comp (q q' : Q) :
  (q == q')%Q → round_half_even q = round_half_even q'.
Proof.
  intros H. unfold round_half_even.
  rewrite (Qfloor_comp q q' H).
  assert (E : (q - inject_Z (Qfloor q') ?= 1 # 2)%Q = (q' - inject_Z (Qfloor q') ?= 1 # 2)%Q)
    by (rewrite H; reflexivity).
  rewrite E. reflexivity.
Qed.

Lemma round_half_even_lt (n : Z) (q : Q) :
  (q < inject_Z n + (1 # 2))%Q → (round_half_even q ≤ n)%Z.
Proof.
  intros H. destruct (round_half_even_bounds q) as [_ Hu].
  assert (Hlt : (inject_Z (round_half_even q) < inject_Z (n + 1))%Q).
  { rewrite inject_Z_plus. change (inject_Z 1) with 1%Q. lra. }
  rewrite <- Zlt_Qlt in Hlt. lia.
Qed.

Lemma round1_ratio_full (k n : nat) :
  k ≤ n → 0 < n → n < 2000 →
  let ratio := (inject_Z (Z.of_nat k) / inject_Z (Z.of_nat n) * 100)%Q in
  (round1 ratio == 100)%Q ↔ k = n.
Proof.
  intros Hkn Hn Hlim ratio.
  assert (Hnq : (0 < inject_Z (Z.of_nat n))%Q).
  { change 0%Q with (inject_Z 0). rewrite <- Zlt_Qlt. lia. }
  split.
  - intros Hr. destruct (decide (k = n)) as [|Hne]; [assumption|exfalso].
    assert (Hk : (inject_Z (Z.of_nat k) <= inject_Z (Z.of_nat n) - 1)%Q).
    { assert (Hk0 : (Z.of_nat k ≤ Z.of_nat n + - (1))%Z) by lia.
      rewrite Zle_Qle in Hk0. rewrite inject_Z_plus, inject_Z_opp in Hk0.
      change (inject_Z 1) with 1%Q in Hk0. lra. }
    assert (Hn' : (inject_Z (Z.of_nat n) < 2000)%Q).
    { change 2000%Q with (inject_Z 2000). rewrite <- Zlt_Qlt. lia. }
    assert (Hq : (ratio * 10 < inject_Z 999 + (1 # 2))%Q).
    { subst ratio. unfold inject_Z at 3.
      set (a := inject_Z (Z.of_nat k)) in *. set (b := inject_Z (Z.of_nat n)) in *.
      assert (Hdiv : (a * 1000 / b < 999 + (1 # 2))%Q)
        by (apply Qlt_shift_div_r; [exact Hnq|lra]).
      revert Hdiv. unfold Qdiv. intros Hdiv.
      assert (E : (a * / b * 100 * 10 == a * 1000 * / b)%Q) by ring.
      rewrite E. exact Hdiv. }
    apply round_half_even_lt in Hq.
    unfold round1 in Hr. fold ratio in Hr.
    assert (Hc : (inject_Z (round_half_even (ratio * 10)) <= 999)%Q).
    { change 999%Q with (inject_Z 999). rewrite <- Zle_Qle. exact Hq. }
    revert Hr. unfold Qdiv. change (/ 10)%Q with (1 # 10)%Q. intros Hr. lra.
  - intros ->.
    assert (Hone : (ratio == 100)%Q).
    { subst ratio. field. lra. }
    apply Qle_antisym.
    + eapply Qle_trans; [apply (round1_le 1000)|discriminate].
      rewrite Hone. discriminate.
    + eapply Qle_trans; [|apply (round1_ge 1000)]; [discriminate|].
      rewrite Hone. discriminate.
Qed.

Lemma overlap_round_full (X Y : gset str) (q : Q) :
  size Y < 2000 →
  overlap_score (X ∩ Y) Y 100 = Ok q →
  ((round1 q == 100)%Q ↔ Y ∖ X = ∅).
Proof.
  intros Hlim Hq.
  destruct (overlap_score_ok (X ∩ Y) Y 100) as (q' & Hq' & He & Hn).
  rewrite Hq in Hq'. injection Hq' as <-.
  destruct (decide (Y = ∅)) as [->|Hne].
  - rewrite He by reflexivity. split; [intros _; set_solver|intros _; reflexivity].
  - assert (HY : size Y ≠ 0) by (intros H0; apply Hne, leibniz_equiv, size_empty_iff, H0).
    assert (Hsub : X ∩ Y ⊆ Y) by set_solver.
    pose proof (subseteq_size _ _ Hsub) as Hle.
    pose proof (round1_ratio_full (size (X ∩ Y)) (size Y) Hle ltac:(lia) Hlim) as Hr.
    cbv zeta in Hr.
    assert (Hrq : (round1 q == 100)%Q ↔ size (X ∩ Y) = size Y).
    { rewrite <- Hr. unfold round1.
      assert (E : round_half_even (q * 10)
                  = round_half_even
                      (inject_Z (Z.of_nat (size (X ∩ Y))) / inject_Z (Z.of_nat (size Y))
                       * 100 * 10)).
      { apply round_half_even_comp. rewrite (Hn Hne). reflexivity. }
      rewrite E. reflexivity. }
    rewrite Hrq. split.
    + intros Hs. apply set_eq. intros x. split; [|set_solver].
      intros Hx. exfalso.
      assert (Hlt : X ∩ Y ⊂ Y).
      { split; [exact Hsub|]. intros Hc. set_solver. }
      apply subset_size in Hlt. lia.
    + intros Hd. f_equal. apply set_eq. intros x. split; [set_solver|].
      intros Hx. destruct (decide (x ∈ X)); [set_solver|]. exfalso. set_solver.
Qed.




(** ** The education score *)

Lemma education_rank_range (edu : option str) : (0 ≤ education_rank edu ≤ 4)%Z.
Proof.
  destruct edu as [e|]; simpl; [|lia].
  unfold education_levels. simpl.
  repeat case_bool_decide; simpl; lia.
Qed.

Lemma education_rank_falsy (edu : option str) :
  truthy_opt edu = false → education_rank edu = 0%Z.
Proof.
  destruct edu as [[|c e]|]; [reflexivity|discriminate|reflexivity].
Qed.

(** The education score by levels. With the levels associates 1,
    bachelors 2, masters 3, phd 4 and 0 for no degree or a name the table
    does not list, the score depends on the levels alone: 100 when the
    resume's level reaches the required one (always so when nothing, or
    nothing the table lists, is required), 75 one level short, 50 two
    levels short, 25 beyond. A resume of a higher level never scores
    less. *)
Theorem education_score_by_levels (resume_edu better_edu required_edu : option str) :
  let short := (education_rank required_edu - education_rank resume_edu)%Z in
  let score := _calculate_education_score resume_edu required_edu in
  (0 ≤ education_rank resume_edu ≤ 4)%Z
  ∧ ((short ≤ 0)%Z → score = 100%Q)
  ∧ (short = 1%Z → score = 75%Q)
  ∧ (short = 2%Z → score = 50%Q)
  ∧ ((3 ≤ short)%Z → score = 25%Q)
  ∧ ((education_rank resume_edu ≤ education_rank better_edu)%Z →
     (score <= _calculate_education_score better_edu required_edu)%Q).
Proof.
  intros short score. subst short score.
  split; [apply education_rank_range|].
  unfold _calculate_education_score.
  destruct (truthy_opt required_edu) eqn:Et; cbn [negb].
  - split_and!; intros H.
    + destruct (Z.leb_spec (education_rank required_edu) (education_rank resume_edu));
        [reflexivity|lia].
    + destruct (Z.leb_spec (education_rank required_edu) (education_rank resume_edu));
        [lia|].
      destruct (Z.eqb_spec (education_rank resume_edu) (education_rank required_edu - 1));
        [reflexivity|lia].
    + destruct (Z.leb_spec (education_rank required_edu) (education_rank resume_edu));
        [lia|].
      destruct (Z.eqb_spec (education_rank resume_edu) (education_rank required_edu - 1));
        [lia|].
      destruct (Z.eqb_spec (education_rank resume_edu) (education_rank required_edu - 2));
        [reflexivity|lia].
    + destruct (Z.leb_spec (education_rank required_edu) (education_rank resume_edu));
        [lia|].
      destruct (Z.eqb_spec (education_rank resume_edu) (education_rank required_edu - 1));
        [lia|].
      destruct (Z.eqb_spec (education_rank resume_edu) (education_rank required_edu - 2));
        [lia|reflexivity].
    + destruct (Z.leb_spec (education_rank required_edu) (education_rank resume_edu)),
        (Z.leb_spec (education_rank required_edu) (education_rank better_edu)),
        (Z.eqb_spec (education_rank resume_edu) (education_rank required_edu - 1)),
        (Z.eqb_spec (education_rank better_edu) (education_rank required_edu - 1)),
        (Z.eqb_spec (education_rank resume_edu) (education_rank required_edu - 2)),
        (Z.eqb_spec (education_rank better_edu) (education_rank required_edu - 2));
        try lia; discriminate.
  - pose proof (education_rank_falsy _ Et) as H0.
    pose proof (education_rank_range resume_edu) as Hr.
    split_and!; intros H; try reflexivity; try lia. discriminate.
Qed.

(** ** The suggestions for a result of the scorer *)

Lemma append_if_step (c : bool) (msg : str) (s : list str) :
  s `prefix_of` append_if c msg s ∧ length (append_if c msg s) ≤ length s + 1.
Proof.
  unfold append_if. destruct c.
  - split; [apply prefix_app_r; reflexivity|rewrite length_app; simpl; lia].
  - split; [reflexivity|lia].
Qed.

Lemma snoc_step (msg : str) (s : list str) :
  s `prefix_of` s ++ [msg] ∧ length (s ++ [msg]) ≤ length s + 1.
Proof. split; [apply prefix_app_r; reflexivity|rewrite length_app; simpl; lia]. Qed.

Lemma keep_step (s : list str) : s `prefix_of` s ∧ length s ≤ length s + 1.
Proof. split; [reflexivity|lia]. Qed.

(** The conditional messages of a result in which the experience gap
    and surplus are not both positive: at most 9, the critical message
    first when it is there. *)
Lemma conditional_suggestions_shape (m : Match.t) (r : Resume.t) (j : Job.t) :
  (Match.experience_gap m = 0 ∨ Match.experience_surplus m = 0)%Z →
  append_if (Qlt_bool (Match.overall_score m) 40) msg_critical []
    `prefix_of` conditional_suggestions m r j
  ∧ length (conditional_suggestions m r j) ≤ 9.
Proof.
  intros Hgs. unfold conditional_suggestions. cbv zeta.
  set (s1 := append_if (Qlt_bool (Match.overall_score m) 40) msg_critical []).
  assert (H1 : length s1 ≤ 1).
  { subst s1. destruct (append_if_step (Qlt_bool (Match.overall_score m) 40) msg_critical [])
      as [_ H]. exact H. }
  clearbody s1.
  set (s2 := if truthy (Match.missing_technical_skills m) then _ else s1).
  assert (H2 : s1 `prefix_of` s2 ∧ length s2 ≤ length s1 + 1).
  { subst s2. destruct (truthy _); [destruct (3 <? _)|];
      first [apply snoc_step|apply keep_step]. }
  clearbody s2.
  set (s3 := if (2 <? Match.experience_gap m)%Z then _ else _).
  set (s4 := append_if (5 <? Match.experience_surplus m)%Z msg_overqualified s3).
  assert (H4 : s2 `prefix_of` s4 ∧ length s4 ≤ length s2 + 1).
  { subst s4 s3. destruct Hgs as [-> | ->].
    - simpl. apply append_if_step.
    - simpl. destruct (2 <? _)%Z; [|destruct (0 <? _)%Z];
        first [apply snoc_step|apply keep_step]. }
  clearbody s4. clear s3.
  set (s5 := append_if (truthy (Match.missing_soft_skills m) && _) _ s4).
  assert (H5 : s4 `prefix_of` s5 ∧ length s5 ≤ length s4 + 1)
    by (subst s5; apply append_if_step).
  clearbody s5.
  set (s6 := append_if _ msg_ats s5).
  assert (H6 : s5 `prefix_of` s6 ∧ length s6 ≤ length s5 + 1)
    by (subst s6; apply append_if_step).
  clearbody s6.
  set (s7 := append_if _ msg_quality s6).
  assert (H7 : s6 `prefix_of` s7 ∧ length s7 ≤ length s6 + 1)
    by (subst s7; apply append_if_step).
  clearbody s7.
  set (s8 := append_if _ msg_keywords s7).
  assert (H8 : s7 `prefix_of` s8 ∧ length s8 ≤ length s7 + 1)
    by (subst s8; apply append_if_step).
  clearbody s8.
  set (s9 := if Qlt_bool (Match.industry_score m) 70 then _ else s8).
  assert (H9 : s8 `prefix_of` s9 ∧ length s9 ≤ length s8 + 1).
  { subst s9. destruct (Qlt_bool (Match.industry_score m) 70);
      [apply append_if_step|apply keep_step]. }
  clearbody s9.
  set (s10 := if Qlt_bool (Match.education_score m) 80 then _ else s9).
  assert (H10 : s9 `prefix_of` s10 ∧ length s10 ≤ length s9 + 1).
  { subst s10. destruct (Qlt_bool (Match.education_score m) 80); [|apply keep_step].
    destruct (Job.education_required j); [apply append_if_step|apply keep_step]. }
  clearbody s10.
  split; [|lia].
  repeat (etransitivity; [|apply H10 || apply H9 || apply H8 || apply H7 || apply H6
                            || apply H5 || apply H4 || apply H2]).
  reflexivity.
Qed.


(** ** The industry of a text *)

Lemma foldl_first_max {A} (key : A → Z) (l b a : list A) (x : A) :
  Forall (λ y, (key y < key x)%Z) b → Forall (λ y, (key y ≤ key x)%Z) a →
  ∃ b' x' a',
    b ++ x :: a ++ l = b' ++ x' :: a'
    ∧ foldl (λ best y, if (key best <? key y)%Z then y else best) x l = x'
    ∧ Forall (λ y, (key y < key x')%Z) b' ∧ Forall (λ y, (key y ≤ key x')%Z) a'.
Proof.
  revert b a x. induction l as [|y l IH]; intros b a x Hb Ha.
  - exists b, x, a. rewrite app_nil_r. repeat split; assumption.
  - simpl. destruct (Z.ltb_spec (key x) (key y)) as [Hlt|Hge].
    + destruct (IH (b ++ x :: a) [] y) as (b' & x' & a' & He & Hf & Hb' & Ha').
      * apply Forall_app. split.
        -- eapply Forall_impl; [exact Hb|]. simpl. intros z Hz. lia.
        -- constructor; [exact Hlt|].
           eapply Forall_impl; [exact Ha|]. simpl. intros z Hz. lia.
      * constructor.
      * exists b', x', a'. split; [|repeat split; assumption].
        rewrite <- He. rewrite <- !app_assoc. reflexivity.
    + destruct (IH b (a ++ [y]) x) as (b' & x' & a' & He & Hf & Hb' & Ha').
      * exact Hb.
      * apply Forall_app. split; [exact Ha|]. constructor; [exact Hge|constructor].
      * exists b', x', a'. split; [|repeat split; assumption].
        rewrite <- He. rewrite <- !app_assoc. reflexivity.
Qed.

Lemma py_max_by_first {A} (key : A → Z) (l : list A) :
  l ≠ [] →
  ∃ b x a,
    l = b ++ x :: a ∧ py_max_by key l = Ok x
    ∧ Forall (λ y, (key y < key x)%Z) b ∧ Forall (λ y, (key y ≤ key x)%Z) a.
Proof.
  destruct l as [|x l]; [contradiction|]. intros _.
  destruct (foldl_first_max key l [] [] x) as (b' & x' & a' & He & Hf & Hb & Ha);
    [constructor|constructor|].
  exists b', x', a'. simpl in He. split; [exact He|]. split; [|split; assumption].
  simpl. f_equal. exact Hf.
Qed.

Lemma omap_split {A B} (f : A → option B) (L : list A) (b a : list B) (x : B) :
  omap f L = b ++ x :: a →
  ∃ L1 X L2, L = L1 ++ X :: L2 ∧ omap f L1 = b ∧ f X = Some x ∧ omap f L2 = a.
Proof.
  revert b. induction L as [|e L IH]; intros b H.
  - destruct b; discriminate.
  - simpl in H. destruct (f e) as [y|] eqn:Ef.
    + destruct b as [|y' b].
      * simpl in H. injection H as -> Ha.
        exists [], e, L. repeat split; assumption.
      * simpl in H. injection H as -> Hr.
        destruct (IH b Hr) as (L1 & X & L2 & -> & H1 & HX & H2).
        exists (e :: L1), X, L2. split; [reflexivity|]. split; [|split; assumption].
        change (omap f (e :: L1))
          with (match f e with Some y => y :: omap f L1 | None => omap f L1 end).
        rewrite Ef, H1. reflexivity.
    + destruct (IH b H) as (L1 & X & L2 & -> & H1 & HX & H2).
      exists (e :: L1), X, L2. split; [reflexivity|]. split; [|split; assumption].
      change (omap f (e :: L1))
        with (match f e with Some y => y :: omap f L1 | None => omap f L1 end).
      rewrite Ef. exact H1.
Qed.

Lemma keyword_hits_nonneg (text : str) (keywords : list str) :
  (0 ≤ keyword_hits text keywords)%Z.
Proof. apply count_if_bounds. Qed.

Lemma detect_industry_spec (text : str) :
  ∃ industry,
    _detect_industry text = Ok industry
    ∧ industry ∈ known_industries
    ∧ industry ≠ []
    ∧ ((∃ entry, entry ∈ industry_skills ∧ (0 < keyword_hits text (snd entry))%Z) →
       ∃ before keywords after,
         industry_skills = before ++ (industry, keywords) :: after
         ∧ (0 < keyword_hits text keywords)%Z
         ∧ Forall (λ entry, (keyword_hits text (snd entry) < keyword_hits text keywords)%Z)
             before
         ∧ Forall (λ entry, (keyword_hits text (snd entry) ≤ keyword_hits text keywords)%Z)
             after)
    ∧ ((∀ entry, entry ∈ industry_skills → keyword_hits text (snd entry) = 0%Z) →
       industry ∈ lit <$> ["technology"; "finance"; "healthcare"; "general"]%string
       ∧ (industry = lit "general" ↔ any_in fallback_words text = false)).
Proof.
  unfold _detect_industry.
  set (g := (λ '(industry, keywords),
               let score := count_if (λ keyword : str, contains keyword text) keywords in
               if (0 <? score)%Z then Some (industry, score) else None)
            : str * list str → option (str * Z)).
  assert (Hg : ∀ e y, g e = Some y →
                      y = (fst e, keyword_hits text (snd e))
                      ∧ (0 < keyword_hits text (snd e))%Z).
  { intros [i k] y. unfold g, keyword_hits. simpl.
    destruct (Z.ltb_spec 0 (count_if (λ keyword : str, contains keyword text) k));
      [|discriminate].
    intros [= <-]. split; [reflexivity|assumption]. }
  assert (Hg0 : ∀ e, g e = None → keyword_hits text (snd e) = 0%Z).
  { intros [i k]. unfold g, keyword_hits. simpl.
    pose proof (count_if_bounds (λ keyword : str, contains keyword text) k) as Hb.
    destruct (Z.ltb_spec 0 (count_if (λ keyword : str, contains keyword text) k));
      [discriminate|]. intros _. lia. }
  destruct (omap g industry_skills) as [|s0 scores] eqn:Eo.
  - (* no keyword of any industry occurs *)
    assert (Hnone : ∀ e, e ∈ industry_skills → keyword_hits text (snd e) = 0%Z).
    { intros e He. apply Hg0. destruct (g e) as [y|] eqn:Ey; [|reflexivity].
      assert (Hin : y ∈ omap g industry_skills)
        by (apply list_elem_of_omap; exists e; split; assumption).
      rewrite Eo in Hin. apply elem_of_nil in Hin. contradiction. }
    cbn [truthy].
    assert (Hfb : any_in fallback_words text
                  = any_in ["software"; "developer"; "engineer"; "programming"] text
                    || any_in ["finance"; "banking"; "investment"] text
                    || any_in ["healthcare"; "medical"; "hospital"] text).
    { change fallback_words
        with (app ["software"; "developer"; "engineer"; "programming"]%string
                (app ["finance"; "banking"; "investment"]%string
                   ["healthcare"; "medical"; "hospital"]%string)).
      unfold any_in. rewrite !existsb_app, orb_assoc. reflexivity. }
    rewrite Hfb.
    destruct (any_in ["software"; "developer"; "engineer"; "programming"] text);
      [|destruct (any_in ["finance"; "banking"; "investment"] text);
        [|destruct (any_in ["healthcare"; "medical"; "hospital"] text)]];
      (eexists; split; [reflexivity|]; split; [apply (bool_decide_unpack _); vm_compute; reflexivity|];
       split; [discriminate|]; split;
       [intros (e & He & Hpos); rewrite (Hnone e He) in Hpos; lia|];
       intros _; split; [apply (bool_decide_unpack _); vm_compute; reflexivity|];
       split; [try discriminate; reflexivity|try discriminate; reflexivity]).
  - cbn [truthy].
    destruct (py_max_by_first snd (s0 :: scores)) as (b & x & a & Hl & Hm & Hb & Ha);
      [discriminate|].
    rewrite Hm, bind_Ok. rewrite <- Eo in Hl.
    destruct (omap_split g industry_skills b a x Hl) as (L1 & X & L2 & HL & H1 & HX & H2).
    destruct (Hg X x HX) as [-> Hpos]. cbn [fst snd] in *.
    assert (HXin : X ∈ industry_skills) by (rewrite HL; apply elem_of_app; right; left).
    exists (fst X). split; [reflexivity|].
    assert (Hk : fst X ∈ known_industries).
    { unfold known_industries. apply elem_of_app. left.
      apply list_elem_of_fmap. exists X. split; [reflexivity|exact HXin]. }
    split; [exact Hk|]. split.
    { revert Hk. generalize (fst X). intros i Hi ->.
      revert Hi. apply (bool_decide_unpack _). vm_compute. reflexivity. }
    split.
    + intros _. exists L1, (snd X), L2. split; [rewrite HL; destruct X; reflexivity|].
      split; [exact Hpos|]. split.
      * apply Forall_forall. intros e He.
        destruct (g e) as [y|] eqn:Ey.
        -- destruct (Hg e y Ey) as [-> _].
           assert (Hy : (fst e, keyword_hits text (snd e)) ∈ b).
           { rewrite <- H1. apply list_elem_of_omap. exists e. split; assumption. }
           rewrite Forall_forall in Hb. specialize (Hb _ Hy). exact Hb.
        -- rewrite (Hg0 e Ey). exact Hpos.
      * apply Forall_forall. intros e He.
        destruct (g e) as [y|] eqn:Ey.
        -- destruct (Hg e y Ey) as [-> _].
           assert (Hy : (fst e, keyword_hits text (snd e)) ∈ a).
           { rewrite <- H2. apply list_elem_of_omap. exists e. split; assumption. }
           rewrite Forall_forall in Ha. specialize (Ha _ Hy). exact Ha.
        -- rewrite (Hg0 e Ey). lia.
    + intros Hnone. specialize (Hnone X HXin). lia.
Qed.

(** The industry of a text. [_detect_industry] returns a name for
    every text, one of ten known names and never an empty one. When a
    keyword of some industry occurs in the text, it returns the industry
    with the most keywords occurring, the first such in the order of the
    table; the words of the fallback are not looked at. When no keyword
    occurs, it returns technology, finance, healthcare or general, and
    general exactly when none of the ten words of the fallback occurs. *)
Theorem detect_industry_choice (text : str) :
  ∃ industry,
    _detect_industry text = Ok industry
    ∧ industry ∈ known_industries
    ∧ industry ≠ []
    ∧ ((∃ entry, entry ∈ industry_skills ∧ (0 < keyword_hits text (snd entry))%Z) →
       ∃ before keywords after,
         industry_skills = before ++ (industry, keywords) :: after
         ∧ (0 < keyword_hits text keywords)%Z
         ∧ Forall (λ entry, (keyword_hits text (snd entry) < keyword_hits text keywords)%Z)
             before
         ∧ Forall (λ entry, (keyword_hits text (snd entry) ≤ keyword_hits text keywords)%Z)
             after)
    ∧ ((∀ entry, entry ∈ industry_skills → keyword_hits text (snd entry) = 0%Z) →
       industry ∈ lit <$> ["technology"; "finance"; "healthcare"; "general"]%string
       ∧ (industry = lit "general" ↔ any_in fallback_words text = false)).
Proof. apply detect_industry_spec. Qed.

(** ** What the entry points return *)

Lemma Ok_inj {A} (a b : A) : Ok a = Ok b → a = b.
Proof. intros H. congruence. Qed.

Lemma analyze_resume_inv (U : Unicode) (text : str) (facts : Resume.t) :
  analyze_resume U text = Ok facts →
  50 ≤ length (strip text)
  ∧ ∃ years contact industry ats,
      _analyze_experience U (lower U text) = Ok (years, _categorize_experience_level years)
      ∧ _analyze_contact_info U text = Ok contact
      ∧ _detect_industry (lower U text) = Ok industry
      ∧ _calculate_ats_compatibility U text = Ok ats
      ∧ facts = {|
          Resume.word_count := len (split_ws text);
          Resume.character_count := len text;
          Resume.line_count :=
            count_if (λ line, truthy (strip line)) (split_on [10%N] text);
          Resume.paragraph_count :=
            count_if (λ p, truthy (strip p)) (split_on [10%N; 10%N] text);
          Resume.technical_skills := fst (_analyze_skills U (lower U text));
          Resume.soft_skills := snd (_analyze_skills U (lower U text));
          Resume.experience_years := years;
          Resume.experience_level := _categorize_experience_level years;
          Resume.education_level := fst (_analyze_education U (lower U text));
          Resume.education_score := snd (_analyze_education U (lower U text));
          Resume.contact_info := contact;
          Resume.quality_metrics := _analyze_content_quality U text;
          Resume.keywords := _extract_advanced_keywords U text;
          Resume.detected_industry := industry;
          Resume.ats_compatibility_score := ats |}.
Proof.
  intros H. unfold analyze_resume in H.
  destruct (negb (truthy text) || (length (strip text) <? 50)) eqn:Eg; [discriminate|].
  assert (Hge : 50 ≤ length (strip text)).
  { destruct (Nat.ltb_spec (length (strip text)) 50) as [Hlt|Hge]; [|exact Hge].
    rewrite orb_true_r in Eg. discriminate. }
  split; [exact Hge|].
  destruct (analyze_experience_spec U (lower U text)) as (y & Hy & _).
  destruct (is_ok_contact_info U text) as [c Hc].
  destruct (is_ok_detect_industry (lower U text)) as [i Hi].
  destruct (is_ok_ats U text) as [a Ha].
  rewrite Hy, bind_Ok, Hc, bind_Ok, Hi, bind_Ok, Ha, bind_Ok in H.
  exists y, c, i, a. split; [exact Hy|]. split; [exact Hc|]. split; [exact Hi|].
  split; [exact Ha|]. apply Ok_inj in H. symmetry. exact H.
Qed.

Lemma analyze_job_description_inv (U : Unicode) (text : str) (facts : Job.t) :
  analyze_job_description U text = Ok facts →
  50 ≤ length (strip text)
  ∧ ∃ required industry complexity,
      _extract_required_experience U (lower U text) = Ok required
      ∧ _detect_industry (lower U text) = Ok industry
      ∧ _calculate_job_complexity U text = Ok complexity
      ∧ facts = {|
          Job.technical_skills := fst (_analyze_skills U (lower U text));
          Job.soft_skills := snd (_analyze_skills U (lower U text));
          Job.experience_required := required;
          Job.job_level := _determine_job_level (lower U text);
          Job.education_required := _extract_education_requirements U (lower U text);
          Job.remote_friendly :=
            any_in ["remote"; "work from home"; "distributed"; "telecommute"]
              (lower U text);
          Job.company_size := fst (_analyze_company_info U text);
          Job.is_remote_friendly := snd (_analyze_company_info U text);
          Job.urgent_hire := fst (_analyze_job_urgency (lower U text));
          Job.competitive_position := snd (_analyze_job_urgency (lower U text));
          Job.keywords := _extract_advanced_keywords U text;
          Job.industry := industry;
          Job.job_complexity_score := complexity |}.
Proof.
  intros H. unfold analyze_job_description in H.
  destruct (negb (truthy text) || (length (strip text) <? 50)) eqn:Eg; [discriminate|].
  assert (Hge : 50 ≤ length (strip text)).
  { destruct (Nat.ltb_spec (length (strip text)) 50) as [Hlt|Hge]; [|exact Hge].
    rewrite orb_true_r in Eg. discriminate. }
  split; [exact Hge|].
  unfold _analyze_job_requirements in H.
  destruct (required_experience_spec U (lower U text)) as (y & Hy & _).
  destruct (is_ok_detect_industry (lower U text)) as [i Hi].
  destruct (is_ok_job_complexity U text) as [a Ha].
  rewrite Hy, !bind_Ok, Hi, bind_Ok, Ha, bind_Ok in H.
  exists y, i, a. split; [exact Hy|]. split; [exact Hi|]. split; [exact Ha|].
  apply Ok_inj in H. symmetry. exact H.
Qed.

Lemma analyze_resume_fields (U : Unicode) (text : str) :
  50 ≤ length (strip text) →
  ∃ facts years contact industry ats,
    analyze_resume U text = Ok facts
    ∧ _analyze_experience U (lower U text) = Ok (years, _categorize_experience_level years)
    ∧ _analyze_contact_info U text = Ok contact
    ∧ _detect_industry (lower U text) = Ok industry
    ∧ _calculate_ats_compatibility U text = Ok ats
    ∧ Resume.word_count facts = len (split_ws text)
    ∧ Resume.character_count facts = len text
    ∧ Resume.technical_skills facts = fst (_analyze_skills U (lower U text))
    ∧ Resume.soft_skills facts = snd (_analyze_skills U (lower U text))
    ∧ Resume.experience_years facts = years
    ∧ Resume.experience_level facts = _categorize_experience_level years
    ∧ Resume.education_level facts = fst (_analyze_education U (lower U text))
    ∧ Resume.education_score facts = snd (_analyze_education U (lower U text))
    ∧ Resume.contact_info facts = contact
    ∧ Resume.quality_metrics facts = _analyze_content_quality U text
    ∧ Resume.keywords facts = _extract_advanced_keywords U text
    ∧ Resume.detected_industry facts = industry
    ∧ Resume.ats_compatibility_score facts = ats.
Proof.
  intros Hge. destruct (analyze_resume_ok U text Hge) as (facts & Hf & _).
  destruct (analyze_resume_inv U text facts Hf)
    as (_ & y & c & i & a & Hy & Hc & Hi & Ha & Hfacts).
  exists facts, y, c, i, a. split; [exact Hf|].
  split; [exact Hy|]. split; [exact Hc|]. split; [exact Hi|]. split; [exact Ha|].
  rewrite Hfacts. repeat split.
Qed.

Lemma analyze_job_description_fields (U : Unicode) (text : str) :
  50 ≤ length (strip text) →
  ∃ facts required industry complexity,
    analyze_job_description U text = Ok facts
    ∧ _extract_required_experience U (lower U text) = Ok required
    ∧ _detect_industry (lower U text) = Ok industry
    ∧ _calculate_job_complexity U text = Ok complexity
    ∧ Job.technical_skills facts = fst (_analyze_skills U (lower U text))
    ∧ Job.soft_skills facts = snd (_analyze_skills U (lower U text))
    ∧ Job.experience_required facts = required
    ∧ Job.job_level facts = _determine_job_level (lower U text)
    ∧ Job.education_required facts = _extract_education_requirements U (lower U text)
    ∧ Job.remote_friendly facts
      = any_in ["remote"; "work from home"; "distributed"; "telecommute"] (lower U text)
    ∧ Job.company_size facts = fst (_analyze_company_info U text)
    ∧ Job.is_remote_friendly facts = snd (_analyze_company_info U text)
    ∧ Job.urgent_hire facts = fst (_analyze_job_urgency (lower U text))
    ∧ Job.competitive_position facts = snd (_analyze_job_urgency (lower U text))
    ∧ Job.keywords facts = _extract_advanced_keywords U text
    ∧ Job.industry facts = industry
    ∧ Job.job_complexity_score facts = complexity.
Proof.
  intros Hge. destruct (analyze_job_description_ok U text Hge) as (facts & Hf & _).
  destruct (analyze_job_description_inv U text facts Hf)
    as (_ & y & i & a & Hy & Hi & Ha & Hfacts).
  exists facts, y, i, a. split; [exact Hf|].
  split; [exact Hy|]. split; [exact Hi|]. split; [exact Ha|].
  rewrite Hfacts. repeat split.
Qed.

(** ** Invariants of the facts *)

Lemma List_filter_sublist {A} (p : A → bool) (l : list A) :
  List.filter p l `sublist_of` l.
Proof.
  induction l as [|x l IH]; simpl; [constructor|].
  destruct (p x); [apply sublist_skip, IH|apply sublist_cons, IH].
Qed.

Lemma split_ws_aux_le (cur s : str) :
  length (split_ws_aux cur s) ≤ length cur + length s.
Proof.
  revert cur. induction s as [|c s IH]; intros cur; simpl.
  - destruct cur; simpl; lia.
  - destruct (isspace c).
    + destruct cur as [|a cur]; simpl.
      * specialize (IH []). simpl in IH. lia.
      * specialize (IH []). simpl in IH. lia.
    + specialize (IH (c :: cur)). simpl in IH. lia.
Qed.

Lemma split_ws_aux_pos (cur s : str) :
  cur ≠ [] ∨ lstrip s ≠ [] → 1 ≤ length (split_ws_aux cur s).
Proof.
  revert cur. induction s as [|c s IH]; intros cur H; simpl.
  - destruct H as [H|H]; [|contradiction]. destruct cur; [contradiction|simpl; lia].
  - simpl in H. destruct (isspace c).
    + destruct cur as [|a cur]; [|simpl; lia].
      apply IH. right. destruct H as [H|H]; [contradiction|exact H].
    + apply IH. left. discriminate.
Qed.

Lemma strip_nonempty (s : str) : strip s ≠ [] → lstrip s ≠ [].
Proof.
  unfold strip. intros H Hl. apply H. rewrite Hl. reflexivity.
Qed.

Lemma word_count_bounds (text : str) :
  0 < length (strip text) →
  (1 ≤ len (split_ws text) ≤ len text)%Z.
Proof.
  intros H. unfold len, split_ws.
  pose proof (split_ws_aux_le [] text) as Hle. simpl in Hle.
  assert (Hpos : 1 ≤ length (split_ws_aux [] text)).
  { apply split_ws_aux_pos. right. apply strip_nonempty.
    intros E. rewrite E in H. simpl in H. lia. }
  lia.
Qed.

Lemma counter_add_keys (w : str) (d : list (str * Z)) :
  NoDup (fst <$> d) →
  NoDup (fst <$> counter_add w d)
  ∧ ∀ k, k ∈ fst <$> counter_add w d ↔ k = w ∨ k ∈ fst <$> d.
Proof.
  induction d as [|[k n] d IH]; simpl; intros Hnd.
  - split; [repeat constructor; set_solver|]. intros k. set_solver.
  - apply NoDup_cons in Hnd as [Hk Hd]. case_bool_decide as E.
    + subst k. simpl. split; [constructor; assumption|]. intros k. set_solver.
    + destruct (IH Hd) as [IH1 IH2]. simpl. split.
      * constructor; [|exact IH1]. rewrite IH2. set_solver.
      * intros k'. rewrite !elem_of_cons, IH2. tauto.
Qed.

Lemma Counter_keys (words : list str) : NoDup (fst <$> Counter words).
Proof.
  unfold Counter.
  assert (H : ∀ d, NoDup (fst <$> d) →
                   NoDup (fst <$> foldl (λ d w, counter_add w d) d words)).
  { induction words as [|w words IH]; intros d Hd; simpl; [exact Hd|].
    apply IH. apply counter_add_keys, Hd. }
  apply H. constructor.
Qed.

Lemma keywords_bounded (U : Unicode) (text : str) :
  length (_extract_advanced_keywords U text) ≤ 20
  ∧ NoDup (_extract_advanced_keywords U text).
Proof.
  unfold _extract_advanced_keywords, most_common.
  set (c := Counter _). split.
  - rewrite length_fmap, length_take. lia.
  - rewrite fmap_take. apply (sublist_NoDup _ (fst <$> sorted_desc snd c));
      [|apply sublist_take].
    rewrite (sorted_desc_perm snd c). apply Counter_keys.
Qed.

Lemma contact_info_keys (U : Unicode) (text : str) (contact : list (str * found)) :
  _analyze_contact_info U text = Ok contact →
  fst <$> contact `sublist_of` contact_types.
Proof.
  unfold _analyze_contact_info, contact_types.
  change (fst <$> contact_patterns ascii_only) with (fst <$> contact_patterns U).
  assert (H : ∀ (ps : list (str * regex)) acc,
             for_each
               (λ contact_info '(contact_type, pattern),
                  let matches := re_findall U pattern text in
                  if truthy matches
                  then m ← first_item matches; mret (contact_info ++ [(contact_type, m)])
                  else mret contact_info) acc ps = Ok contact →
             ∃ new, contact = acc ++ new ∧ fst <$> new `sublist_of` fst <$> ps).
  { induction ps as [|[ty p] ps IH]; intros acc; cbn [for_each].
    - intros [= <-]. exists []. rewrite app_nil_r. split; [reflexivity|constructor].
    - destruct (re_findall U p text) as [|m ms]; cbn [truthy first_item].
      + rewrite bind_Ok. intros Hr. destruct (IH acc Hr) as (new & -> & Hs).
        exists new. split; [reflexivity|]. rewrite fmap_cons. apply sublist_cons, Hs.
      + rewrite !bind_Ok. intros Hr. destruct (IH _ Hr) as (new & -> & Hs).
        exists ((ty, m) :: new). split; [rewrite <- app_assoc; reflexivity|].
        rewrite !fmap_cons. apply sublist_skip, Hs. }
  intros Hc. destruct (H _ _ Hc) as (new & -> & Hs). exact Hs.
Qed.

Lemma education_result (U : Unicode) (text : str) :
  _analyze_education U text ∈ education_results.
Proof.
  unfold _analyze_education, education_patterns. cbn [education_scan].
  repeat match goal with
         | |- context [if existsb ?f ?l then _ else _] => destruct (existsb f l)
         end;
    apply (bool_decide_unpack _); vm_compute; reflexivity.
Qed.

Lemma ats_value (U : Unicode) (text : str) :
  ∃ ats,
    _calculate_ats_compatibility U text = Ok ats
    ∧ (ats == 80 - (if existsb (λ c, negb (is_ascii c)) text then 10 else 0)
              - length_penalty (len (split_ws text))
              + 5 * inject_Z (count_if (λ section, contains section (lower U text))
                                standard_sections))%Q
    ∧ (55 <= ats)%Q ∧ (ats <= 100)%Q.
Proof.
  unfold _calculate_ats_compatibility.
  rewrite truediv_ok by discriminate. rewrite bind_Ok.
  unfold non_ascii_pattern. rewrite re_search_char_class.
  set (f := count_if _ standard_sections).
  assert (Hf : (0 ≤ f ≤ 4)%Z) by apply count_if_bounds.
  assert (Hq : (0 <= inject_Z f)%Q ∧ (inject_Z f <= 4)%Q).
  { change 0%Q with (inject_Z 0). change 4%Q with (inject_Z 4).
    rewrite <- !Zle_Qle. exact Hf. }
  destruct Hq as [Hq0 Hq4].
  change (inject_Z (len standard_sections)) with 4%Q.
  eexists. split; [reflexivity|]. unfold length_penalty. rewrite !Qdiv_4.
  destruct (existsb _ text), (len (split_ws text) <? 300)%Z,
    (800 <? len (split_ws text))%Z;
    (assert (Hm : ∀ x : Q, (0 <= x)%Q → (Qmax 0 x == x)%Q)
       by (intros x Hx; apply Q.max_r; exact Hx));
    (split; [rewrite Hm by lra; ring|split; [rewrite Hm by lra; lra|apply Q.max_lub; lra]]).
Qed.

Lemma job_level_known (text : str) : _determine_job_level text ∈ job_levels.
Proof.
  unfold _determine_job_level, job_level_patterns. cbn [job_level_scan].
  repeat match goal with
         | |- context [if existsb ?f ?l then _ else _] => destruct (existsb f l)
         end;
    apply (bool_decide_unpack _); vm_compute; reflexivity.
Qed.

Lemma company_size_known (U : Unicode) (text : str) :
  fst (_analyze_company_info U text) ∈ company_sizes.
Proof.
  unfold _analyze_company_info, size_indicators. cbn [fst company_size_scan].
  repeat match goal with
         | |- context [if any_in ?l ?t then _ else _] => destruct (any_in l t)
         end;
    apply (bool_decide_unpack _); vm_compute; reflexivity.
Qed.

Lemma education_requirement_known (U : Unicode) (text : str) :
  _extract_education_requirements U text
    ∈ [None; Some (lit "phd"); Some (lit "masters"); Some (lit "bachelors")].
Proof.
  unfold _extract_education_requirements.
  repeat match goal with
         | |- context [if re_search ?u ?r ?t then _ else _] => destruct (re_search u r t)
         end;
    apply (bool_decide_unpack _); vm_compute; reflexivity.
Qed.

Lemma remote_flags (U : Unicode) (text : str) :
  snd (_analyze_company_info U text) = true →
  any_in ["remote"; "work from home"; "distributed"; "telecommute"] (lower U text) = true.
Proof.
  unfold _analyze_company_info, any_in. cbn [snd existsb]. intros ->. reflexivity.
Qed.

Lemma job_complexity_value (U : Unicode) (text : str) :
  ∃ complexity,
    _calculate_job_complexity U text = Ok complexity
    ∧ (0 <= complexity)%Q ∧ (complexity <= 100)%Q
    ∧ (Qmin 100 (inject_Z (len (split_ws text)) / 5) <= complexity)%Q
    ∧ ((500 ≤ len (split_ws text))%Z → (complexity == 100)%Q).
Proof.
  unfold _calculate_job_complexity.
  rewrite truediv_ok by discriminate. rewrite bind_Ok.
  set (a := len (re_findall U _ (lower U text))).
  set (b := len (re_findall U (rword_alt [rlit "preferred"; _; _]) (lower U text))).
  set (c := len (re_findall U (rseq [RWordB; r_years; RWordB]) (lower U text))).
  set (w := len (split_ws text)).
  assert (Ha : (0 <= inject_Z a)%Q)
    by (change 0%Q with (inject_Z 0); rewrite <- Zle_Qle; unfold a, len; lia).
  assert (Hb : (0 <= inject_Z b)%Q)
    by (change 0%Q with (inject_Z 0); rewrite <- Zle_Qle; unfold b, len; lia).
  assert (Hc : (0 <= inject_Z c)%Q)
    by (change 0%Q with (inject_Z 0); rewrite <- Zle_Qle; unfold c, len; lia).
  assert (Hw : (0 <= inject_Z w)%Q)
    by (change 0%Q with (inject_Z 0); rewrite <- Zle_Qle; unfold w, len; lia).
  assert (E50 : (inject_Z w / 50 == inject_Z w * (1 # 50))%Q) by reflexivity.
  assert (E5 : (inject_Z w / 5 == inject_Z w * (1 # 5))%Q) by reflexivity.
  eexists. split; [reflexivity|]. rewrite E50, E5.
  set (x := ((inject_Z a + inject_Z b + inject_Z c + inject_Z w * (1 # 50)) * 10)%Q).
  assert (Hx : (inject_Z w * (1 # 5) <= x)%Q) by (subst x; lra).
  split_and!.
  - apply Q.min_glb; [discriminate|lra].
  - apply Q.le_min_l.
  - apply Q.min_glb.
    + apply Q.le_min_l.
    + eapply Qle_trans; [apply Q.le_min_r|exact Hx].
  - intros H500.
    assert (H5 : (500 <= inject_Z w)%Q)
      by (change 500%Q with (inject_Z 500); rewrite <- Zle_Qle; exact H500).
    apply Q.min_l. lra.
Qed.

Lemma round1_comp (q q' : Q) : (q == q')%Q → round1 q = round1 q'.
Proof.
  intros H. unfold round1. f_equal. f_equal. apply round_half_even_comp.
  rewrite H. reflexivity.
Qed.

Lemma round1_integer (n : Z) : (round1 (inject_Z n) == inject_Z n)%Q.
Proof.
  assert (E : (inject_Z n == inject_Z (n * 10) / 10)%Q).
  { rewrite inject_Z_mult. change (inject_Z 10) with 10%Q. field. }
  apply Qle_antisym.
  - rewrite E at 2. apply round1_le. rewrite inject_Z_mult. apply Qle_refl.
  - rewrite E at 1. apply round1_ge. rewrite inject_Z_mult. apply Qle_refl.
Qed.

Lemma content_quality_value (U : Unicode) (text : str) :
  let quality := _analyze_content_quality U text in
  let numbers := Quality.numbers_found quality in
  let verbs := Quality.action_verbs_found quality in
  (0 ≤ numbers)%Z ∧ (0 ≤ verbs ≤ 27)%Z
  ∧ Quality.quantification_score quality = (10 * (10 `min` numbers))%Z
  ∧ Quality.action_verb_score quality = (5 * (20 `min` verbs))%Z
  ∧ (Quality.overall_quality quality
     == inject_Z (6 * (10 `min` numbers) + 2 * (20 `min` verbs)))%Q.
Proof.
  intros quality numbers verbs. subst quality numbers verbs.
  unfold _analyze_content_quality.
  cbn [Quality.numbers_found Quality.action_verbs_found Quality.quantification_score
       Quality.action_verb_score Quality.overall_quality].
  set (n := len (re_findall U (quantity_pattern U) (lower U text))).
  set (v := count_if _ action_verbs).
  assert (Hn : (0 ≤ n)%Z) by (unfold n, len; lia).
  assert (Hv : (0 ≤ v ≤ 27)%Z) by apply (count_if_bounds _ action_verbs).
  split_and!; try lia.
  etransitivity; [|apply round1_integer].
  match goal with |- (round1 ?a == round1 ?b)%Q => rewrite (round1_comp a b); [reflexivity|] end.
  replace (100 `min` (n * 10))%Z with (10 * (10 `min` n))%Z by lia.
  replace (100 `min` (v * 5))%Z with (5 * (20 `min` v))%Z by lia.
  push_inject. change (inject_Z 10) with 10%Q. change (inject_Z 5) with 5%Q.
  change (inject_Z 6) with 6%Q. change (inject_Z 2) with 2%Q.
  change (6 # 10)%Q with (6 * (1 # 10))%Q. change (4 # 10)%Q with (4 * (1 # 10))%Q.
  ring.
Qed.

(** ** The industry score of analyzed texts *)

Lemma dict_get_Some {V} (d : list (str * V)) (k : str) (v : V) :
  NoDup (fst <$> d) → (dict_get d k = Some v ↔ (k, v) ∈ d).
Proof.
  induction d as [|[k' v'] d IH]; simpl; intros Hnd.
  - split; [discriminate|]. intros H. apply elem_of_nil in H. contradiction.
  - apply NoDup_cons in Hnd as [Hk Hd]. case_bool_decide as E.
    + subst k'. split.
      * intros [= ->]. left.
      * intros H. apply elem_of_cons in H as [[= ->]|H]; [reflexivity|].
        exfalso. apply Hk. apply list_elem_of_fmap. exists (k, v). split; [reflexivity|exact H].
    + rewrite (IH Hd). split.
      * intros H. right. exact H.
      * intros H. apply elem_of_cons in H as [[= -> ->]|H]; [contradiction|exact H].
Qed.

Lemma related_pairs_spec (a b : str) :
  (a, b) ∈ related_pairs ↔ b ∈ default [] (dict_get related_industries a).
Proof.
  assert (Hnd : NoDup (fst <$> related_industries))
    by (apply (bool_decide_unpack _); vm_compute; reflexivity).
  unfold related_pairs. rewrite list_elem_of_bind. split.
  - intros ([a' rel] & Hin & He).
    apply list_elem_of_bind in Hin as (b' & Hin & Hb).
    apply list_elem_of_singleton in Hin as [= -> ->].
    apply (dict_get_Some _ _ _ Hnd) in He. rewrite He. exact Hb.
  - destruct (dict_get related_industries a) as [rel|] eqn:E; simpl.
    + intros Hb. apply (dict_get_Some _ _ _ Hnd) in E.
      exists (a, rel). split; [|exact E].
      apply list_elem_of_bind. exists b. split; [left|exact Hb].
    + intros H. apply elem_of_nil in H. contradiction.
Qed.

Lemma industry_alignment_known (a b : str) :
  a ≠ [] → b ≠ [] →
  _calculate_industry_alignment a b
  = if bool_decide (a = b) then 100%Q
    else if bool_decide ((a, b) ∈ related_pairs) then 80%Q else 50%Q.
Proof.
  intros Ha Hb. unfold _calculate_industry_alignment.
  destruct a as [|x a]; [contradiction|]. destruct b as [|y b]; [contradiction|].
  cbn [truthy negb orb].
  case_bool_decide; [reflexivity|].
  rewrite (bool_decide_ext _ _ (related_pairs_spec (x :: a) (y :: b))). reflexivity.
Qed.

Lemma detect_industry_known (text : str) (industry : str) :
  _detect_industry text = Ok industry → industry ∈ known_industries ∧ industry ≠ [].
Proof.
  intros H. destruct (detect_industry_spec text) as (i & Hi & Hk & Hne & _).
  rewrite H in Hi. injection Hi as <-. split; assumption.
Qed.



(** ** The quality of the content and the complexity of a job *)

(** The content quality in closed form. With [n] the number of
    quantified tokens found and [v] the number of the 27 action verbs
    that occur in the lower-cased text, the quantification score is
    [10 * min(10, n)], the action-verb score is [5 * min(20, v)], and the
    overall quality, rounded to one decimal in the source, is the even
    integer [6 * min(10, n) + 2 * min(20, v)], between 0 and 100.
    Without a quantified token it is at most 40, under the 70 below
    which the suggestions ask for more quantified achievements. *)
Theorem content_quality_closed_form (U : Unicode) (text : str) :
  let quality := _analyze_content_quality U text in
  let numbers := Quality.numbers_found quality in
  let verbs := Quality.action_verbs_found quality in
  (0 ≤ numbers)%Z ∧ (0 ≤ verbs ≤ 27)%Z
  ∧ Quality.quantification_score quality = (10 * (10 `min` numbers))%Z
  ∧ Quality.action_verb_score quality = (5 * (20 `min` verbs))%Z
  ∧ (Quality.overall_quality quality
     == inject_Z (6 * (10 `min` numbers) + 2 * (20 `min` verbs)))%Q
  ∧ (0 <= Quality.overall_quality quality)%Q
  ∧ (Quality.overall_quality quality <= 100)%Q
  ∧ (numbers = 0%Z → (Quality.overall_quality quality <= 40)%Q).
Proof.
  intros quality numbers verbs.
  destruct (content_quality_value U text) as (Hn & Hv & Hq & Ha & Ho).
  fold quality in Hn, Hv, Hq, Ha, Ho. fold numbers in Hn, Hq, Ho. fold verbs in Hv, Ha, Ho.
  split; [exact Hn|]. split; [exact Hv|]. split; [exact Hq|]. split; [exact Ha|].
  split; [exact Ho|]. rewrite Ho.
  split_and!.
  - change 0%Q with (inject_Z 0). rewrite <- Zle_Qle. lia.
  - change 100%Q with (inject_Z 100). rewrite <- Zle_Qle. lia.
  - intros H0. change 40%Q with (inject_Z 40). rewrite <- Zle_Qle. lia.
Qed.

(** The complexity of a long posting. The job complexity score lies
    between 0 and 100 and is at least a fifth of the number of words,
    capped at 100: every posting of 500 words or more has the score 100,
    whatever it asks for. *)
Theorem job_complexity_of_long_postings (U : Unicode) (text : str) :
  ∃ complexity,
    _calculate_job_complexity U text = Ok complexity
    ∧ (0 <= complexity)%Q ∧ (complexity <= 100)%Q
    ∧ (Qmin 100 (inject_Z (len (split_ws text)) / 5) <= complexity)%Q
    ∧ ((500 ≤ len (split_ws text))%Z → (complexity == 100)%Q).
Proof. apply job_complexity_value. Qed.

(** ** The facts of a resume and of a job *)





(** ** The compatibility wrapper *)


(** The two match strengths. [get_match_strength] of the wrapper and
    [_categorize_match_strength] of the analyzer give the same name for
    every score of 50 or more; under 50 the wrapper says
    needs_improvement where the analyzer says poor. *)
Theorem wrapper_match_strength (score : Q) :
  ((50 <= score)%Q →
   SimpleAnalyzer.get_match_strength score = _categorize_match_strength score)
  ∧ ((score < 50)%Q →
     SimpleAnalyzer.get_match_strength score = lit "needs_improvement"
     ∧ _categorize_match_strength score = lit "poor").
Proof.
  unfold SimpleAnalyzer.get_match_strength, _categorize_match_strength.
  destruct (Qle_bool_spec 85 score), (Qle_bool_spec 70 score), (Qle_bool_spec 50 score);
    split; intros H; try reflexivity; try lra; split; reflexivity.
Qed.

(** ** The matcher finds what the patterns match *)

Section MatcherSound.
Context (U : Unicode) (text : str).

#[local] Notation coherent := (coherent text).

Lemma coherent_at (i : nat) : i ≤ length text → coherent (cursor_at text i).
Proof. intros H. split; [exact H|reflexivity]. Qed.

Lemma cursor_at_advance (i : nat) (x : char) (xs : str) :
  drop i text = x :: xs →
  advance x xs (cursor_at text i) = cursor_at text (S i) ∧ S i ≤ length text.
Proof.
  intros H.
  assert (Hlen : i < length text).
  { destruct (decide (i < length text)) as [|Hn]; [assumption|].
    rewrite drop_ge in H by lia. discriminate. }
  split; [|lia]. unfold advance, cursor_at. simpl. f_equal.
  - assert (Hx : text !! i = Some x).
    { assert (Hx : drop i text !! 0 = Some x) by (rewrite H; reflexivity).
      rewrite lookup_drop, Nat.add_0_r in Hx. exact Hx. }
    rewrite (take_S_r _ _ _ Hx), last_snoc. reflexivity.
  - replace (S i) with (i + 1) by lia. rewrite <- drop_drop, H. reflexivity.
Qed.

Lemma matches_coherent (r : regex) (c c' : cursor) :
  matches U r c c' → coherent c → coherent c' ∧ pos c ≤ pos c'.
Proof.
  revert c c'. induction r as [p| | |r1 IH1 r2 IH2|r1 IH1 r2 IH2|lo hi r IH|i r IH];
    intros c c'; simpl.
  - intros (x & xs & Hr & _ & ->) [Hle Hc].
    rewrite Hc in Hr. simpl in Hr.
    destruct (cursor_at_advance (pos c) x xs Hr) as [Ha Hl].
    rewrite Hc. rewrite Ha. split; [apply coherent_at, Hl|simpl; lia].
  - intros -> H. split; [exact H|lia].
  - intros [_ ->] H. split; [exact H|lia].
  - intros (c1 & H1 & H2) Hc. destruct (IH1 _ _ H1 Hc) as [Hc1 Hp1].
    destruct (IH2 _ _ H2 Hc1) as [Hc2 Hp2]. split; [exact Hc2|lia].
  - intros [H|H] Hc; [apply (IH1 _ _ H Hc)|apply (IH2 _ _ H Hc)].
  - intros (n & _ & _ & Hit). revert c Hit. induction n as [|n IHn]; intros c Hit Hc.
    + simpl in Hit. subst c'. split; [exact Hc|lia].
    + simpl in Hit. destruct Hit as (c1 & H1 & Hlt & Hit).
      destruct (IH _ _ H1 Hc) as [Hc1 _].
      destruct (IHn _ Hit Hc1) as [Hc' Hp]. split; [exact Hc'|lia].
  - intros H Hc. apply (IH _ _ H Hc).
Qed.

Lemma iterate_coherent (r : regex) (n : nat) (c c' : cursor) :
  iterate (matches U r) n c c' → coherent c → coherent c' ∧ pos c + n ≤ pos c'.
Proof.
  revert c. induction n as [|n IHn]; intros c Hit Hc; simpl in Hit.
  - subst c'. split; [exact Hc|lia].
  - destruct Hit as (c1 & H1 & Hlt & Hit).
    destruct (matches_coherent _ _ _ H1 Hc) as [Hc1 _].
    destruct (IHn _ Hit Hc1) as [Hc' Hp]. split; [exact Hc'|lia].
Qed.

Lemma matches_spans (r : regex) (c c' : cursor) :
  coherent c → matches U r c c' → spans U r text (pos c) (pos c').
Proof.
  intros Hc Hm. destruct (matches_coherent r c c' Hm Hc) as [[Hl' Hc'] Hp].
  destruct Hc as [Hl Hc]. unfold spans. rewrite <- Hc, <- Hc'.
  split; [exact Hp|]. split; [exact Hl'|exact Hm].
Qed.

Lemma rmatch_rep (lo : nat) (hi : option nat) (r : regex) k (c : cursor) (g : caps) :
  rmatch U (RRep lo hi r) k c g = rep_loop U lo hi r k (S (length (rest c))) 0 c g.
Proof. reflexivity. Qed.

Context (Good : nat → nat → nat → Prop).

Lemma rmatch_sound (r : regex) :
  groups_ok U text Good r →
  ∀ k c g m,
    coherent c → caps_good Good g → rmatch U r k c g = Some m →
    ∃ c' g', matches U r c c' ∧ caps_good Good g' ∧ k c' g' = Some m.
Proof.
  induction r as [p| | |r1 IH1 r2 IH2|r1 IH1 r2 IH2|lo hi r IH|i r IH];
    intros Hok k c g m Hc Hg.
  - simpl. destruct (rest c) as [|x xs] eqn:Er; [discriminate|].
    destruct (p x) eqn:Ep; [|discriminate]. intros Hk.
    exists (advance x xs c), g. split; [|split; assumption].
    exists x, xs. repeat split; assumption.
  - simpl. intros Hk. exists c, g. repeat split; assumption.
  - simpl. destruct (at_boundary U c) eqn:Eb; [|discriminate]. intros Hk.
    exists c, g. repeat split; assumption.
  - simpl. intros Hm. destruct Hok as [Hok1 Hok2].
    destruct (IH1 Hok1 _ _ _ _ Hc Hg Hm) as (c1 & g1 & Hm1 & Hg1 & Hk1).
    destruct (matches_coherent _ _ _ Hm1 Hc) as [Hc1 _].
    destruct (IH2 Hok2 _ _ _ _ Hc1 Hg1 Hk1) as (c2 & g2 & Hm2 & Hg2 & Hk2).
    exists c2, g2. split; [exists c1; split; assumption|split; assumption].
  - simpl. destruct Hok as [Hok1 Hok2].
    destruct (rmatch U r1 k c g) as [m1|] eqn:E1.
    + intros [= <-]. destruct (IH1 Hok1 _ _ _ _ Hc Hg E1) as (c' & g' & Hm & Hg' & Hk).
      exists c', g'. split; [left; exact Hm|split; assumption].
    + intros E2. destruct (IH2 Hok2 _ _ _ _ Hc Hg E2) as (c' & g' & Hm & Hg' & Hk).
      exists c', g'. split; [right; exact Hm|split; assumption].
  - rewrite rmatch_rep. simpl in Hok.
    assert (Hloop : ∀ fuel n c g,
               coherent c → caps_good Good g → (∀ h, hi = Some h → n ≤ h) →
               rep_loop U lo hi r k fuel n c g = Some m →
               ∃ j c' g', iterate (matches U r) j c c' ∧ lo ≤ n + j
                          ∧ (∀ h, hi = Some h → n + j ≤ h)
                          ∧ caps_good Good g' ∧ k c' g' = Some m).
    { clear c g Hc Hg. induction fuel as [|fuel IHf]; intros n c g Hc Hg Hn.
      - simpl. destruct (Nat.leb_spec lo n); [|discriminate]. intros Hk.
        exists 0, c, g. rewrite Nat.add_0_r. repeat split; assumption.
      - simpl.
        assert (Hstop : (if lo <=? n then k c g else None) = Some m →
                        ∃ j c' g', iterate (matches U r) j c c' ∧ lo ≤ n + j
                                   ∧ (∀ h, hi = Some h → n + j ≤ h)
                                   ∧ caps_good Good g' ∧ k c' g' = Some m).
        { destruct (Nat.leb_spec lo n); [|discriminate]. intros Hk.
          exists 0, c, g. rewrite Nat.add_0_r. repeat split; assumption. }
        destruct (more_allowed n hi) eqn:Ema; [|exact Hstop].
        destruct (rmatch U r _ c g) as [m1|] eqn:E1; [|exact Hstop].
        intros [= <-].
        destruct (IH Hok _ _ _ _ Hc Hg E1) as (c1 & g1 & Hm1 & Hg1 & Hk1).
        destruct (Nat.ltb_spec (pos c) (pos c1)) as [Hlt|]; [|discriminate].
        destruct (matches_coherent _ _ _ Hm1 Hc) as [Hc1 _].
        assert (Hn' : ∀ h, hi = Some h → S n ≤ h).
        { intros h ->. simpl in Ema. apply Nat.ltb_lt in Ema. lia. }
        destruct (IHf (S n) c1 g1 Hc1 Hg1 Hn' Hk1)
          as (j & c' & g' & Hit & Hlo & Hhi & Hg' & Hk).
        exists (S j), c', g'. split; [exists c1; repeat split; assumption|].
        split; [lia|]. split; [|split; assumption].
        intros h Hh. specialize (Hhi h Hh). lia. }
    intros Hm. destruct (Hloop _ 0 c g Hc Hg ltac:(intros; lia) Hm)
      as (j & c' & g' & Hit & Hlo & Hhi & Hg' & Hk).
    exists c', g'. split; [|split; assumption].
    exists j. repeat split; [lia|exact Hhi|exact Hit].
  - simpl. destruct Hok as [Hgood Hok]. intros Hm.
    destruct (IH Hok _ _ _ _ Hc Hg Hm) as (c' & g' & Hm' & Hg' & Hk).
    exists c', ((i, (pos c, pos c')) :: g'). split; [exact Hm'|]. split; [|exact Hk].
    constructor; [|exact Hg']. simpl. apply Hgood. apply matches_spans; assumption.
Qed.
End MatcherSound.

Section MatcherComplete.
Context (U : Unicode).

Lemma matches_length (r : regex) (c c' : cursor) :
  matches U r c c' →
  pos c ≤ pos c' ∧ length (rest c') + (pos c' - pos c) = length (rest c).
Proof.
  revert c c'. induction r as [p| | |r1 IH1 r2 IH2|r1 IH1 r2 IH2|lo hi r IH|i r IH];
    intros c c'; simpl.
  - intros (x & xs & Hr & _ & ->). rewrite Hr. simpl. lia.
  - intros ->. lia.
  - intros [_ ->]. lia.
  - intros (c1 & H1 & H2). specialize (IH1 _ _ H1). specialize (IH2 _ _ H2). lia.
  - intros [H|H]; [apply IH1, H|apply IH2, H].
  - intros (n & _ & _ & Hit). revert c Hit. induction n as [|n IHn]; intros c Hit.
    + simpl in Hit. subst c'. lia.
    + simpl in Hit. destruct Hit as (c1 & H1 & Hlt & Hit).
      specialize (IH _ _ H1). specialize (IHn _ Hit). lia.
  - apply IH.
Qed.

Lemma iterate_count (r : regex) (n : nat) (c c' : cursor) :
  iterate (matches U r) n c c' → n ≤ length (rest c).
Proof.
  revert c. induction n as [|n IHn]; intros c Hit; [lia|].
  simpl in Hit. destruct Hit as (c1 & H1 & Hlt & Hit).
  specialize (IHn _ Hit). pose proof (matches_length _ _ _ H1). lia.
Qed.

Lemma rmatch_complete (r : regex) :
  ∀ k c c' g,
    matches U r c c' → (∀ g', is_Some (k c' g')) → is_Some (rmatch U r k c g).
Proof.
  induction r as [p| | |r1 IH1 r2 IH2|r1 IH1 r2 IH2|lo hi r IH|i r IH];
    intros k c c' g.
  - simpl. intros (x & xs & Hr & Hp & ->) Hk. rewrite Hr, Hp. apply Hk.
  - simpl. intros -> Hk. apply Hk.
  - simpl. intros [Hb ->] Hk. rewrite Hb. apply Hk.
  - simpl. intros (c1 & H1 & H2) Hk. apply (IH1 _ _ c1 _ H1).
    intros g'. apply (IH2 _ _ c' _ H2 Hk).
  - simpl. intros [H|H] Hk.
    + destruct (IH1 k c c' g H Hk) as [m ->]. eexists. reflexivity.
    + destruct (rmatch U r1 k c g); [eexists; reflexivity|].
      apply (IH2 k c c' g H Hk).
  - rewrite rmatch_rep. intros Hm Hk. simpl in Hm. destruct Hm as (j & Hlo & Hhi & Hit).
    assert (Hloop : ∀ j fuel n c g,
               iterate (matches U r) j c c' → j ≤ fuel → lo ≤ n + j →
               (∀ h, hi = Some h → n + j ≤ h) →
               is_Some (rep_loop U lo hi r k fuel n c g)).
    { clear c g j Hlo Hhi Hit. induction j as [|j IHj]; intros fuel n c g Hit Hf Hlo Hhi.
      - simpl in Hit. subst c.
        assert (Hstop : is_Some (if lo <=? n then k c' g else None)).
        { destruct (Nat.leb_spec lo n); [apply Hk|lia]. }
        destruct fuel as [|fuel]; simpl; [exact Hstop|].
        destruct (more_allowed n hi); [|exact Hstop].
        destruct (rmatch U r _ c' g); [eexists; reflexivity|exact Hstop].
      - destruct fuel as [|fuel]; [lia|]. simpl.
        simpl in Hit. destruct Hit as (c1 & H1 & Hlt & Hit).
        assert (Hma : more_allowed n hi = true).
        { destruct hi as [h|]; [|reflexivity]. simpl. apply Nat.ltb_lt.
          specialize (Hhi h eq_refl). lia. }
        rewrite Hma.
        match goal with
        | |- is_Some (match rmatch U r ?k' c g with _ => _ end) =>
            destruct (IH k' c c1 g H1) as [m ->]; [|eexists; reflexivity]
        end.
        intros g'. apply Nat.ltb_lt in Hlt. rewrite Hlt.
        apply IHj; [exact Hit|lia|lia|].
        intros h Hh. specialize (Hhi h Hh). lia. }
    apply (Hloop j); [exact Hit| |lia|exact Hhi].
    pose proof (iterate_count _ _ _ _ Hit). lia.
  - simpl. intros H Hk. apply (IH _ c c' g H). intros g'. apply Hk.
Qed.

Lemma match_at_complete (r : regex) (c c' : cursor) :
  matches U r c c' → is_Some (match_at U r c).
Proof.
  intros H. unfold match_at. apply (rmatch_complete r _ c c' [] H).
  intros g'. eexists. reflexivity.
Qed.

Lemma scan_unfold (r : regex) (p : option char) (i : nat) (s : str) :
  scan U r p i s
  = match match_at U r {| prev := p; pos := i; rest := s |} with
    | Some (c', g) => Some (i, c', g)
    | None =>
        match s with
        | [] => None
        | x :: xs => scan U r (Some x) (S i) xs
        end
    end.
Proof. destruct s; reflexivity. Qed.

Context (text : str) (Good : nat → nat → nat → Prop).

Lemma match_at_sound (r : regex) (c c' : cursor) (g : caps) :
  groups_ok U text Good r → coherent text c →
  match_at U r c = Some (c', g) →
  matches U r c c' ∧ caps_good Good g.
Proof.
  intros Hok Hc Hm. unfold match_at in Hm.
  destruct (rmatch_sound U text Good r Hok _ c [] _ Hc ltac:(constructor) Hm)
    as (c1 & g1 & Hm1 & Hg1 & [= <- <-]).
  split; assumption.
Qed.

Lemma scan_at (r : regex) (i : nat) :
  scan U r (last (take i text)) i (drop i text)
  = match match_at U r (cursor_at text i) with
    | Some (c', g) => Some (i, c', g)
    | None =>
        if i <? length text
        then scan U r (last (take (S i) text)) (S i) (drop (S i) text)
        else None
    end.
Proof.
  rewrite scan_unfold. fold (cursor_at text i).
  destruct (match_at U r (cursor_at text i)) as [[c' g]|]; [reflexivity|].
  destruct (drop i text) as [|x xs] eqn:E.
  - destruct (Nat.ltb_spec i (length text)) as [Hlt|]; [|reflexivity].
    apply (f_equal length) in E. rewrite length_drop in E. simpl in E. lia.
  - destruct (cursor_at_advance text i x xs E) as [Ha Hl].
    apply Nat.ltb_lt in Hl as Hl'. rewrite Hl'.
    injection Ha as Hp Hr. rewrite <- Hp, <- Hr. reflexivity.
Qed.

Lemma scan_sound (r : regex) :
  groups_ok U text Good r →
  ∀ n i j c' g,
    n = length text - i → i ≤ length text →
    scan U r (last (take i text)) i (drop i text) = Some (j, c', g) →
    i ≤ j ∧ j ≤ length text
    ∧ matches U r (cursor_at text j) c' ∧ coherent text c' ∧ caps_good Good g
    ∧ ∀ j' c'', i ≤ j' → j' < j → ¬ matches U r (cursor_at text j') c''.
Proof.
  intros Hok. induction n as [|n IH]; intros i j c' g Hn Hi; rewrite scan_at.
  - destruct (match_at U r (cursor_at text i)) as [[c1 g1]|] eqn:Em.
    + intros [= <- <- <-].
      destruct (match_at_sound r _ _ _ Hok (coherent_at text i Hi) Em) as [Hm Hg].
      destruct (matches_coherent U text _ _ _ Hm (coherent_at text i Hi)) as [Hc _].
      split; [lia|]. split; [exact Hi|]. split; [exact Hm|]. split; [exact Hc|].
      split; [exact Hg|]. intros; lia.
    + destruct (Nat.ltb_spec i (length text)); [lia|discriminate].
  - destruct (match_at U r (cursor_at text i)) as [[c1 g1]|] eqn:Em.
    + intros [= <- <- <-].
      destruct (match_at_sound r _ _ _ Hok (coherent_at text i Hi) Em) as [Hm Hg].
      destruct (matches_coherent U text _ _ _ Hm (coherent_at text i Hi)) as [Hc _].
      split; [lia|]. split; [exact Hi|]. split; [exact Hm|]. split; [exact Hc|].
      split; [exact Hg|]. intros; lia.
    + destruct (Nat.ltb_spec i (length text)) as [Hlt|]; [|discriminate].
      intros Hs. destruct (IH (S i) j c' g ltac:(lia) ltac:(lia) Hs)
        as (H1 & H2 & H3 & H4 & H5 & H6).
      split; [lia|]. split; [exact H2|]. split; [exact H3|]. split; [exact H4|].
      split; [exact H5|]. intros j' c'' Hj1 Hj2 Hm.
      destruct (decide (j' = i)) as [->|Hne].
      * destruct (match_at_complete r _ _ Hm) as [x Hx]. rewrite Em in Hx. discriminate.
      * apply (H6 j' c''); [lia|exact Hj2|exact Hm].
Qed.

Lemma scan_complete (r : regex) (j : nat) (c' : cursor) :
  ∀ n i,
    n = j - i → i ≤ j → j ≤ length text →
    matches U r (cursor_at text j) c' →
    is_Some (scan U r (last (take i text)) i (drop i text)).
Proof.
  induction n as [|n IH]; intros i Hn Hi Hj Hm; rewrite scan_at.
  - assert (i = j) by lia. subst i.
    destruct (match_at_complete r _ _ Hm) as [[c1 g1] ->]. eexists. reflexivity.
  - destruct (match_at U r (cursor_at text i)) as [[c1 g1]|]; [eexists; reflexivity|].
    assert (Hlt : i < length text) by lia. apply Nat.ltb_lt in Hlt. rewrite Hlt.
    apply IH; [lia|lia|exact Hj|exact Hm].
Qed.
End MatcherComplete.

(** [re.search] finds a match exactly when the pattern matches some
    part of the text. *)
Lemma re_search_spans (U : Unicode) (r : regex) (text : str) :
  re_search U r text = true ↔ ∃ i j, spans U r text i j.
Proof.
  unfold re_search. rewrite bool_decide_eq_true.
  change (scan U r None 0 text)
    with (scan U r (last (take 0 text)) 0 (drop 0 text)).
  split.
  - intros [[[j c'] g] Hs].
    assert (Hok : groups_ok U text (λ _ _ _, True) r).
    { clear. induction r; simpl; tauto. }
    destruct (scan_sound U text _ r Hok _ 0 j c' g eq_refl ltac:(lia) Hs)
      as (_ & Hj & Hm & _).
    exists j, (pos c'). apply (matches_spans U text r (cursor_at text j) c');
      [apply coherent_at, Hj|exact Hm].
  - intros (i & j & Hij & Hj & Hm).
    apply (scan_complete U text r i (cursor_at text j) i 0); [lia|lia|lia|exact Hm].
Qed.

(** ** What the patterns of the analyzer match *)

Section Spans.
Context (U : Unicode) (text : str).

Lemma spans_bounds (r : regex) (i j : nat) :
  spans U r text i j → i ≤ j ∧ j ≤ length text.
Proof. intros (H1 & H2 & _). split; assumption. Qed.

Lemma head_drop (i : nat) : head (drop i text) = text !! i.
Proof.
  rewrite head_lookup, lookup_drop, Nat.add_0_r. reflexivity.
Qed.

Lemma spans_char (p : char → bool) (i j : nat) :
  spans U (RChar p) text i j ↔ j = S i ∧ ∃ x, text !! i = Some x ∧ p x = true.
Proof.
  unfold spans. simpl. split.
  - intros (Hij & Hj & x & xs & Hr & Hp & Hc).
    destruct (cursor_at_advance text i x xs Hr) as [Ha _].
    rewrite Ha in Hc. apply (f_equal pos) in Hc. simpl in Hc. subst j.
    split; [reflexivity|]. exists x. split; [|exact Hp].
    rewrite <- head_drop, Hr. reflexivity.
  - intros (-> & x & Hx & Hp).
    assert (Hlt : i < length text) by (eapply lookup_lt_Some; exact Hx).
    split; [lia|]. split; [lia|].
    pose proof (drop_S _ _ _ Hx) as E.
    exists x, (drop (S i) text). split; [exact E|]. split; [exact Hp|].
    destruct (cursor_at_advance text i x _ E) as [Ha _]. symmetry. exact Ha.
Qed.

Lemma spans_empty (i j : nat) :
  spans U REmpty text i j ↔ i = j ∧ j ≤ length text.
Proof.
  unfold spans. simpl. split.
  - intros (_ & Hj & Hc). apply (f_equal pos) in Hc. simpl in Hc. subst. split; [reflexivity|exact Hj].
  - intros [-> Hj]. split; [lia|]. split; [exact Hj|reflexivity].
Qed.

Lemma spans_wordb (i j : nat) :
  spans U RWordB text i j
  ↔ i = j ∧ j ≤ length text ∧ boundary U (last (take i text)) (text !! i) = true.
Proof.
  unfold spans. simpl. unfold at_boundary, boundary. simpl. rewrite head_drop. split.
  - intros (_ & Hj & Hb & Hc). apply (f_equal pos) in Hc. simpl in Hc. subst.
    split; [reflexivity|]. split; assumption.
  - intros (-> & Hj & Hb). split; [lia|]. split; [exact Hj|]. split; [exact Hb|reflexivity].
Qed.

Lemma spans_seq (r1 r2 : regex) (i j : nat) :
  spans U (RSeq r1 r2) text i j ↔ ∃ m, spans U r1 text i m ∧ spans U r2 text m j.
Proof.
  unfold spans. simpl. split.
  - intros (Hij & Hj & c1 & H1 & H2).
    assert (Hi : i ≤ length text) by lia.
    destruct (matches_coherent U text _ _ _ H1 (coherent_at text i Hi)) as [[Hl1 Hc1] Hp1].
    simpl in Hp1. rewrite Hc1 in H1, H2.
    assert (Hc1' : coherent text (cursor_at text (pos c1))) by (apply coherent_at, Hl1).
    destruct (matches_coherent U text _ _ _ H2 Hc1') as [_ Hp2]. simpl in Hp2.
    exists (pos c1). repeat split; assumption.
  - intros (m & (H1 & H2 & H3) & (H4 & H5 & H6)).
    split; [lia|]. split; [exact H5|]. exists (cursor_at text m). split; assumption.
Qed.

Lemma spans_alt (r1 r2 : regex) (i j : nat) :
  spans U (RAlt r1 r2) text i j ↔ spans U r1 text i j ∨ spans U r2 text i j.
Proof. unfold spans. simpl. tauto. Qed.

Lemma spans_group (n : nat) (r : regex) (i j : nat) :
  spans U (RGroup n r) text i j ↔ spans U r text i j.
Proof. reflexivity. Qed.

Lemma substr_app (i m j : nat) :
  i ≤ m → m ≤ j → j ≤ length text →
  substr text i j = substr text i m ++ substr text m j.
Proof.
  intros H1 H2 H3. unfold substr.
  replace (j - i) with ((m - i) + (j - m)) by lia.
  rewrite <- take_take_drop, drop_drop.
  replace (i + (m - i)) with m by lia. reflexivity.
Qed.

Lemma text_split (i j : nat) :
  i ≤ j → j ≤ length text →
  text = take i text ++ substr text i j ++ drop j text.
Proof.
  intros H1 H2. unfold substr.
  rewrite <- (take_drop i text) at 1. f_equal.
  rewrite <- (take_drop (j - i) (drop i text)) at 1. f_equal.
  rewrite drop_drop. f_equal. lia.
Qed.

Lemma substr_of_parts (before s after : str) :
  text = before ++ s ++ after →
  substr text (length before) (length before + length s) = s
  ∧ take (length before) text = before
  ∧ drop (length before + length s) text = after
  ∧ length before + length s ≤ length text.
Proof.
  intros ->. unfold substr. split; [|split; [|split]].
  - rewrite drop_app_length.
    replace (length before + length s - length before) with (length s) by lia.
    apply take_app_length.
  - apply take_app_length.
  - rewrite <- drop_drop, drop_app_length, drop_app_length. reflexivity.
  - rewrite !length_app. lia.
Qed.

Lemma length_substr (i j : nat) :
  i ≤ j → j ≤ length text → length (substr text i j) = j - i.
Proof. intros H1 H2. unfold substr. rewrite length_take, length_drop. lia. Qed.

Lemma iterate_char (p : char → bool) (n : nat) (i : nat) (c' : cursor) :
  i ≤ length text →
  (iterate (matches U (RChar p)) n (cursor_at text i) c'
   ↔ i + n ≤ length text ∧ c' = cursor_at text (i + n)
     ∧ Forall (λ x, p x = true) (substr text i (i + n))).
Proof.
  revert i. induction n as [|n IH]; intros i Hi; simpl.
  - rewrite Nat.add_0_r. unfold substr. rewrite Nat.sub_diag. simpl. split.
    + intros ->. split; [exact Hi|]. split; [reflexivity|constructor].
    + intros (_ & -> & _). reflexivity.
  - split.
    + intros (c1 & (x & xs & Hr & Hp & ->) & Hlt & Hit). simpl in Hr.
      destruct (cursor_at_advance text i x xs Hr) as [Ha Hl]. rewrite Ha in Hit.
      apply (IH (S i) Hl) in Hit as (Hle & -> & Hall).
      split; [lia|]. split; [f_equal; lia|].
      rewrite (substr_app i (S i) (i + S n)) by lia.
      apply Forall_app. split.
      * assert (Hx : substr text i (S i) = [x]).
        { unfold substr. replace (S i - i) with 1 by lia. rewrite Hr. reflexivity. }
        rewrite Hx. constructor; [exact Hp|constructor].
      * replace (i + S n) with (S i + n) by lia. exact Hall.
    + intros (Hle & -> & Hall).
      rewrite (substr_app i (S i) (i + S n)) in Hall by lia.
      apply Forall_app in Hall as [H1 Hall].
      destruct (lookup_lt_is_Some_2 text i ltac:(lia)) as [x Hxi].
      pose proof (drop_S _ _ _ Hxi) as Er. set (xs := drop (S i) text) in Er.
      assert (Hx : substr text i (S i) = [x]).
      { unfold substr. replace (S i - i) with 1 by lia. rewrite Er. reflexivity. }
      rewrite Hx in H1. apply Forall_cons in H1 as [Hp _].
      destruct (cursor_at_advance text i x xs Er) as [Ha Hl].
      exists (cursor_at text (S i)). split; [|split].
      * exists x, xs. simpl. split; [exact Er|]. split; [exact Hp|]. symmetry. exact Ha.
      * simpl. lia.
      * apply (IH (S i) Hl). split; [lia|]. split; [f_equal; lia|].
        replace (S i + n) with (i + S n) by lia. exact Hall.
Qed.

Lemma spans_rep_char (lo : nat) (hi : option nat) (p : char → bool) (i j : nat) :
  spans U (RRep lo hi (RChar p)) text i j
  ↔ i ≤ j ∧ j ≤ length text ∧ lo ≤ j - i ∧ (∀ h, hi = Some h → j - i ≤ h)
    ∧ Forall (λ x, p x = true) (substr text i j).
Proof.
  unfold spans. cbn [matches]. split.
  - intros (Hij & Hj & n & Hlo & Hhi & Hit).
    apply iterate_char in Hit as (Hle & Hc & Hall); [|lia].
    apply (f_equal pos) in Hc. simpl in Hc. subst j.
    replace (i + n - i) with n by lia. repeat split; assumption.
  - intros (Hij & Hj & Hlo & Hhi & Hall).
    split; [exact Hij|]. split; [exact Hj|]. exists (j - i).
    split; [exact Hlo|]. split; [exact Hhi|].
    apply iterate_char; [lia|].
    replace (i + (j - i)) with j by lia. repeat split; assumption.
Qed.

Lemma spans_opt (r : regex) (i j : nat) :
  spans U (ropt r) text i j
  ↔ (i = j ∧ j ≤ length text) ∨ (i < j ∧ spans U r text i j).
Proof.
  unfold spans, ropt. cbn [matches]. split.
  - intros (Hij & Hj & n & _ & Hhi & Hit). specialize (Hhi 1 eq_refl).
    destruct n as [|[|n]]; [| |lia]; simpl in Hit.
    + apply (f_equal pos) in Hit. simpl in Hit. left. split; [lia|exact Hj].
    + destruct Hit as (c1 & Hm & Hlt & <-). simpl in Hlt.
      right. split; [exact Hlt|]. repeat split; assumption.
  - intros [[-> Hj]|(Hlt & _ & Hj & Hm)].
    + split; [lia|]. split; [exact Hj|]. exists 0. split; [lia|]. split; [intros; lia|].
      reflexivity.
    + split; [lia|]. split; [exact Hj|]. exists 1. split; [lia|].
      split; [intros h [= <-]; lia|]. simpl.
      exists (cursor_at text j). split; [exact Hm|]. split; [exact Hlt|reflexivity].
Qed.

Lemma spans_escape (s : str) (i j : nat) :
  spans U (re_escape s) text i j
  ↔ j = i + length s ∧ j ≤ length text ∧ substr text i j = s.
Proof.
  revert i. induction s as [|a s IH]; intros i.
  - change (re_escape []) with REmpty. rewrite spans_empty. simpl. split.
    + intros [-> Hj]. split; [lia|]. split; [exact Hj|].
      unfold substr. rewrite Nat.sub_diag. reflexivity.
    + intros (-> & Hj & _). split; [lia|]. rewrite Nat.add_0_r in Hj. rewrite Nat.add_0_r. exact Hj.
  - change (re_escape (a :: s)) with (RSeq (rchr a) (re_escape s)).
    rewrite spans_seq. split.
    + intros (m & Hc & Hs). apply spans_char in Hc as (-> & x & Hx & Hp).
      apply N.eqb_eq in Hp. subst x.
      apply IH in Hs as (-> & Hj & Hs). change (length (a :: s)) with (S (length s)).
      split; [lia|]. split; [exact Hj|].
      rewrite (substr_app i (S i) (S i + length s)) by lia. rewrite Hs.
      unfold substr. replace (S i - i) with 1 by lia.
      rewrite (drop_S _ _ _ Hx). reflexivity.
    + change (length (a :: s)) with (S (length s)). intros (-> & Hj & Hs).
      rewrite (substr_app i (S i) (i + S (length s))) in Hs by lia.
      assert (Hlt : i < length text) by lia.
      destruct (lookup_lt_is_Some_2 text i Hlt) as [x Hx].
      assert (H1 : substr text i (S i) = [x]).
      { unfold substr. replace (S i - i) with 1 by lia. rewrite (drop_S _ _ _ Hx). reflexivity. }
      rewrite H1 in Hs. injection Hs as -> Hs.
      exists (S i). split.
      * apply spans_char. split; [reflexivity|]. exists a. split; [exact Hx|].
        unfold rchr. apply N.eqb_refl.
      * apply IH. split; [lia|]. split; [exact Hj|].
        replace (S i + length s) with (i + S (length s)) by lia. exact Hs.
Qed.
End Spans.

(** ** Groups and [re.findall] *)

Section Groups.
Context (U : Unicode).

Lemma span_of_cons (i : nat) (e : nat * (nat * nat)) (g : caps) :
  is_Some (span_of i g) → is_Some (span_of i (e :: g)).
Proof.
  intros H. destruct e as [j sp]. simpl. destruct (Nat.eqb i j); [eexists; reflexivity|exact H].
Qed.

Lemma rmatch_sets (i : nat) (r : regex) :
  ∀ k c g m,
    rmatch U r k c g = Some m →
    ∃ c' g', k c' g' = Some m
             ∧ (sets_group i r = true ∨ is_Some (span_of i g) → is_Some (span_of i g')).
Proof.
  induction r as [p| | |r1 IH1 r2 IH2|r1 IH1 r2 IH2|lo hi r IH|j r IH];
    intros k c g m.
  - simpl. destruct (rest c) as [|x xs]; [discriminate|].
    destruct (p x); [|discriminate]. intros Hk. eexists _, g. split; [exact Hk|].
    intros [H|H]; [discriminate|exact H].
  - simpl. intros Hk. exists c, g. split; [exact Hk|]. intros [H|H]; [discriminate|exact H].
  - simpl. destruct (at_boundary U c); [|discriminate]. intros Hk.
    exists c, g. split; [exact Hk|]. intros [H|H]; [discriminate|exact H].
  - simpl. intros Hm.
    destruct (IH1 _ _ _ _ Hm) as (c1 & g1 & Hk1 & H1).
    destruct (IH2 _ _ _ _ Hk1) as (c2 & g2 & Hk2 & H2).
    exists c2, g2. split; [exact Hk2|]. intros [H|H].
    + apply orb_true_iff in H as [H|H].
      * apply H2. right. apply H1. left. exact H.
      * apply H2. left. exact H.
    + apply H2. right. apply H1. right. exact H.
  - simpl. destruct (rmatch U r1 k c g) as [m1|] eqn:E1.
    + intros [= <-]. destruct (IH1 _ _ _ _ E1) as (c' & g' & Hk & H1).
      exists c', g'. split; [exact Hk|]. intros [H|H].
      * apply andb_true_iff in H as [H _]. apply H1. left. exact H.
      * apply H1. right. exact H.
    + intros E2. destruct (IH2 _ _ _ _ E2) as (c' & g' & Hk & H2).
      exists c', g'. split; [exact Hk|]. intros [H|H].
      * apply andb_true_iff in H as [_ H]. apply H2. left. exact H.
      * apply H2. right. exact H.
  - rewrite rmatch_rep.
    assert (Hloop : ∀ fuel n c g,
               rep_loop U lo hi r k fuel n c g = Some m →
               ∃ c' g', k c' g' = Some m
                        ∧ (is_Some (span_of i g) → is_Some (span_of i g'))
                        ∧ (sets_group i r = true → n < lo → is_Some (span_of i g'))).
    { induction fuel as [|fuel IHf]; intros n c0 g0.
      - simpl. destruct (Nat.leb_spec lo n); [|discriminate]. intros Hk.
        exists c0, g0. split; [exact Hk|]. split; [tauto|]. intros; lia.
      - simpl.
        assert (Hstop : (if lo <=? n then k c0 g0 else None) = Some m →
                        ∃ c' g', k c' g' = Some m
                                 ∧ (is_Some (span_of i g0) → is_Some (span_of i g'))
                                 ∧ (sets_group i r = true → n < lo
                                    → is_Some (span_of i g'))).
        { destruct (Nat.leb_spec lo n); [|discriminate]. intros Hk.
          exists c0, g0. split; [exact Hk|]. split; [tauto|]. intros; lia. }
        destruct (more_allowed n hi); [|exact Hstop].
        destruct (rmatch U r _ c0 g0) as [m1|] eqn:E1; [|exact Hstop].
        intros [= <-].
        destruct (IH _ _ _ _ E1) as (c1 & g1 & Hk1 & H1).
        destruct (pos c0 <? pos c1); [|discriminate].
        destruct (IHf _ _ _ Hk1) as (c' & g' & Hk & Hmono & _).
        exists c', g'. split; [exact Hk|]. split.
        + intros H. apply Hmono, H1. right. exact H.
        + intros Hs _. apply Hmono, H1. left. exact Hs. }
    intros Hm. destruct (Hloop _ _ _ _ Hm) as (c' & g' & Hk & Hmono & Hset).
    exists c', g'. split; [exact Hk|]. intros [H|H]; [|apply Hmono, H].
    cbn [sets_group] in H. apply andb_true_iff in H as [Hlo Hs]. apply Nat.leb_le in Hlo.
    apply Hset; [exact Hs|lia].
  - simpl. intros Hm. destruct (IH _ _ _ _ Hm) as (c' & g' & Hk & H1).
    eexists _, _. split; [exact Hk|]. intros [H|H].
    + simpl. destruct (Nat.eqb i j) eqn:E; [eexists; reflexivity|].
      simpl in H. apply H1. left. exact H.
    + apply span_of_cons, H1. right. exact H.
Qed.

Lemma match_at_sets (i : nat) (r : regex) (c c' : cursor) (g : caps) :
  sets_group i r = true → match_at U r c = Some (c', g) → is_Some (span_of i g).
Proof.
  intros Hs Hm. unfold match_at in Hm.
  destruct (rmatch_sets i r _ _ _ _ Hm) as (c1 & g1 & [= <- <-] & H).
  apply H. left. exact Hs.
Qed.

Lemma scan_sets (i : nat) (r : regex) (s : str) :
  sets_group i r = true →
  ∀ p n j c' g, scan U r p n s = Some (j, c', g) → is_Some (span_of i g).
Proof.
  intros Hs. induction s as [|x s IH]; intros p n j c' g; rewrite scan_unfold.
  - destruct (match_at U r _) as [[c1 g1]|] eqn:Em; [|discriminate].
    intros [= <- <- <-]. apply (match_at_sets i r _ _ _ Hs Em).
  - destruct (match_at U r _) as [[c1 g1]|] eqn:Em.
    + intros [= <- <- <-]. apply (match_at_sets i r _ _ _ Hs Em).
    + apply IH.
Qed.

Context (text : str) (Good : nat → nat → nat → Prop).

(** What [re.findall] returns: every item comes from a match of the
    pattern in the text, with its groups. *)
Lemma findall_from_sound (r : regex) :
  groups_ok U text Good r →
  ∀ fuel c,
    coherent text c →
    Forall (λ e, ∃ i c' g,
              e = found_of r text i c' g
              ∧ spans U r text i (pos c')
              ∧ caps_good Good g
              ∧ ∀ n, sets_group n r = true → is_Some (span_of n g))
      (findall_from U fuel r text c).
Proof.
  intros Hok. induction fuel as [|fuel IH]; intros c Hc; simpl; [constructor|].
  destruct Hc as [Hl Hc].
  destruct (scan U r (prev c) (pos c) (rest c)) as [[[i c'] g]|] eqn:Es; [|constructor].
  pose proof Es as Es'. rewrite Hc in Es'. simpl in Es'.
  destruct (scan_sound U text Good r Hok _ (pos c) i c' g eq_refl Hl Es')
    as (H1 & H2 & H3 & H4 & H5 & _).
  constructor.
  - exists i, c', g. split; [reflexivity|].
    split; [apply (matches_spans U text r (cursor_at text i) c');
            [apply coherent_at, H2|exact H3]|].
    split; [exact H5|]. intros n Hn. apply (scan_sets n r _ Hn _ _ _ _ _ Es).
  - destruct (i <? pos c'); [apply IH, H4|].
    destruct (rest c') as [|x xs] eqn:Er; [constructor|].
    apply IH. destruct H4 as [Hl' Hc']. rewrite Hc' in Er. simpl in Er.
    destruct (cursor_at_advance text (pos c') x xs Er) as [Ha Hle].
    rewrite Hc'. rewrite Ha. apply coherent_at, Hle.
Qed.

Lemma findall_sound (r : regex) :
  groups_ok U text Good r →
  Forall (λ e, ∃ i c' g,
            e = found_of r text i c' g
            ∧ spans U r text i (pos c')
            ∧ caps_good Good g
            ∧ ∀ n, sets_group n r = true → is_Some (span_of n g))
    (re_findall U r text).
Proof.
  intros Hok. unfold re_findall. apply findall_from_sound; [exact Hok|].
  apply (coherent_at text 0). lia.
Qed.
End Groups.

(** ** Substrings *)

Lemma is_prefix_spec (p s : str) : is_prefix p s = true ↔ ∃ t, s = p ++ t.
Proof.
  revert s. induction p as [|a p IH]; intros s; simpl.
  - split; [intros _; exists s; reflexivity|reflexivity].
  - destruct s as [|b s].
    + split; [discriminate|]. intros [t Ht]. discriminate.
    + rewrite andb_true_iff, N.eqb_eq, IH. split.
      * intros [-> [t ->]]. exists t. reflexivity.
      * intros [t [= -> ->]]. split; [reflexivity|]. exists t. reflexivity.
Qed.

Lemma contains_spec (needle hay : str) :
  contains needle hay = true ↔ ∃ a b, hay = a ++ needle ++ b.
Proof.
  induction hay as [|x hay IH]; simpl.
  - rewrite orb_false_r, is_prefix_spec. split.
    + intros [t Ht]. exists [], t. exact Ht.
    + intros (a & b & H). destruct a; [exists b; exact H|discriminate].
  - rewrite orb_true_iff, is_prefix_spec, IH. split.
    + intros [[t Ht]|(a & b & ->)].
      * exists [], t. exact Ht.
      * exists (x :: a), b. reflexivity.
    + intros (a & b & H). destruct a as [|y a].
      * left. exists b. exact H.
      * right. injection H as -> ->. exists a, b. reflexivity.
Qed.

(** ** The education a job requires *)

Section Required.
Context (U : Unicode).

Lemma required_branch (a : string) (text : str) :
  re_search U (rseq [rlit a; rstar rdot; rlit "required"]) text = true
  ↔ required_after a text.
Proof.
  rewrite re_search_spans. unfold required_after.
  change (rseq [rlit a; rstar rdot; rlit "required"])
    with (RSeq (re_escape (lit a))
            (RSeq (RRep 0 None (RChar (λ c, negb (c =? 10)%N)))
               (RSeq (re_escape (lit "required")) REmpty))).
  split.
  - intros (i & j & H).
    apply spans_seq in H as (m1 & H1 & H).
    apply spans_seq in H as (m2 & H2 & H).
    apply spans_seq in H as (m3 & H3 & H4).
    apply spans_escape in H1 as (-> & Hm1 & H1).
    apply spans_rep_char in H2 as (Hle2 & Hm2 & _ & _ & H2).
    apply spans_escape in H3 as (-> & Hm3 & H3).
    apply spans_empty in H4 as [<- _].
    exists (take i text), (substr text (i + length (lit a)) m2),
      (drop (m2 + length (lit "required")) text).
    split.
    + rewrite <- H1 at 1. rewrite <- H3 at 1.
      rewrite (text_split text i (m2 + length (lit "required"))) at 1 by lia.
      f_equal. rewrite app_assoc, app_assoc. f_equal.
      rewrite (substr_app text i m2 (m2 + length (lit "required"))) by lia.
      f_equal. apply substr_app; lia.
    + intros Hin. rewrite Forall_forall in H2. specialize (H2 _ Hin). discriminate.
  - intros (before & between & after & Ht & Hnl).
    destruct (substr_of_parts text before (lit a) (between ++ lit "required" ++ after) Ht)
      as (Ha & _ & _ & Hla).
    assert (Ht2 : text = (before ++ lit a) ++ between ++ (lit "required" ++ after))
      by (rewrite Ht, <- app_assoc; reflexivity).
    destruct (substr_of_parts text _ between _ Ht2) as (Hb & _ & _ & Hlb).
    assert (Ht3 : text = (before ++ lit a ++ between) ++ lit "required" ++ after)
      by (rewrite Ht, <- !app_assoc; reflexivity).
    destruct (substr_of_parts text _ (lit "required") _ Ht3) as (Hr & _ & _ & Hlr).
    rewrite length_app in Hb, Hlb. rewrite !length_app, Nat.add_assoc in Hr, Hlr.
    set (i := length before) in *. set (m1 := i + length (lit a)) in *.
    set (m2 := m1 + length between) in *. set (j := m2 + length (lit "required")) in *.
    exists i, j. apply spans_seq. exists m1. split.
    { apply spans_escape. split; [reflexivity|]. split; [lia|exact Ha]. }
    apply spans_seq. exists m2. split.
    { apply spans_rep_char. split; [unfold m2; lia|]. split; [lia|]. split; [lia|].
      split; [discriminate|]. rewrite Hb. apply Forall_forall. intros x Hx.
      apply negb_true_iff. apply N.eqb_neq. intros ->. contradiction. }
    apply spans_seq. exists j. split.
    { apply spans_escape. split; [reflexivity|]. split; [lia|exact Hr]. }
    apply spans_empty. split; [reflexivity|lia].
Qed.

Lemma re_search_alt (r1 r2 : regex) (text : str) :
  re_search U (RAlt r1 r2) text = re_search U r1 text || re_search U r2 text.
Proof.
  apply eq_true_iff_eq. rewrite orb_true_iff, !re_search_spans. split.
  - intros (i & j & H). apply spans_alt in H as [H|H]; [left|right]; exists i, j; exact H.
  - intros [(i & j & H)|(i & j & H)]; exists i, j; apply spans_alt; [left|right]; exact H.
Qed.

Lemma required_pattern_found (a b : string) (text : str) :
  re_search U (required_pattern a b) text = true
  ↔ required_after a text ∨ required_after b text.
Proof.
  unfold required_pattern. rewrite re_search_alt, orb_true_iff, !required_branch.
  reflexivity.
Qed.

Lemma required_after_contains (word : string) (text : str) :
  required_after word text → contains (lit "required") text = true.
Proof.
  intros (before & between & after & -> & _). apply contains_spec.
  exists (before ++ lit word ++ between), after. rewrite <- !app_assoc. reflexivity.
Qed.
End Required.

(** The education a job requires. [_extract_education_requirements]
    returns phd exactly when the text has phd or doctorate with the word
    required somewhere after it on the same line; failing that, masters
    exactly when it has master or mba so followed; failing that,
    bachelors exactly when it has bachelor or degree so followed; and
    none otherwise, in particular whenever the text does not contain
    required. The words are looked for as substrings, not as words. *)
Theorem education_required_on_the_line (U : Unicode) (text : str) :
  let required := _extract_education_requirements U text in
  let phd := required_after "phd" text ∨ required_after "doctorate" text in
  let masters := required_after "master" text ∨ required_after "mba" text in
  let bachelors := required_after "bachelor" text ∨ required_after "degree" text in
  (required = Some (lit "phd") ↔ phd)
  ∧ (required = Some (lit "masters") ↔ ¬ phd ∧ masters)
  ∧ (required = Some (lit "bachelors") ↔ ¬ phd ∧ ¬ masters ∧ bachelors)
  ∧ (required = None ↔ ¬ phd ∧ ¬ masters ∧ ¬ bachelors)
  ∧ (contains (lit "required") text = false → required = None).
Proof.
  intros required phd masters bachelors.
  assert (Hp := required_pattern_found U "phd" "doctorate" text).
  assert (Hm := required_pattern_found U "master" "mba" text).
  assert (Hb := required_pattern_found U "bachelor" "degree" text).
  fold phd in Hp. fold masters in Hm. fold bachelors in Hb.
  assert (Hc : contains (lit "required") text = false → ¬ phd ∧ ¬ masters ∧ ¬ bachelors).
  { intros Hc. repeat split; intros [H|H];
      apply required_after_contains in H; congruence. }
  subst required. unfold _extract_education_requirements.
  destruct (re_search U (required_pattern "phd" "doctorate") text) eqn:Ep.
  { assert (phd) by (apply Hp; reflexivity).
    split_and!; try (split; [discriminate|tauto]); tauto. }
  assert (¬ phd) by (intros H; apply Hp in H; discriminate).
  destruct (re_search U (required_pattern "master" "mba") text) eqn:Em.
  { assert (masters) by (apply Hm; reflexivity).
    split_and!; try (split; [discriminate|tauto]); tauto. }
  assert (¬ masters) by (intros H'; apply Hm in H'; discriminate).
  destruct (re_search U (required_pattern "bachelor" "degree") text) eqn:Eb.
  { assert (bachelors) by (apply Hb; reflexivity).
    split_and!; try (split; [discriminate|tauto]); tauto. }
  assert (¬ bachelors) by (intros H'; apply Hb in H'; discriminate).
  split_and!; try (split; [discriminate|tauto]); tauto.
Qed.

(** ** The keywords of a text *)

Section Keywords.
Context (U : Unicode).

Lemma Counter_elem (words : list str) (k : str) :
  k ∈ fst <$> Counter words ↔ k ∈ words.
Proof.
  unfold Counter.
  assert (H : ∀ d, NoDup (fst <$> d) →
                   NoDup (fst <$> foldl (λ d w, counter_add w d) d words)
                   ∧ (k ∈ fst <$> foldl (λ d w, counter_add w d) d words
                      ↔ k ∈ words ∨ k ∈ fst <$> d)).
  { induction words as [|w words IH]; intros d Hd; simpl.
    - split; [exact Hd|]. split; [intros H; right; exact H|].
      intros [H|H]; [apply elem_of_nil in H; contradiction|exact H].
    - destruct (counter_add_keys w d Hd) as [Hnd Hel].
      destruct (IH _ Hnd) as [IH1 IH2]. split; [exact IH1|].
      rewrite IH2, Hel, elem_of_cons. tauto. }
  destruct (H [] ltac:(constructor)) as [_ ->]. simpl.
  split; [intros [H'|H']; [exact H'|apply elem_of_nil in H'; contradiction]|].
  intros H'. left. exact H'.
Qed.

Lemma ascii_alpha_word (c : char) : ascii_alpha c = true → is_word U c = true.
Proof.
  intros H. unfold is_word.
  assert (Ha : is_ascii c = true).
  { unfold ascii_alpha, ascii_upper, ascii_lower, is_ascii in *.
    apply orb_true_iff in H as [H|H]; apply andb_true_iff in H as [_ H];
      apply N.leb_le in H; apply N.ltb_lt; lia. }
  rewrite Ha. unfold ascii_alnum. rewrite H. reflexivity.
Qed.

Lemma last_take_substr (text : str) (i j : nat) :
  i < j → j ≤ length text → last (take j text) = last (substr text i j).
Proof.
  intros Hij Hj.
  assert (E : take j text = take i text ++ substr text i j).
  { unfold substr. rewrite take_take_drop. f_equal. lia. }
  rewrite E, last_app.
  destruct (last (substr text i j)) eqn:El; [reflexivity|].
  apply last_None in El. apply (f_equal length) in El.
  rewrite length_substr in El by lia. simpl in El. lia.
Qed.

Lemma head_substr (text : str) (i j : nat) :
  i < j → j ≤ length text → head (substr text i j) = text !! i.
Proof.
  intros Hij Hj. unfold substr. rewrite head_lookup, lookup_take_lt by lia.
  rewrite lookup_drop, Nat.add_0_r. reflexivity.
Qed.

(** A match of [\b[a-zA-Z]{3,}\b] is a run of three letters or more
    that stands as a word of its own. *)
Lemma word_pattern_spans (text : str) (i j : nat) :
  spans U word_pattern text i j →
  3 ≤ length (substr text i j)
  ∧ Forall (λ c, ascii_alpha c = true) (substr text i j)
  ∧ standalone U (substr text i j) text.
Proof.
  change word_pattern
    with (RSeq RWordB (RSeq (RRep 3 None (RChar ascii_alpha)) (RSeq RWordB REmpty))).
  intros H.
  apply spans_seq in H as (m1 & H1 & H).
  apply spans_seq in H as (m2 & H2 & H).
  apply spans_seq in H as (m3 & H3 & H4).
  apply spans_wordb in H1 as (<- & _ & Hb1).
  apply spans_rep_char in H2 as (Hle & Hm2 & Hlen & _ & Hall).
  apply spans_wordb in H3 as (<- & _ & Hb2).
  apply spans_empty in H4 as [<- _].
  assert (Hl : length (substr text i m2) = m2 - i) by (apply length_substr; lia).
  split; [lia|]. split; [exact Hall|].
  exists (take i text), (drop m2 text). split; [apply text_split; lia|].
  assert (Hfirst : word_opt U (text !! i) = true).
  { rewrite <- (head_substr text i m2) by lia.
    destruct (substr text i m2) as [|x xs]; [simpl in Hl; lia|].
    apply Forall_cons in Hall as [Hx _]. simpl. apply ascii_alpha_word, Hx. }
  assert (Hlast : word_opt U (last (take m2 text)) = true).
  { rewrite (last_take_substr text i m2) by lia.
    destruct (last (substr text i m2)) as [x|] eqn:El.
    - simpl. apply ascii_alpha_word. rewrite Forall_forall in Hall. apply Hall.
      apply last_Some_elem_of, El.
    - apply last_None in El. rewrite El in Hl. simpl in Hl. lia. }
  unfold boundary in Hb1, Hb2. rewrite Hfirst in Hb1. rewrite Hlast in Hb2.
  rewrite head_drop. split.
  - destruct (word_opt U (last (take i text))); [discriminate|reflexivity].
  - destruct (word_opt U (text !! m2)); [discriminate|reflexivity].
Qed.

Lemma keywords_sound (text : str) (w : str) :
  w ∈ _extract_advanced_keywords U text →
  4 ≤ length w
  ∧ Forall (λ c, ascii_alpha c = true) w
  ∧ w ∉ stop_words
  ∧ standalone U w (lower U text).
Proof.
  unfold _extract_advanced_keywords, most_common. intros Hw.
  rewrite fmap_take in Hw. apply subseteq_take in Hw.
  rewrite (sorted_desc_perm snd) in Hw. apply (proj1 (Counter_elem _ _)) in Hw.
  apply list_elem_of_In, filter_In in Hw as [Hin Hf]. apply list_elem_of_In in Hin.
  apply andb_true_iff in Hf as [Hstop Hlen].
  apply negb_true_iff, bool_decide_eq_false in Hstop.
  apply Z.ltb_lt in Hlen. unfold len in Hlen.
  apply list_elem_of_fmap in Hin as (e & -> & He).
  assert (Hok : groups_ok U (lower U text) (λ _ _ _, True) word_pattern)
    by (simpl; tauto).
  pose proof (findall_sound U (lower U text) _ word_pattern Hok) as Hall.
  rewrite Forall_forall in Hall.
  destruct (Hall e He) as (i & c' & g & -> & Hsp & _).
  change (found_of word_pattern (lower U text) i c' g)
    with (Single (substr (lower U text) i (pos c'))) in *.
  cbn [found_str] in *.
  destruct (word_pattern_spans _ _ _ Hsp) as (_ & Ha & Hs).
  split; [lia|]. split; [exact Ha|]. split; [exact Hstop|exact Hs].
Qed.
End Keywords.

(** The keywords of a text. Every keyword [_extract_advanced_keywords]
    returns has 4 letters or more, consists of the letters a to z and A
    to Z only, is none of the stop words, and occurs in the lower-cased
    text as a word of its own, with no word character right before or
    after it. *)
Theorem keywords_are_whole_words (U : Unicode) (text w : str) :
  w ∈ _extract_advanced_keywords U text →
  4 ≤ length w
  ∧ Forall (λ c, ascii_alpha c = true) w
  ∧ w ∉ stop_words
  ∧ standalone U w (lower U text).
Proof. apply keywords_sound. Qed.

Lemma keywords_are_whole_words_systems :
  4 ≤ length (lit "systems")
  ∧ Forall (λ c, ascii_alpha c = true) (lit "systems")
  ∧ lit "systems" ∉ stop_words
  ∧ standalone ascii_only (lit "systems") (lower ascii_only cpp_resume).
Proof.
  apply (keywords_are_whole_words ascii_only cpp_resume (lit "systems")).
  apply (bool_decide_unpack _). vm_compute. reflexivity.
Defined.

(** ** The contact information *)

Section Contact.
Context (U : Unicode) (text : str).

Lemma contact_entries (contact : list (str * found)) :
  _analyze_contact_info U text = Ok contact →
  ∀ ty v, (ty, v) ∈ contact →
    ∃ p, (ty, p) ∈ contact_patterns U ∧ head (re_findall U p text) = Some v.
Proof.
  unfold _analyze_contact_info.
  assert (H : ∀ (ps : list (str * regex)) acc,
             for_each
               (λ contact_info '(contact_type, pattern),
                  let matches := re_findall U pattern text in
                  if truthy matches
                  then m ← first_item matches; mret (contact_info ++ [(contact_type, m)])
                  else mret contact_info) acc ps = Ok contact →
             ∀ ty v, (ty, v) ∈ contact →
               (ty, v) ∈ acc
               ∨ ∃ p, (ty, p) ∈ ps ∧ head (re_findall U p text) = Some v).
  { induction ps as [|[ty' p] ps IH]; intros acc; cbn [for_each].
    - intros [= <-] ty v Hin. left. exact Hin.
    - destruct (re_findall U p text) as [|m ms] eqn:Ef; cbn [truthy first_item].
      + rewrite bind_Ok. intros Hr ty v Hin.
        destruct (IH acc Hr ty v Hin) as [Ha|(q & Hq & Hh)]; [left; exact Ha|].
        right. exists q. split; [right; exact Hq|exact Hh].
      + rewrite !bind_Ok. intros Hr ty v Hin.
        destruct (IH _ Hr ty v Hin) as [Ha|(q & Hq & Hh)].
        * apply elem_of_app in Ha as [Ha|Ha]; [left; exact Ha|].
          apply list_elem_of_singleton in Ha as [= -> ->].
          right. exists p. split; [left|]. rewrite Ef. reflexivity.
        * right. exists q. split; [right; exact Hq|exact Hh]. }
  intros Hc ty v Hin. destruct (H _ _ Hc ty v Hin) as [Ha|Hp]; [|exact Hp].
  apply elem_of_nil in Ha. contradiction.
Qed.

Lemma span_of_good (Good : nat → nat → nat → Prop) (g : caps) (i a b : nat) :
  caps_good Good g → span_of i g = Some (a, b) → Good i a b.
Proof.
  induction 1 as [|[j [a' b']] g Hj _ IH]; simpl; [discriminate|].
  destruct (Nat.eqb_spec i j) as [->|]; [|exact IH].
  intros [= <- <-]. exact Hj.
Qed.

Lemma head_findall (r : regex) (v : found) (Good : nat → nat → nat → Prop) :
  groups_ok U text Good r →
  head (re_findall U r text) = Some v →
  ∃ i c' g,
    v = found_of r text i c' g
    ∧ spans U r text i (pos c')
    ∧ caps_good Good g
    ∧ ∀ n, sets_group n r = true → is_Some (span_of n g).
Proof.
  intros Hok Hh. pose proof (findall_sound U text Good r Hok) as Hall.
  destruct (re_findall U r text) as [|e l]; [discriminate|].
  injection Hh as ->. apply Forall_cons in Hall as [He _]. exact He.
Qed.

Lemma substr_contains (i j : nat) :
  i ≤ j → j ≤ length text → contains (substr text i j) text = true.
Proof.
  intros H1 H2. apply contains_spec. exists (take i text), (drop j text).
  apply text_split; assumption.
Qed.

(** The handle after [linkedin.com/] or [github.com/]. *)
Lemma handle_spans (a b : nat) :
  spans U r_handle text a b →
  substr text a b ≠ [] ∧ Forall (λ c, handle_char c = true) (substr text a b)
  ∧ contains (substr text a b) text = true.
Proof.
  unfold r_handle, rplus. intros H.
  apply spans_rep_char in H as (Hab & Hb & Hlen & _ & Hall).
  split; [|split; [exact Hall|apply substr_contains; assumption]].
  intros E. apply (f_equal length) in E. rewrite length_substr in E by lia.
  simpl in E. lia.
Qed.

(** The group of the phone pattern: a plus sign, one to three digits
    and at most one separator. *)
Lemma phone_prefix_spans (a b : nat) :
  spans U (rseq [rlit "+"; RRep 1 (Some 3) (rdigit U); ropt r_sep]) text a b →
  head (substr text a b) = Some 43%N ∧ 2 ≤ length (substr text a b) ≤ 5.
Proof.
  change (rseq [rlit "+"; RRep 1 (Some 3) (rdigit U); ropt r_sep])
    with (RSeq (re_escape (lit "+"))
            (RSeq (RRep 1 (Some 3) (RChar (is_digit U))) (RSeq (ropt r_sep) REmpty))).
  intros H.
  apply spans_seq in H as (m1 & H1 & H).
  apply spans_seq in H as (m2 & H2 & H).
  apply spans_seq in H as (m3 & H3 & H4).
  apply spans_escape in H1 as (-> & Hm1 & H1).
  apply spans_rep_char in H2 as (Hle2 & Hm2 & Hlo & Hhi & _).
  specialize (Hhi 3 eq_refl).
  apply spans_empty in H4 as [<- Hm3].
  change (length (lit "+")) with 1 in *.
  assert (Hm : m2 ≤ m3 ∧ m3 ≤ m2 + 1).
  { apply spans_opt in H3 as [[-> _]|[Hlt H3]]; [lia|].
    unfold r_sep in H3. apply spans_char in H3 as [-> _]. lia. }
  split.
  - rewrite (substr_app text a (a + 1) m3) by lia. rewrite H1. reflexivity.
  - rewrite length_substr by lia. lia.
Qed.

Lemma contact_values (contact : list (str * found)) (ty : str) (v : found) :
  _analyze_contact_info U text = Ok contact → (ty, v) ∈ contact →
  ∃ s, v = Single s
    ∧ (ty = lit "email" → (64%N : char) ∈ s ∧ contains s text = true)
    ∧ (ty = lit "phone" → s = [] ∨ (head s = Some 43%N ∧ 2 ≤ length s ≤ 5))
    ∧ (ty = lit "linkedin" ∨ ty = lit "github" →
       s ≠ [] ∧ Forall (λ c, handle_char c = true) s ∧ contains s text = true).
Proof.
  intros Hc Hin. destruct (contact_entries contact Hc ty v Hin) as (p & Hp & Hh).
  unfold contact_patterns in Hp.
  apply elem_of_cons in Hp as [[= -> ->]|Hp];
    [|apply elem_of_cons in Hp as [[= -> ->]|Hp];
      [|apply elem_of_cons in Hp as [[= -> ->]|Hp];
        [|apply list_elem_of_singleton in Hp as [= -> ->]]]].
  - (* email *)
    match type of Hh with head (re_findall U ?pat text) = _ => set (r := pat) in * end.
    destruct (head_findall r v (λ _ _ _, True) ltac:(simpl; tauto) Hh)
      as (i & c' & g & -> & Hsp & _).
    exists (substr text i (pos c')). split; [reflexivity|].
    split; [|split; [intros H; discriminate H|intros [H|H]; discriminate H]].
    intros _. destruct (spans_bounds U text _ _ _ Hsp) as [Hb1 Hb2].
    split; [|apply substr_contains; assumption].
    subst r.
    apply spans_seq in Hsp as (m1 & H1 & Hsp). apply spans_wordb in H1 as (<- & _ & _).
    apply spans_seq in Hsp as (m2 & H2 & Hsp). apply spans_bounds in H2 as [Hl2 _].
    apply spans_seq in Hsp as (m3 & H3 & Hsp).
    apply spans_escape in H3 as (-> & Hm3 & H3).
    apply spans_bounds in Hsp as [Hl4 _].
    change (length (lit "@")) with 1 in *.
    rewrite (substr_app text i m2 (pos c')) by lia.
    rewrite (substr_app text m2 (m2 + 1) (pos c')) by lia.
    rewrite H3. set_solver.
  - (* phone *)
    match type of Hh with head (re_findall U ?pat text) = _ => set (r := pat) in * end.
    set (Good := λ (n a b : nat),
           spans U (rseq [rlit "+"; RRep 1 (Some 3) (rdigit U); ropt r_sep]) text a b).
    assert (Hok : groups_ok U text Good r).
    { subst r. simpl.
      repeat match goal with |- _ ∧ _ => split | |- True => exact I end.
      intros ? ? H'. exact H'. }
    destruct (head_findall r v Good Hok Hh) as (i & c' & g & -> & Hsp & Hg & _).
    exists (group text g 1). split; [reflexivity|].
    split; [intros H; discriminate H|]. split; [|intros [H|H]; discriminate H].
    intros _. unfold group. destruct (span_of 1 g) as [[x y]|] eqn:Es; [|left; reflexivity].
    right. apply (phone_prefix_spans x y). apply (span_of_good Good g 1 x y Hg Es).
  - (* linkedin *)
    match type of Hh with head (re_findall U ?pat text) = _ => set (r := pat) in * end.
    set (Good := λ (n a b : nat), spans U r_handle text a b).
    assert (Hok : groups_ok U text Good r).
    { subst r. simpl.
      repeat match goal with |- _ ∧ _ => split | |- True => exact I end.
      intros ? ? H'. exact H'. }
    destruct (head_findall r v Good Hok Hh) as (i & c' & g & -> & Hsp & Hg & Hs).
    exists (group text g 1). split; [reflexivity|].
    split; [intros H; discriminate H|]. split; [intros H; discriminate H|].
    intros _. destruct (Hs 1 eq_refl) as [[x y] Es]. unfold group. rewrite Es.
    apply handle_spans. apply (span_of_good Good g 1 x y Hg Es).
  - (* github *)
    match type of Hh with head (re_findall U ?pat text) = _ => set (r := pat) in * end.
    set (Good := λ (n a b : nat), spans U r_handle text a b).
    assert (Hok : groups_ok U text Good r).
    { subst r. simpl.
      repeat match goal with |- _ ∧ _ => split | |- True => exact I end.
      intros ? ? H'. exact H'. }
    destruct (head_findall r v Good Hok Hh) as (i & c' & g & -> & Hsp & Hg & Hs).
    exists (group text g 1). split; [reflexivity|].
    split; [intros H; discriminate H|]. split; [intros H; discriminate H|].
    intros _. destruct (Hs 1 eq_refl) as [[x y] Es]. unfold group. rewrite Es.
    apply handle_spans. apply (span_of_good Good g 1 x y Hg Es).
Qed.
End Contact.

(** The contact information. [_analyze_contact_info] returns for
    every text. The email it reports contains an at sign and occurs in
    the text. The phone it reports is the text of the pattern's only
    group, the optional international prefix: it is empty, or a plus
    sign with one to three digits and at most one separator, 2 to 5
    characters in all, and so never the digits of the number itself. The
    linkedin and github entries are handles that occur in the text: not
    empty, made of letters, digits and hyphens. *)
Theorem contact_info_values (U : Unicode) (text : str) :
  ∃ contact,
    _analyze_contact_info U text = Ok contact
    ∧ ∀ ty v, (ty, v) ∈ contact →
        ∃ s, v = Single s
          ∧ (ty = lit "email" → (64%N : char) ∈ s ∧ contains s text = true)
          ∧ (ty = lit "phone" → s = [] ∨ (head s = Some 43%N ∧ 2 ≤ length s ≤ 5))
          ∧ (ty = lit "linkedin" ∨ ty = lit "github" →
             s ≠ [] ∧ Forall (λ c, handle_char c = true) s ∧ contains s text = true).
Proof.
  destruct (is_ok_contact_info U text) as [contact Hc].
  exists contact. split; [exact Hc|]. intros ty v Hin.
  apply (contact_values U text contact ty v Hc Hin).
Qed.

(** ** The education of a resume *)

Section Education.
Context (U : Unicode) (text : str).

Lemma ci_match_same (p : char) : is_ascii p = true → ci_match U p p = true.
Proof. intros H. unfold ci_match. rewrite H. apply N.eqb_refl. Qed.

Lemma spans_chars_i (ps : str) (i : nat) :
  forallb is_ascii ps = true →
  i + length ps ≤ length text →
  substr text i (i + length ps) = ps →
  spans U (foldr (λ p r, RSeq (RChar (ci_match U p)) r) REmpty ps) text i (i + length ps).
Proof.
  revert i. induction ps as [|p ps IH]; intros i Ha Hl Hs.
  - simpl. rewrite Nat.add_0_r. apply spans_empty. split; [reflexivity|].
    simpl in Hl. lia.
  - change (length (p :: ps)) with (S (length ps)) in *.
    simpl in Ha. apply andb_true_iff in Ha as [Hp Ha].
    change (foldr _ REmpty (p :: ps))
      with (RSeq (RChar (ci_match U p))
              (foldr (λ p r, RSeq (RChar (ci_match U p)) r) REmpty ps)).
    rewrite (substr_app text i (S i) (i + S (length ps))) in Hs by lia.
    destruct (lookup_lt_is_Some_2 text i ltac:(lia)) as [x Hx].
    assert (H1 : substr text i (S i) = [x]).
    { unfold substr. replace (S i - i) with 1 by lia. rewrite (drop_S _ _ _ Hx). reflexivity. }
    rewrite H1 in Hs. injection Hs as -> Hs.
    apply spans_seq. exists (S i). split.
    + apply spans_char. split; [reflexivity|]. exists p. split; [exact Hx|].
      apply ci_match_same, Hp.
    + replace (i + S (length ps)) with (S i + length ps) by lia.
      apply IH; [exact Ha|lia|].
      replace (S i + length ps) with (i + S (length ps)) by lia. exact Hs.
Qed.

Lemma standalone_boundaries (s : str) :
  word_ended U s = true → standalone U s text →
  ∃ i, i + length s ≤ length text
       ∧ substr text i (i + length s) = s
       ∧ boundary U (last (take i text)) (text !! i) = true
       ∧ boundary U (last (take (i + length s) text)) (text !! (i + length s)) = true.
Proof.
  unfold word_ended. intros Hw (before & after & Ht & Hb & Ha).
  apply andb_true_iff in Hw as [Hh Hl].
  destruct (substr_of_parts text before s after Ht) as (Hs & Htk & Hdr & Hlen).
  exists (length before). split; [exact Hlen|]. split; [exact Hs|].
  assert (Hne : 0 < length s).
  { destruct s; [discriminate|simpl; lia]. }
  unfold boundary. split.
  - rewrite Htk, Hb.
    rewrite <- (head_substr text (length before) (length before + length s)) by lia.
    rewrite Hs, Hh. reflexivity.
  - rewrite (last_take_substr text (length before)) by lia. rewrite Hs, Hl.
    rewrite <- head_drop, Hdr, Ha. reflexivity.
Qed.

Lemma rword_i_found (x : string) :
  forallb is_ascii (lit x) = true → word_ended U (lit x) = true →
  standalone U (lit x) text → re_search U (rword_i U x) text = true.
Proof.
  intros Ha Hw Hs. apply re_search_spans.
  destruct (standalone_boundaries _ Hw Hs) as (i & Hl & Hsub & Hb1 & Hb2).
  exists i, (i + length (lit x)).
  change (rword_i U x) with (RSeq RWordB (RSeq (rlit_i U x) (RSeq RWordB REmpty))).
  apply spans_seq. exists i. split; [apply spans_wordb; repeat split; [lia|exact Hb1]|].
  apply spans_seq. exists (i + length (lit x)). split.
  { apply spans_chars_i; assumption. }
  apply spans_seq. exists (i + length (lit x)).
  split; [apply spans_wordb; repeat split; [lia|exact Hb2]|].
  apply spans_empty. split; [reflexivity|lia].
Qed.

Lemma rword_s_i_found (x : string) :
  forallb is_ascii (lit x) = true → word_ended U (lit x) = true →
  standalone U (lit x) text → re_search U (rword_s_i U x) text = true.
Proof.
  intros Ha Hw Hs. apply re_search_spans.
  destruct (standalone_boundaries _ Hw Hs) as (i & Hl & Hsub & Hb1 & Hb2).
  exists i, (i + length (lit x)).
  change (rword_s_i U x)
    with (RSeq RWordB (RSeq (rlit_i U x)
            (RSeq (ropt (rset_i U "'s")) (RSeq RWordB REmpty)))).
  apply spans_seq. exists i. split; [apply spans_wordb; repeat split; [lia|exact Hb1]|].
  apply spans_seq. exists (i + length (lit x)). split.
  { apply spans_chars_i; assumption. }
  apply spans_seq. exists (i + length (lit x)).
  split; [apply spans_opt; left; split; [reflexivity|lia]|].
  apply spans_seq. exists (i + length (lit x)).
  split; [apply spans_wordb; repeat split; [lia|exact Hb2]|].
  apply spans_empty. split; [reflexivity|lia].
Qed.

Lemma education_by_levels :
  let found := λ level : string,
    existsb (λ pattern, re_search U pattern text)
      (default [] (dict_get (education_patterns U) (lit level))) in
  _analyze_education U text
  = if found "phd" then (Some (lit "phd"), 100%Z)
    else if found "masters" then (Some (lit "masters"), 85%Z)
    else if found "bachelors" then (Some (lit "bachelors"), 70%Z)
    else if found "associates" then (Some (lit "associates"), 50%Z)
    else (None, 0%Z).
Proof. reflexivity. Qed.

Lemma education_word_found (level : str) (words : list string) (word : string) :
  (level, words) ∈ education_words → word ∈ words →
  standalone U (lit word) text →
  existsb (λ pattern, re_search U pattern text)
    (default [] (dict_get (education_patterns U) level)) = true.
Proof.
  intros Hl Hw Hs. unfold education_words in Hl.
  repeat (apply elem_of_cons in Hl as [[= -> ->]|Hl]);
    [| | | |apply elem_of_nil in Hl; contradiction];
    repeat (apply elem_of_cons in Hw as [->|Hw]);
    try (apply elem_of_nil in Hw; contradiction);
    apply existsb_exists;
    first
      [ (eexists; split; [|apply rword_i_found; [| |exact Hs]; reflexivity];
         solve [repeat (first [left; reflexivity | right])])
      | (eexists; split; [|apply rword_s_i_found; [| |exact Hs]; reflexivity];
         solve [repeat (first [left; reflexivity | right])]) ].
Qed.
End Education.

(** The education read from common words. Whenever one of the words of
    the education patterns stands in the text as a word of its own, even
    the conjunction as or the abbreviations ma, ms, ba and bs,
    [_analyze_education] reports a level, and a score at least that of
    the word's level (phd 100, masters 85, bachelors 70, associates 50):
    a higher level found elsewhere in the text wins. *)
Theorem education_from_common_words (U : Unicode) (text level : str)
    (words : list string) (word : string) :
  (level, words) ∈ education_words → word ∈ words →
  standalone U (lit word) text →
  ∃ found score,
    _analyze_education U text = (Some found, score)
    ∧ (default 0 (dict_get education_scores level) ≤ score)%Z
    ∧ (lit "associates", ["associate"; "as"; "a.s"; "diploma"]%string) ∈ education_words.
Proof.
  intros Hl Hw Hs.
  pose proof (education_word_found U text level words word Hl Hw Hs) as Hf.
  rewrite education_by_levels. cbv zeta.
  assert (Hlast : (lit "associates", ["associate"; "as"; "a.s"; "diploma"]%string)
                    ∈ education_words)
    by (unfold education_words; set_solver).
  unfold education_words in Hl.
  repeat (apply elem_of_cons in Hl as [[= -> ->]|Hl]);
    [| | | |apply elem_of_nil in Hl; contradiction];
    repeat match goal with
           | |- context [if ?c then _ else _] =>
               destruct c eqn:?; [eexists _, _; split; [reflexivity|];
                                  split; [vm_compute; discriminate|exact Hlast]|]
           end;
    congruence.
Qed.

Lemma education_from_common_words_as :
  ∃ found score,
    _analyze_education ascii_only plain_text = (Some found, score)
    ∧ (default 0 (dict_get education_scores (lit "associates")) ≤ score)%Z
    ∧ (lit "associates", ["associate"; "as"; "a.s"; "diploma"]%string) ∈ education_words.
Proof.
  apply (education_from_common_words ascii_only plain_text (lit "associates")
           ["associate"; "as"; "a.s"; "diploma"]%string "as"%string).
  - unfold education_words. set_solver.
  - set_solver.
  - exists (lit "worked "), (lit " a developer on payment systems").
    split; [reflexivity|]. split; reflexivity.
Defined.

(** ** The years of experience *)

Section Years.
Context (U : Unicode) (text : str).

Lemma escape_contains (s : str) (i j : nat) :
  spans U (re_escape s) text i j → contains s text = true.
Proof.
  intros H. apply spans_escape in H as (-> & Hj & Hs).
  rewrite <- Hs. apply substr_contains; [lia|exact Hj].
Qed.

Lemma r_years_spans (i j : nat) : spans U r_years text i j → has_years text = true.
Proof.
  unfold r_years, has_years. intros H. apply orb_true_iff.
  apply spans_alt in H as [H|H]; apply spans_seq in H as (m & H & _);
    [left|right]; apply (escape_contains _ _ _ H).
Qed.

Lemma year_yr_spans (i j : nat) :
  spans U (RAlt (rlit "year") (rlit "yr")) text i j → has_years text = true.
Proof.
  unfold has_years. intros H. apply orb_true_iff.
  apply spans_alt in H as [H|H]; [left|right]; apply (escape_contains _ _ _ H).
Qed.

Lemma findall_nil (r : regex) :
  (∀ i j, ¬ spans U r text i j) → re_findall U r text = [].
Proof.
  intros Hn.
  assert (Hok : groups_ok U text (λ _ _ _, True) r) by (clear; induction r; simpl; tauto).
  pose proof (findall_sound U text _ r Hok) as Hall.
  destruct (re_findall U r text) as [|e l]; [reflexivity|].
  apply Forall_cons in Hall as [(i & c' & g & _ & Hs & _) _].
  exfalso. apply (Hn _ _ Hs).
Qed.

(** Peels a sequence until the part with the word for years. *)
Ltac find_years H :=
  repeat
    (let m := fresh "m" in
     let H1 := fresh "H1" in
     apply spans_seq in H as (m & H1 & H);
     try (apply r_years_spans in H1; exact H1);
     try (apply year_yr_spans in H1; exact H1);
     clear H1).

Lemma experience_patterns_need_years (p : regex) (i j : nat) :
  p ∈ experience_patterns U ++ required_experience_patterns U →
  spans U p text i j → has_years text = true.
Proof.
  intros Hp H.
  apply elem_of_app in Hp as [Hp|Hp];
    [unfold experience_patterns in Hp|unfold required_experience_patterns in Hp];
    repeat (apply elem_of_cons in Hp as [->|Hp]);
    try (apply elem_of_nil in Hp; contradiction);
    cbn [rseq foldr] in H; find_years H.
Qed.

Lemma no_captures_without_years (ps : list regex) :
  (∀ p, p ∈ ps → p ∈ experience_patterns U ++ required_experience_patterns U) →
  has_years text = false → integer_captures U ps text = [].
Proof.
  intros Hps Hn. induction ps as [|p ps IH]; [reflexivity|].
  rewrite integer_captures_cons, IH by (intros q Hq; apply Hps; right; exact Hq).
  rewrite findall_nil; [reflexivity|].
  intros i j Hs.
  rewrite (experience_patterns_need_years p i j (Hps p ltac:(left)) Hs) in Hn.
  discriminate.
Qed.

Lemma experience_without_years :
  has_years text = false →
  _analyze_experience U text = Ok (0%Z, lit "entry-level")
  ∧ _extract_required_experience U text = Ok 0%Z.
Proof.
  intros Hn.
  destruct (analyze_experience_spec U text) as (y & Hy & Hy0 & _).
  destruct (required_experience_spec U text) as (q & Hq & Hq0 & _).
  rewrite Hy, Hq.
  rewrite (Hy0 (no_captures_without_years _
                  ltac:(intros p Hp; apply elem_of_app; left; exact Hp) Hn)).
  rewrite (Hq0 (no_captures_without_years _
                  ltac:(intros p Hp; apply elem_of_app; right; exact Hp) Hn)).
  split; reflexivity.
Qed.

Lemma digits_value_nonneg (s : str) :
  (∀ c d, uni_decimal U c = Some d → (0 ≤ d)%Z) → (0 ≤ digits_value U s)%Z.
Proof.
  intros Hd. unfold digits_value.
  assert (H : ∀ acc, (0 ≤ acc)%Z →
                     (0 ≤ foldl (λ acc c, 10 * acc + default 0 (decimal_value U c)) acc s)%Z).
  { induction s as [|c s IH]; intros acc Ha; simpl; [exact Ha|].
    apply IH.
    assert (Hc : (0 ≤ default 0 (decimal_value U c))%Z).
    { unfold decimal_value. destruct (is_ascii c).
      - destruct (ascii_digit c) eqn:E; simpl; [|lia].
        unfold ascii_digit in E. apply andb_true_iff in E as [E _].
        apply N.leb_le in E. lia.
      - destruct (uni_decimal U c) as [d|] eqn:E; simpl; [apply (Hd c d E)|lia]. }
    lia. }
  apply H. lia.
Qed.

Lemma integer_captures_nonneg (ps : list regex) (n : Z) :
  (∀ c d, uni_decimal U c = Some d → (0 ≤ d)%Z) →
  n ∈ integer_captures U ps text → (0 ≤ n)%Z.
Proof.
  intros Hd Hn. unfold integer_captures in Hn.
  apply list_elem_of_bind in Hn as (p & Hn & _).
  apply list_elem_of_bind in Hn as (m & Hn & _).
  unfold integers_of in Hn. apply list_elem_of_bind in Hn as (s & Hn & _).
  destruct (isdigit U s); [|apply elem_of_nil in Hn; contradiction].
  apply list_elem_of_singleton in Hn as ->. apply digits_value_nonneg, Hd.
Qed.
End Years.

(** Experience is read next to the word for years. When the text
    contains neither year nor yr, no years of experience are found: the
    experience of a resume is 0 with the level entry-level, and the
    experience a job requires is 0, whatever numbers the text holds. *)
Theorem experience_needs_the_word_year (U : Unicode) (text : str) :
  has_years text = false →
  _analyze_experience U text = Ok (0%Z, lit "entry-level")
  ∧ _extract_required_experience U text = Ok 0%Z.
Proof. apply experience_without_years. Qed.

Lemma experience_needs_the_word_year_plain :
  _analyze_experience ascii_only plain_text = Ok (0%Z, lit "entry-level")
  ∧ _extract_required_experience ascii_only plain_text = Ok 0%Z.
Proof.
  apply (experience_needs_the_word_year ascii_only plain_text).
  vm_compute. reflexivity.
Defined.



(** ** Words, lines and paragraphs *)

Lemma lstrip_nonblank (s : str) : truthy (lstrip s) = nonblank s.
Proof.
  induction s as [|c s IH]; [reflexivity|].
  simpl. destruct (isspace c); [exact IH|reflexivity].
Qed.

Lemma nonblank_app (a b : str) : nonblank (a ++ b) = nonblank a || nonblank b.
Proof. unfold nonblank. apply existsb_app. Qed.

Lemma nonblank_reverse (s : str) : nonblank (reverse s) = nonblank s.
Proof.
  induction s as [|c s IH]; [reflexivity|].
  rewrite reverse_cons, nonblank_app, IH. simpl.
  rewrite orb_false_r. apply orb_comm.
Qed.

Lemma lstrip_head (s : str) (c : char) (t : str) :
  lstrip s = c :: t → isspace c = false.
Proof.
  induction s as [|a s IH]; [discriminate|].
  simpl. destruct (isspace a) eqn:E; [exact IH|].
  intros H. injection H as <- _. exact E.
Qed.

Lemma truthy_strip (p : str) : truthy (strip p) = nonblank p.
Proof.
  unfold strip. rewrite <- (lstrip_nonblank p).
  destruct (lstrip p) as [|c t] eqn:E; [reflexivity|].
  pose proof (lstrip_head p c t E) as Hc.
  assert (H : truthy (lstrip (reverse (c :: t))) = true).
  { rewrite lstrip_nonblank, nonblank_reverse. simpl. rewrite Hc. reflexivity. }
  destruct (lstrip (reverse (c :: t))) as [|x u] eqn:E2; [discriminate|].
  rewrite reverse_cons. simpl. destruct (reverse u ++ [x]) eqn:E3; [|reflexivity].
  destruct (reverse u); discriminate.
Qed.

Lemma count_cons {A} (p : A → bool) (x : A) (l : list A) :
  length (filter (λ y, p y = true) (x :: l))
  = (if p x then 1 else 0) + length (filter (λ y, p y = true) l).
Proof.
  rewrite filter_cons. destruct (decide (p x = true)) as [E|E].
  - rewrite E. reflexivity.
  - destruct (p x); [contradiction|reflexivity].
Qed.

Lemma count_pieces_cons (x : str) (l : list str) :
  length (filter (λ p, truthy (strip p) = true) (x :: l))
  = (if nonblank x then 1 else 0) + length (filter (λ p, truthy (strip p) = true) l).
Proof. rewrite (count_cons (λ p, truthy (strip p))), truthy_strip. reflexivity. Qed.

Lemma is_prefix_whitespace (sep : str) (c : char) (s : str) :
  forallb isspace sep = true → is_prefix sep (c :: s) = true → sep ≠ [] →
  isspace c = true ∧ forallb isspace (take (length sep - 1) s) = true
  ∧ nonblank (drop (length sep - 1) s) = nonblank s.
Proof.
  intros Hsep Hp Hne. apply is_prefix_spec in Hp as [t Ht].
  destruct sep as [|a sep]; [contradiction|].
  simpl in Ht. injection Ht as -> ->. simpl in Hsep.
  apply andb_true_iff in Hsep as [Ha Hs].
  cbn [length]. rewrite Nat.sub_succ, Nat.sub_0_r.
  rewrite take_app_length, drop_app_length, nonblank_app.
  split; [exact Ha|]. split; [exact Hs|].
  assert (Hb : nonblank sep = false).
  { unfold nonblank. apply not_true_is_false. intros H.
    apply existsb_exists in H as (x & Hx & Hnx).
    rewrite forallb_forall in Hs. rewrite (Hs x Hx) in Hnx. discriminate. }
  rewrite Hb. reflexivity.
Qed.

(** The pieces between separators of whitespace that are not blank are
    at most as many as the words. *)
Lemma pieces_le_words (sep : str) :
  forallb isspace sep = true → sep ≠ [] →
  ∀ (s : str) (skip : nat) (cur curW : str),
    forallb isspace (take skip s) = true →
    length (filter (λ p, truthy (strip p) = true) (split_on_aux sep skip cur s))
    ≤ length (split_ws_aux curW s)
      + (if nonblank cur && negb (truthy curW) then 1 else 0).
Proof.
  intros Hsep Hne. induction s as [|c s IH]; intros skip cur curW Hskip.
  - simpl. rewrite count_pieces_cons, nonblank_reverse. simpl.
    destruct (nonblank cur), curW; simpl; lia.
  - cbn [split_on_aux split_ws_aux]. destruct skip as [|n].
    + destruct (is_prefix sep (c :: s)) eqn:Ep.
      * destruct (is_prefix_whitespace sep c s Hsep Ep Hne) as (Hc & Hs & _).
        rewrite Hc, count_pieces_cons, nonblank_reverse.
        specialize (IH (length sep - 1) [] [] Hs). simpl in IH.
        destruct (nonblank cur), curW; simpl; lia.
      * destruct (isspace c) eqn:Ec.
        -- specialize (IH 0 (c :: cur) [] eq_refl).
           change (nonblank (c :: cur)) with (negb (isspace c) || nonblank cur) in IH.
           rewrite Ec in IH. simpl in IH.
           destruct (nonblank cur), curW; simpl in *; lia.
        -- specialize (IH 0 (c :: cur) (c :: curW) eq_refl).
           simpl in IH. rewrite andb_false_r in IH. lia.
    + simpl in Hskip. apply andb_true_iff in Hskip as [Hc Hs]. rewrite Hc.
      specialize (IH n cur [] Hs). simpl in IH. rewrite andb_true_r in IH.
      destruct (nonblank cur), curW; simpl in *; lia.
Qed.

(** The paragraphs that are not blank are at most as many as the lines
    that are not blank. *)
Lemma paragraphs_le_lines (s : str) :
  ∀ (skip : nat) (cur2 cur1 : str),
    forallb isspace (take skip s) = true →
    length (filter (λ p, truthy (strip p) = true)
              (split_on_aux [10%N; 10%N] skip cur2 s))
    ≤ length (filter (λ p, truthy (strip p) = true) (split_on_aux [10%N] 0 cur1 s))
      + (if nonblank cur2 && negb (nonblank cur1) then 1 else 0).
Proof.
  induction s as [|c s IH]; intros skip cur2 cur1 Hskip.
  - simpl. rewrite !count_pieces_cons, !nonblank_reverse. simpl.
    destruct (nonblank cur2), (nonblank cur1); simpl; lia.
  - cbn [split_on_aux].
    assert (Hnl : is_prefix [10%N] (c :: s) = (10 =? c)%N)
      by (simpl; apply andb_true_r).
    rewrite Hnl. change (length [10%N] - 1) with 0.
    change (length [10%N; 10%N] - 1) with 1.
    destruct skip as [|n].
    + destruct (is_prefix [10%N; 10%N] (c :: s)) eqn:Ep.
      * destruct (is_prefix_whitespace [10%N; 10%N] c s eq_refl Ep ltac:(discriminate))
          as (_ & Hs & _).
        assert (Hc : (10 =? c)%N = true).
        { simpl in Ep. apply andb_true_iff in Ep as [Ep _]. exact Ep. }
        rewrite Hc, !count_pieces_cons, !nonblank_reverse.
        specialize (IH 1 [] [] Hs). simpl in IH.
        destruct (nonblank cur2), (nonblank cur1); simpl; lia.
      * destruct (10 =? c)%N eqn:Ec.
        -- assert (Hc : isspace c = true)
             by (apply N.eqb_eq in Ec as <-; reflexivity).
           rewrite count_pieces_cons, nonblank_reverse.
           specialize (IH 0 (c :: cur2) [] eq_refl).
           change (nonblank (c :: cur2)) with (negb (isspace c) || nonblank cur2) in IH.
           rewrite Hc in IH. simpl in IH. rewrite andb_true_r in IH.
           destruct (nonblank cur2), (nonblank cur1); simpl in *; lia.
        -- specialize (IH 0 (c :: cur2) (c :: cur1) eq_refl).
           change (nonblank (c :: cur2)) with (negb (isspace c) || nonblank cur2) in IH.
           change (nonblank (c :: cur1)) with (negb (isspace c) || nonblank cur1) in IH.
           destruct (isspace c), (nonblank cur2), (nonblank cur1); simpl in *; lia.
    + simpl in Hskip. apply andb_true_iff in Hskip as [Hc Hs].
      destruct (10 =? c)%N eqn:Ec.
      * rewrite count_pieces_cons, nonblank_reverse.
        specialize (IH n cur2 [] Hs). simpl in IH. rewrite andb_true_r in IH.
        destruct (nonblank cur2), (nonblank cur1); simpl in *; lia.
      * specialize (IH n cur2 (c :: cur1) Hs).
        change (nonblank (c :: cur1)) with (negb (isspace c) || nonblank cur1) in IH.
        rewrite Hc in IH. simpl in IH. exact IH.
Qed.

(** A text that is not blank has a piece that is not blank. *)
Lemma pieces_pos (sep : str) :
  forallb isspace sep = true → sep ≠ [] →
  ∀ (s : str) (skip : nat) (cur : str),
    nonblank cur || nonblank (drop skip s) = true →
    1 ≤ length (filter (λ p, truthy (strip p) = true) (split_on_aux sep skip cur s)).
Proof.
  intros Hsep Hne. induction s as [|c s IH]; intros skip cur H.
  - simpl. rewrite count_pieces_cons, nonblank_reverse.
    rewrite drop_nil, orb_false_r in H. rewrite H. simpl. lia.
  - cbn [split_on_aux]. destruct skip as [|n].
    + rewrite drop_0 in H. destruct (is_prefix sep (c :: s)) eqn:Ep.
      * destruct (is_prefix_whitespace sep c s Hsep Ep Hne) as (Hc & _ & Hd).
        rewrite count_pieces_cons, nonblank_reverse.
        destruct (nonblank cur) eqn:Ecur; [lia|].
        simpl in H. rewrite Hc in H. simpl in H.
        specialize (IH (length sep - 1) []). rewrite Hd in IH. simpl in IH.
        specialize (IH H). lia.
      * apply IH. rewrite drop_0.
        change (nonblank (c :: cur)) with (negb (isspace c) || nonblank cur).
        change (nonblank (c :: s)) with (negb (isspace c) || nonblank s) in H.
        destruct (isspace c), (nonblank cur), (nonblank s); simpl in *; congruence.
    + apply IH. exact H.
Qed.

Lemma text_counts (text : str) :
  0 < length (strip text) →
  (1 ≤ count_if (λ p, truthy (strip p)) (split_on [10%N; 10%N] text)
   ∧ count_if (λ p, truthy (strip p)) (split_on [10%N; 10%N] text)
     ≤ count_if (λ line, truthy (strip line)) (split_on [10%N] text)
   ∧ count_if (λ line, truthy (strip line)) (split_on [10%N] text)
     ≤ len (split_ws text)
   ∧ len (split_ws text) ≤ len text)%Z.
Proof.
  intros H. unfold count_if, split_on, split_ws.
  assert (Hnb : nonblank text = true).
  { rewrite <- truthy_strip. destruct (strip text); [simpl in H; lia|reflexivity]. }
  pose proof (pieces_pos [10%N; 10%N] eq_refl ltac:(discriminate) text 0 []) as H1.
  rewrite drop_0, Hnb in H1. specialize (H1 eq_refl).
  pose proof (paragraphs_le_lines text 0 [] [] eq_refl) as H2. simpl in H2.
  pose proof (pieces_le_words [10%N] eq_refl ltac:(discriminate) text 0 [] [] eq_refl)
    as H3. simpl in H3.
  destruct (word_count_bounds text H) as [_ H4]. unfold len, split_ws in H4.
  unfold len. lia.
Qed.



(** ** A resume that names more *)

Lemma round_half_even_mono (q q' : Q) :
  (q <= q')%Q → (round_half_even q ≤ round_half_even q')%Z.
Proof.
  intros H. unfold round_half_even.
  pose proof (Qfloor_resp_le q q' H) as Hf.
  pose proof (Qfloor_le q) as Hlo. pose proof (Qlt_floor q) as Hhi.
  pose proof (Qfloor_le q') as Hlo'. pose proof (Qlt_floor q') as Hhi'.
  rewrite inject_Z_plus in Hhi, Hhi'. change (inject_Z 1) with 1%Q in Hhi, Hhi'.
  destruct (Z.eq_dec (Qfloor q) (Qfloor q')) as [E|E].
  - rewrite <- E in *.
    destruct (q - inject_Z (Qfloor q) ?= 1 # 2)%Q eqn:C;
      destruct (q' - inject_Z (Qfloor q) ?= 1 # 2)%Q eqn:C';
      try (destruct (Z.even (Qfloor q))); try lia; exfalso;
      repeat match goal with
        | H : (_ ?= _)%Q = Eq |- _ => apply Qeq_alt in H
        | H : (_ ?= _)%Q = Lt |- _ => apply Qlt_alt in H
        | H : (_ ?= _)%Q = Gt |- _ => apply Qgt_alt in H
        end; lra.
  - destruct (q - inject_Z (Qfloor q) ?= 1 # 2)%Q;
      destruct (q' - inject_Z (Qfloor q') ?= 1 # 2)%Q;
      try (destruct (Z.even (Qfloor q))); try (destruct (Z.even (Qfloor q'))); lia.
Qed.

Lemma round1_mono (q q' : Q) : (q <= q')%Q → (round1 q <= round1 q')%Q.
Proof.
  intros H. unfold round1.
  apply Qmult_le_compat_r with (z := (/ 10)%Q); [|discriminate].
  rewrite <- Zle_Qle. apply round_half_even_mono. lra.
Qed.

Lemma overlap_score_mono (matches matches' wanted : gset str) (d q q' : Q) :
  matches ⊆ matches' →
  overlap_score matches wanted d = Ok q → overlap_score matches' wanted d = Ok q' →
  (q <= q')%Q.
Proof.
  intros Hsub Hq Hq'.
  destruct (overlap_score_ok matches wanted d) as (x & Hx & He & Hn).
  destruct (overlap_score_ok matches' wanted d) as (x' & Hx' & He' & Hn').
  rewrite Hq in Hx. rewrite Hq' in Hx'. injection Hx as <-. injection Hx' as <-.
  destruct (decide (wanted = ∅)) as [Hw|Hw].
  - rewrite (He Hw), (He' Hw). apply Qle_refl.
  - rewrite (Hn Hw), (Hn' Hw).
    assert (Hs : size wanted ≠ 0)
      by (intros H0; apply Hw, leibniz_equiv, size_empty_iff, H0).
    pose proof (subseteq_size matches matches' Hsub) as Hle.
    apply Qmult_le_compat_r; [|discriminate].
    apply Qmult_le_compat_r.
    + rewrite <- Zle_Qle. lia.
    + apply Qinv_le_0_compat. change 0%Q with (inject_Z 0%Z). rewrite <- Zle_Qle. lia.
Qed.

Lemma set_of_subseteq (l l' : list str) : l ⊆ l' → set_of l ⊆ set_of l'.
Proof.
  intros H x. unfold set_of. rewrite !elem_of_list_to_set. apply H.
Qed.

Lemma scores_mono (O : SetOrder) (r r' : Resume.t) (j : Job.t) :
  Resume.technical_skills r ⊆ Resume.technical_skills r' →
  Resume.soft_skills r ⊆ Resume.soft_skills r' →
  Resume.keywords r ⊆ Resume.keywords r' →
  Resume.experience_years r' = Resume.experience_years r →
  Resume.education_level r' = Resume.education_level r →
  Resume.detected_industry r' = Resume.detected_industry r →
  (0 <= Resume.ats_compatibility_score r)%Q →
  (Resume.ats_compatibility_score r <= Resume.ats_compatibility_score r')%Q →
  ∃ m m',
    calculate_advanced_match_score O r j = Ok m
    ∧ calculate_advanced_match_score O r' j = Ok m'
    ∧ (Match.technical_score m <= Match.technical_score m')%Q
    ∧ (Match.soft_skills_score m <= Match.soft_skills_score m')%Q
    ∧ (Match.keyword_score m <= Match.keyword_score m')%Q
    ∧ Match.experience_score m' = Match.experience_score m
    ∧ Match.education_score m' = Match.education_score m
    ∧ Match.industry_score m' = Match.industry_score m
    ∧ (Match.overall_score m <= Match.overall_score m')%Q
    ∧ Match.missing_technical_skills m' ⊆ Match.missing_technical_skills m
    ∧ Match.missing_soft_skills m' ⊆ Match.missing_soft_skills m.
Proof.
  intros Ht Hs Hk Hy Hd Hi Ha0 Ha.
  apply set_of_subseteq in Ht, Hs, Hk.
  destruct (match_scores_ok r j) as (t & s & k & Et & Es & Ek & Hsc).
  destruct (match_scores_ok r' j) as (t' & s' & k' & Et' & Es' & Ek' & Hsc').
  rewrite Hy, Hd, Hi in Hsc'.
  destruct (calculate_scores O r j _ Hsc)
    as (m & Hm & Ho & Hmt & Hms & Hme & Hmd & Hmi & Hmk & _).
  destruct (calculate_scores O r' j _ Hsc')
    as (m' & Hm' & Ho' & Hmt' & Hms' & Hme' & Hmd' & Hmi' & Hmk' & _).
  destruct (calculate_result O r j) as (? & m1 & _ & Hm1 & _ & Hxt & _ & Hxs & _).
  destruct (calculate_result O r' j) as (? & m1' & _ & Hm1' & _ & Hxt' & _ & Hxs' & _).
  rewrite Hm in Hm1. rewrite Hm' in Hm1'.
  apply Ok_inj in Hm1, Hm1'. subst m1 m1'.
  exists m, m'. split; [exact Hm|]. split; [exact Hm'|].
  cbn [tech_score soft_score exp_score edu_score ind_score kw_score final_score] in *.
  assert (Htt : (t <= t')%Q).
  { eapply overlap_score_mono; [|exact Et|exact Et']. set_solver. }
  assert (Hss : (s <= s')%Q).
  { eapply overlap_score_mono; [|exact Es|exact Es']. set_solver. }
  assert (Hkk : (k <= k')%Q).
  { eapply overlap_score_mono; [|exact Ek|exact Ek']. set_solver. }
  assert (Ht0 : (0 <= t)%Q) by (eapply overlap_score_bounds; [exact Et|discriminate]).
  assert (Hs0 : (0 <= s)%Q) by (eapply overlap_score_bounds; [exact Es|discriminate]).
  assert (Hk0 : (0 <= k)%Q) by (eapply overlap_score_bounds; [exact Ek|apply Qle_refl]).
  rewrite Hmt, Hmt', Hms, Hms', Hmk, Hmk', Hme, Hme', Hmd, Hmd', Hmi, Hmi', Ho, Ho'.
  rewrite Hxt, Hxt', Hxs, Hxs'.
  split_and!; try reflexivity.
  - apply round1_mono, Htt.
  - apply round1_mono, Hss.
  - apply round1_mono, Hkk.
  - apply round1_mono.
    set (e := _calculate_experience_score _ _).
    set (d := _calculate_education_score _ _).
    set (i := _calculate_industry_alignment _ _).
    pose proof (experience_score_nonneg (Resume.experience_years r)
                  (Job.experience_required j)) as He0.
    pose proof (education_score_ge_25 (Resume.education_level r)
                  (Job.education_required j)) as Hd0.
    pose proof (industry_alignment_ge_50 (Resume.detected_industry r) (Job.industry j))
      as Hi0.
    fold e in He0. fold d in Hd0. fold i in Hi0.
    assert (HW : (weighted_sum t s e d i k <= weighted_sum t' s' e d i k')%Q)
      by (unfold weighted_sum; lra).
    assert (HW0 : (0 <= weighted_sum t s e d i k)%Q) by (unfold weighted_sum; lra).
    set (W := weighted_sum t s e d i k) in *.
    set (W' := weighted_sum t' s' e d i k') in *.
    set (a := Resume.ats_compatibility_score r) in *.
    set (a' := Resume.ats_compatibility_score r') in *.
    rewrite !Qdiv_100.
    assert (HF : (0.7 + 0.3 * (a * (1 # 100)) <= 0.7 + 0.3 * (a' * (1 # 100)))%Q) by lra.
    assert (HF0 : (0 <= 0.7 + 0.3 * (a * (1 # 100)))%Q) by lra.
    eapply Qle_trans.
    + apply Qmult_le_compat_r; [exact HW|exact HF0].
    + rewrite !(Qmult_comm W'). apply Qmult_le_compat_r; [exact HF|lra].
  - unfold to_list. intros z. rewrite !set_iter_elem. set_solver.
  - unfold to_list. intros z. rewrite !set_iter_elem. set_solver.
Qed.



(** ** A job posting used as the resume *)

Lemma to_list_empty (O : SetOrder) : to_list O ∅ = [].
Proof.
  unfold to_list. destruct (set_iter O ∅) as [|x l] eqn:E; [reflexivity|].
  assert (H : x ∈ set_iter O ∅) by (rewrite E; left).
  apply set_iter_elem in H. apply not_elem_of_empty in H. contradiction.
Qed.

Lemma overlap_same (X : gset str) (d q : Q) :
  overlap_score (X ∩ X) X d = Ok q →
  (X ≠ ∅ → (q == 100)%Q) ∧ (X = ∅ → q = d).
Proof.
  rewrite (intersection_idemp_L X). intros Hq.
  destruct (overlap_score_ok X X d) as (q' & Hq' & He & Hn).
  rewrite Hq in Hq'. injection Hq' as <-. split.
  - intros Hne. rewrite (Hn Hne). apply ratio_score_full, Hne.
  - exact He.
Qed.

Lemma posting_as_resume_scores (U : Unicode) (O : SetOrder) (text : str) :
  50 ≤ length (strip text) →
  ∃ resume_facts job_facts m,
    analyze_resume U text = Ok resume_facts
    ∧ analyze_job_description U text = Ok job_facts
    ∧ calculate_advanced_match_score O resume_facts job_facts = Ok m
    ∧ Resume.technical_skills resume_facts = Job.technical_skills job_facts
    ∧ Resume.soft_skills resume_facts = Job.soft_skills job_facts
    ∧ Resume.keywords resume_facts = Job.keywords job_facts
    ∧ Resume.detected_industry resume_facts = Job.industry job_facts
    ∧ (Match.technical_score m == 100)%Q
    ∧ (Match.soft_skills_score m == 100)%Q
    ∧ (Match.industry_score m == 100)%Q
    ∧ (Job.keywords job_facts ≠ [] → (Match.keyword_score m == 100)%Q)
    ∧ (Job.keywords job_facts = [] → (Match.keyword_score m == 0)%Q)
    ∧ Match.missing_technical_skills m = []
    ∧ Match.missing_soft_skills m = []
    ∧ Match.top_skill_gaps m = []
    ∧ (54 <= Match.overall_score m)%Q
    ∧ Match.match_strength m ≠ lit "poor".
Proof.
  intros Hge.
  destruct (analyze_resume_fields U text Hge)
    as (rf & y & c & i & a & Hrf & Hy & Hc & Hi & Ha & Hwc & Hcc & Hts & Hss & Hey & Hel
        & Hedl & Heds & Hci & Hq & Hkw & Hdi & Hats).
  destruct (analyze_job_description_fields U text Hge)
    as (jf & y' & i' & a' & Hjf & Hy' & Hi' & Ha' & Hjts & Hjss & Her & Hjl & Hed & Hrem
        & Hcs & Hir & Hu & Hcp & Hjkw & Hin & Hjc).
  rewrite Hi in Hi'. apply Ok_inj in Hi'. subst i'.
  destruct (detect_industry_known _ _ Hi) as [_ Hine].
  destruct (ats_value U text) as (a0 & Ha0 & _ & Hlo & _).
  rewrite Ha in Ha0. apply Ok_inj in Ha0. subst a0.
  assert (Et : Resume.technical_skills rf = Job.technical_skills jf)
    by (rewrite Hts, Hjts; reflexivity).
  assert (Es : Resume.soft_skills rf = Job.soft_skills jf)
    by (rewrite Hss, Hjss; reflexivity).
  assert (Ek : Resume.keywords rf = Job.keywords jf)
    by (rewrite Hkw, Hjkw; reflexivity).
  assert (Ei : Resume.detected_industry rf = Job.industry jf)
    by (rewrite Hdi, Hin; reflexivity).
  destruct (match_scores_ok rf jf) as (t & s & k & Ht & Hs & Hk & Hsc).
  destruct (calculate_scores O rf jf _ Hsc)
    as (m & Hm & Hmo & Hmt & Hms & _ & _ & Hmi & Hmk & _ & Hst).
  destruct (calculate_unfold O rf jf _ Hsc) as (m1 & Hm1 & _ & _ & _ & _ & _ & _ & Hxt & Hgap).
  destruct (calculate_result O rf jf) as (sc2 & m2 & _ & Hm2 & _ & _ & _ & Hxs & _).
  rewrite Hm in Hm1, Hm2. apply Ok_inj in Hm1, Hm2. subst m1 m2.
  exists rf, jf, m.
  split; [exact Hrf|]. split; [exact Hjf|]. split; [exact Hm|].
  split; [exact Et|]. split; [exact Es|]. split; [exact Ek|]. split; [exact Ei|].
  cbn [tech_score soft_score ind_score kw_score final_score] in *.
  rewrite Et in Ht, Hxt, Hgap. rewrite Es in Hs, Hxs. rewrite Ek in Hk.
  apply overlap_same in Ht as [Ht1 Ht0], Hs as [Hs1 Hs0], Hk as [Hk1 Hk0].
  assert (Ht100 : (t == 100)%Q).
  { destruct (decide (set_of (Job.technical_skills jf) = ∅)) as [E|E].
    - rewrite (Ht0 E). reflexivity.
    - exact (Ht1 E). }
  assert (Hs100 : (s == 100)%Q).
  { destruct (decide (set_of (Job.soft_skills jf) = ∅)) as [E|E].
    - rewrite (Hs0 E). reflexivity.
    - exact (Hs1 E). }
  assert (Hi100 : _calculate_industry_alignment (Resume.detected_industry rf)
                    (Job.industry jf) = 100%Q).
  { rewrite Ei, Hin. rewrite industry_alignment_known by exact Hine.
    rewrite bool_decide_eq_true_2 by reflexivity. reflexivity. }
  assert (Hkset : set_of (Job.keywords jf) = ∅ ↔ Job.keywords jf = []).
  { unfold set_of. split.
    - intros E. destruct (Job.keywords jf) as [|w l]; [reflexivity|].
      exfalso. assert (Hw : w ∈ (list_to_set (w :: l) : gset str))
        by (apply elem_of_list_to_set; left).
      rewrite E in Hw. apply not_elem_of_empty in Hw. exact Hw.
    - intros ->. reflexivity. }
  assert (Hk01 : (0 <= k)%Q).
  { destruct (decide (set_of (Job.keywords jf) = ∅)) as [E|E].
    - rewrite (Hk0 E). apply Qle_refl.
    - rewrite (Hk1 E). discriminate. }
  rewrite difference_diag_L in Hxt, Hxs, Hgap.
  rewrite Hmt, Hms, Hmi, Hmk, Hxt, Hxs, Hgap, Hmo, Hst.
  assert (Hfin : (54 <= (weighted_sum t s
             (_calculate_experience_score (Resume.experience_years rf)
                (Job.experience_required jf))
             (_calculate_education_score (Resume.education_level rf)
                (Job.education_required jf))
             (_calculate_industry_alignment (Resume.detected_industry rf)
                (Job.industry jf)) k
           * (0.7 + 0.3 * (Resume.ats_compatibility_score rf / 100))))%Q).
  { rewrite Hi100, Hats.
    pose proof (experience_score_nonneg (Resume.experience_years rf)
                  (Job.experience_required jf)) as He0.
    pose proof (education_score_ge_25 (Resume.education_level rf)
                  (Job.education_required jf)) as Hd0.
    set (e := _calculate_experience_score _ _) in *.
    set (d := _calculate_education_score _ _) in *.
    assert (HW : (62.5 <= weighted_sum t s e d 100 k)%Q)
      by (unfold weighted_sum; lra).
    set (W := weighted_sum t s e d 100 k) in *.
    rewrite Qdiv_100.
    assert (HF : (0.865 <= 0.7 + 0.3 * (a * (1 # 100)))%Q) by lra.
    eapply Qle_trans; [|apply Qmult_le_compat_r; [exact HW|lra]].
    eapply Qle_trans; [|rewrite Qmult_comm; apply Qmult_le_compat_r; [exact HF|lra]].
    discriminate. }
  split_and!.
  - rewrite (round1_comp _ _ Ht100). apply (round1_integer 100).
  - rewrite (round1_comp _ _ Hs100). apply (round1_integer 100).
  - rewrite Hi100. apply (round1_integer 100).
  - intros Hne. assert (E : set_of (Job.keywords jf) ≠ ∅) by (rewrite Hkset; exact Hne).
    rewrite (round1_comp _ _ (Hk1 E)). apply (round1_integer 100).
  - intros He. apply Hkset in He. rewrite (Hk0 He). apply (round1_integer 0).
  - apply to_list_empty.
  - apply to_list_empty.
  - unfold _identify_top_skill_gaps. rewrite bool_decide_eq_true_2 by reflexivity.
    reflexivity.
  - eapply Qle_trans; [|apply (round1_ge 540); unfold inject_Z; lra]. discriminate.
  - set (f := (weighted_sum _ _ _ _ _ _ * _)%Q) in *.
    clearbody f. clear - Hfin. intros E.
    destruct (categorize_match_strength_cases f)
      as [[E' _]|[(E' & _)|[(E' & _)|[_ Hlt]]]].
    + rewrite E in E'. vm_compute in E'. discriminate E'.
    + rewrite E in E'. vm_compute in E'. discriminate E'.
    + rewrite E in E'. vm_compute in E'. discriminate E'.
    + lra.
Qed.



(** ** Skills that decide other facts of a job *)

Lemma found_skill_contains (U : Unicode) (skill text : str) (catalog : list str) :
  catalog ⊆ all_technical_skills ++ soft_skills → skill ∉ symbol_ended →
  skill ∈ List.filter (λ skill, re_search U (skill_pattern U skill) text) catalog →
  ∃ before after, text = before ++ skill ++ after.
Proof.
  intros Hcat Hsym Hin.
  apply list_elem_of_In, filter_In in Hin as [Hin Hre]. apply list_elem_of_In in Hin.
  destruct (catalog_entry U skill (Hcat _ Hin) Hsym) as [Hl Hw].
  apply (skill_found U skill text Hl Hw) in Hre as (before & after & Ht & _).
  exists before, after. exact Ht.
Qed.

Lemma contains_part (a part b text before after : str) :
  text = before ++ (a ++ part ++ b) ++ after → contains part text = true.
Proof.
  intros ->. apply contains_spec. exists (before ++ a), (b ++ after).
  rewrite <- !app_assoc. reflexivity.
Qed.

Lemma senior_by_indicator (text indicator : str) :
  indicator ∈ default [] (dict_get job_level_patterns (lit "senior")) →
  contains indicator text = true →
  _determine_job_level text = lit "Senior".
Proof.
  intros Hin Hc. unfold _determine_job_level, job_level_patterns.
  cbn [job_level_scan].
  set (l := lit <$> _) in *.
  assert (He : existsb (λ indicator, contains indicator text) l = true).
  { apply existsb_exists. exists indicator. split; [|exact Hc].
    apply list_elem_of_In. exact Hin. }
  rewrite He. vm_compute. reflexivity.
Qed.

Lemma skills_and_level (U : Unicode) (text : str) :
  50 ≤ length (strip text) →
  ∃ facts,
    analyze_job_description U text = Ok facts
    ∧ (lit "leadership" ∈ Job.soft_skills facts
       ∨ lit "clean architecture" ∈ Job.technical_skills facts
       ∨ lit "event-driven architecture" ∈ Job.technical_skills facts →
       Job.job_level facts = lit "Senior")
    ∧ (lit "remote work" ∈ Job.soft_skills facts →
       Job.remote_friendly facts = true ∧ Job.is_remote_friendly facts = true).
Proof.
  intros Hge.
  destruct (analyze_job_description_fields U text Hge)
    as (facts & y & i & a & Hf & _ & _ & _ & Hts & Hss & _ & Hjl & _ & Hrf & _ & Hir & _).
  exists facts. split; [exact Hf|].
  rewrite Hts, Hss, Hjl, Hrf, Hir. unfold _analyze_skills. cbn [fst snd].
  assert (Ht : all_technical_skills ⊆ all_technical_skills ++ soft_skills)
    by (intros x Hx; apply elem_of_app; left; exact Hx).
  assert (Hs : soft_skills ⊆ all_technical_skills ++ soft_skills)
    by (intros x Hx; apply elem_of_app; right; exact Hx).
  split.
  - intros [H|[H|H]].
    + apply (found_skill_contains U _ _ _ Hs) in H as (before & after & H);
        [|apply (bool_decide_unpack _); vm_compute; reflexivity].
      apply (senior_by_indicator _ (lit "lead"));
        [apply (bool_decide_unpack _); vm_compute; reflexivity|].
      apply (contains_part [] (lit "lead") (lit "ership") _ before after). exact H.
    + apply (found_skill_contains U _ _ _ Ht) in H as (before & after & H);
        [|apply (bool_decide_unpack _); vm_compute; reflexivity].
      apply (senior_by_indicator _ (lit "architect"));
        [apply (bool_decide_unpack _); vm_compute; reflexivity|].
      apply (contains_part (lit "clean ") (lit "architect") (lit "ure") _ before after).
      exact H.
    + apply (found_skill_contains U _ _ _ Ht) in H as (before & after & H);
        [|apply (bool_decide_unpack _); vm_compute; reflexivity].
      apply (senior_by_indicator _ (lit "architect"));
        [apply (bool_decide_unpack _); vm_compute; reflexivity|].
      apply (contains_part (lit "event-driven ") (lit "architect") (lit "ure")
               _ before after).
      exact H.
  - intros H.
    apply (found_skill_contains U _ _ _ Hs) in H as (before & after & H);
      [|apply (bool_decide_unpack _); vm_compute; reflexivity].
    assert (Hc : contains (lit "remote") (lower U text) = true)
      by (apply (contains_part [] (lit "remote") (lit " work") _ before after); exact H).
    unfold _analyze_company_info, any_in. cbn [snd existsb]. rewrite Hc.
    split; reflexivity.
Qed.


